(** * Sky Rebel: the simulation step of [App.tsx]

    A shallow embedding of the game logic of the [App] component
    (src/src/App.tsx): the per-frame [update], [handleDeath], the spawn
    helpers, [startGame] and the input handlers, followed by the properties
    of the specification that concern them.

    Conventions of the embedding.

    - JavaScript numbers are modelled by the rationals [Q]: every arithmetic
      operation of the source is the exact one ([+], [-], [*], [/]), and
      comparisons are the order of [Q]. Rounding, infinities and NaN are
      outside the model. The score only takes integer values and is kept in
      [Z]; it is injected into [Q] where the source divides it.
    - The component state (one [useState] cell per field, plus the ref
      [lastTimeRef]) is the record [World]. A callback created by a render
      reads the values of that render: the functions below take the rendered
      world [r] (what the closure sees) apart from the pending world [w]
      (what the queued state writes have produced so far).
    - A setter called with a function queues that function; React runs the
      queued functions of a cell in the order of the calls to its setter when
      it renders next, so a write made from inside such a function reaches
      its cell after the writes that [update] queued itself. [update] lists
      the writes in an order that agrees with this for every cell.
    - [Math.random] is an oracle [random : nat -> Q], read at the position
      [randomCalls] which every call advances; [Math.sin] is a parameter.
    - [setTimeout] appends to the list [timers]; the event [TimerFires]
      runs a pending callback. Calls to [confetti] are counted.
    - Handlers passed as JSX props belong to the current render. The keydown
      listener (lines 398-409) is bound by an effect that depends on
      [gameState] alone: its handlers belong to the last render that changed
      the game state. [listenerDimensions] holds the window size of that
      render, the only value through which its handlers can be stale. *)

From Stdlib Require Import QArith Qround ZArith Lia Lqa.
From stdpp Require Import gmap strings list fin_maps.

Local Open Scope Q_scope.

(** ** Constants (App.tsx, lines 14-19) *)

Definition GRAVITY : Q := 4 # 10.
Definition JUMP_FORCE : Q := -8.
Definition GAME_SPEED_BASE : Q := 5.
Definition PLAYER_SIZE : Q := 40.
Definition OBSTACLE_WIDTH : Q := 60.
Definition POWERUP_SIZE : Q := 30.

(** ** Numbers *)

(** [a < b] as a test. *)
Definition Qltb (a b : Q) : bool := negb (Qle_bool b a).

(** [Math.max] on two numbers. *)
Definition Qmax (a b : Q) : Q := if Qle_bool a b then b else a.

(** Truncation towards zero, and the remainder operator [%] of JavaScript
    (sign of the dividend). For a zero divisor JavaScript yields NaN, which
    is outside the numbers modelled here: [jsRem a 0] is [a]. The only use
    is the background offset, whose value no statement below speaks of. *)
Definition Qtrunc (a : Q) : Z := Z.quot (Qnum a) (Z.pos (Qden a)).

Definition jsRem (a b : Q) : Q := a - b * inject_Z (Qtrunc (a / b)).

(** Truthiness of [record[key]] for a [Record<string, number>]: a missing
    key reads [undefined], a number is truthy unless it is zero. *)
Definition truthy (v : option Q) : bool :=
  match v with
  | Some n => negb (Qeq_bool n 0)
  | None => false
  end.

(** ** Types (App.tsx, lines 21-70) *)

Inductive GameState : Set :=
  START | PLAYING | PAUSED | PHOENIX_REVIVE | GAME_OVER.

Definition GameState_eqb (a b : GameState) : bool :=
  match a, b with
  | START, START | PLAYING, PLAYING | PAUSED, PAUSED
  | PHOENIX_REVIVE, PHOENIX_REVIVE | GAME_OVER, GAME_OVER => true
  | _, _ => false
  end.

(** Identifiers are strings in the source. All but the boss's are
    [Math.random().toString()]; the drawn number stands for its string. *)
Inductive EntityId : Set :=
  | NamedId (name : string)
  | RandomId (draw : Q).

Inductive ObstacleType : Set := DRONE | LASER | STORM | WIRE.

Inductive PowerUpType : Set := FIRE_WINGS | WIND_GLIDE | SHIELD | PHOENIX.

(** The string a power-up kind is, as the key of [activePowerUps]. *)
Definition keyOf (t : PowerUpType) : string :=
  match t with
  | FIRE_WINGS => "FIRE_WINGS"
  | WIND_GLIDE => "WIND_GLIDE"
  | SHIELD => "SHIELD"
  | PHOENIX => "PHOENIX"
  end.

Module Obstacle.
Record t : Type := mk
  { id : EntityId; x : Q; y : Q; width : Q; height : Q;
    type : ObstacleType; speed : Q }.
Definition withX (v : Q) (o : t) : t :=
  mk (id o) v (y o) (width o) (height o) (type o) (speed o).
End Obstacle.

Module PowerUp.
Record t : Type := mk
  { id : EntityId; x : Q; y : Q; width : Q; height : Q; type : PowerUpType }.
Definition withX (v : Q) (p : t) : t :=
  mk (id p) v (y p) (width p) (height p) (type p).
End PowerUp.

Module Boss.
Record t : Type := mk
  { id : EntityId; x : Q; y : Q; width : Q; height : Q;
    health : Q; maxHealth : Q; active : bool; phase : Z }.
Definition withHealth (v : Q) (b : t) : t :=
  mk (id b) (x b) (y b) (width b) (height b) v (maxHealth b) (active b) (phase b).
Definition withXY (vx vy : Q) (b : t) : t :=
  mk (id b) vx vy (width b) (height b) (health b) (maxHealth b) (active b) (phase b).
End Boss.

Module Particle.
Record t : Type := mk
  { id : EntityId; x : Q; y : Q; vx : Q; vy : Q; life : Q;
    color : string; size : Q }.
End Particle.

Module Projectile.
Record t : Type := mk
  { id : EntityId; x : Q; y : Q; width : Q; height : Q; vx : Q; vy : Q }.
Definition withX (v : Q) (p : t) : t :=
  mk (id p) v (y p) (width p) (height p) (vx p) (vy p).
End Projectile.

Module Challenge.
Record t : Type := mk
  { id : string; description : string; target : Q; progress : Q;
    completed : bool; rewardSkin : string }.
End Challenge.

Record Dimensions : Type := { width : Q; height : Q }.

(** The callbacks handed to [setTimeout] by [handleDeath] (lines 199-202):
    the outer one returns to PLAYING and arms the inner one, which ends
    phoenix mode. *)
Inductive TimerCallback : Set := RevivePlaying | ClearPhoenix.

Record Timer : Type := { delay : Z; callback : TimerCallback }.

(** ** The component state (App.tsx, lines 75-110) *)

Record World : Type :=
  { gameState : GameState;
    score : Z;
    highScore : Z;
    dimensions : Dimensions;
    playerY : Q;
    playerVelocity : Q;
    isPhoenixMode : bool;
    activePowerUps : gmap string Q;
    obstacles : list Obstacle.t;
    powerUps : list PowerUp.t;
    particles : list Particle.t;
    backgroundOffset : Q;
    boss : option Boss.t;
    projectiles : list Projectile.t;
    currentSkin : string;
    unlockedSkins : list string;
    challenges : list Challenge.t;
    lastTimeRef : option Q;
    timers : list Timer;
    confettiShots : nat;
    randomCalls : nat;
    listenerDimensions : Dimensions }.

(** One setter per cell; each takes the new value. *)

Definition setGameState (v : GameState) (w : World) : World :=
  {| gameState := v; score := score w; highScore := highScore w; dimensions := dimensions w;
     playerY := playerY w; playerVelocity := playerVelocity w; isPhoenixMode := isPhoenixMode w;
     activePowerUps := activePowerUps w; obstacles := obstacles w; powerUps := powerUps w;
     particles := particles w; backgroundOffset := backgroundOffset w; boss := boss w;
     projectiles := projectiles w; currentSkin := currentSkin w; unlockedSkins := unlockedSkins
     w; challenges := challenges w; lastTimeRef := lastTimeRef w; timers := timers w;
     confettiShots := confettiShots w; randomCalls := randomCalls w; listenerDimensions :=
     listenerDimensions w |}.

Definition setScore (v : Z) (w : World) : World :=
  {| gameState := gameState w; score := v; highScore := highScore w; dimensions := dimensions
     w; playerY := playerY w; playerVelocity := playerVelocity w; isPhoenixMode := isPhoenixMode
     w; activePowerUps := activePowerUps w; obstacles := obstacles w; powerUps := powerUps w;
     particles := particles w; backgroundOffset := backgroundOffset w; boss := boss w;
     projectiles := projectiles w; currentSkin := currentSkin w; unlockedSkins := unlockedSkins
     w; challenges := challenges w; lastTimeRef := lastTimeRef w; timers := timers w;
     confettiShots := confettiShots w; randomCalls := randomCalls w; listenerDimensions :=
     listenerDimensions w |}.

Definition setHighScore (v : Z) (w : World) : World :=
  {| gameState := gameState w; score := score w; highScore := v; dimensions := dimensions w;
     playerY := playerY w; playerVelocity := playerVelocity w; isPhoenixMode := isPhoenixMode w;
     activePowerUps := activePowerUps w; obstacles := obstacles w; powerUps := powerUps w;
     particles := particles w; backgroundOffset := backgroundOffset w; boss := boss w;
     projectiles := projectiles w; currentSkin := currentSkin w; unlockedSkins := unlockedSkins
     w; challenges := challenges w; lastTimeRef := lastTimeRef w; timers := timers w;
     confettiShots := confettiShots w; randomCalls := randomCalls w; listenerDimensions :=
     listenerDimensions w |}.

Definition setDimensions (v : Dimensions) (w : World) : World :=
  {| gameState := gameState w; score := score w; highScore := highScore w; dimensions := v;
     playerY := playerY w; playerVelocity := playerVelocity w; isPhoenixMode := isPhoenixMode w;
     activePowerUps := activePowerUps w; obstacles := obstacles w; powerUps := powerUps w;
     particles := particles w; backgroundOffset := backgroundOffset w; boss := boss w;
     projectiles := projectiles w; currentSkin := currentSkin w; unlockedSkins := unlockedSkins
     w; challenges := challenges w; lastTimeRef := lastTimeRef w; timers := timers w;
     confettiShots := confettiShots w; randomCalls := randomCalls w; listenerDimensions :=
     listenerDimensions w |}.

Definition setPlayerY (v : Q) (w : World) : World :=
  {| gameState := gameState w; score := score w; highScore := highScore w; dimensions :=
     dimensions w; playerY := v; playerVelocity := playerVelocity w; isPhoenixMode :=
     isPhoenixMode w; activePowerUps := activePowerUps w; obstacles := obstacles w; powerUps :=
     powerUps w; particles := particles w; backgroundOffset := backgroundOffset w; boss := boss
     w; projectiles := projectiles w; currentSkin := currentSkin w; unlockedSkins :=
     unlockedSkins w; challenges := challenges w; lastTimeRef := lastTimeRef w; timers := timers
     w; confettiShots := confettiShots w; randomCalls := randomCalls w; listenerDimensions :=
     listenerDimensions w |}.

Definition setPlayerVelocity (v : Q) (w : World) : World :=
  {| gameState := gameState w; score := score w; highScore := highScore w; dimensions :=
     dimensions w; playerY := playerY w; playerVelocity := v; isPhoenixMode := isPhoenixMode w;
     activePowerUps := activePowerUps w; obstacles := obstacles w; powerUps := powerUps w;
     particles := particles w; backgroundOffset := backgroundOffset w; boss := boss w;
     projectiles := projectiles w; currentSkin := currentSkin w; unlockedSkins := unlockedSkins
     w; challenges := challenges w; lastTimeRef := lastTimeRef w; timers := timers w;
     confettiShots := confettiShots w; randomCalls := randomCalls w; listenerDimensions :=
     listenerDimensions w |}.

Definition setIsPhoenixMode (v : bool) (w : World) : World :=
  {| gameState := gameState w; score := score w; highScore := highScore w; dimensions :=
     dimensions w; playerY := playerY w; playerVelocity := playerVelocity w; isPhoenixMode := v;
     activePowerUps := activePowerUps w; obstacles := obstacles w; powerUps := powerUps w;
     particles := particles w; backgroundOffset := backgroundOffset w; boss := boss w;
     projectiles := projectiles w; currentSkin := currentSkin w; unlockedSkins := unlockedSkins
     w; challenges := challenges w; lastTimeRef := lastTimeRef w; timers := timers w;
     confettiShots := confettiShots w; randomCalls := randomCalls w; listenerDimensions :=
     listenerDimensions w |}.

Definition setActivePowerUps (v : gmap string Q) (w : World) : World :=
  {| gameState := gameState w; score := score w; highScore := highScore w; dimensions :=
     dimensions w; playerY := playerY w; playerVelocity := playerVelocity w; isPhoenixMode :=
     isPhoenixMode w; activePowerUps := v; obstacles := obstacles w; powerUps := powerUps w;
     particles := particles w; backgroundOffset := backgroundOffset w; boss := boss w;
     projectiles := projectiles w; currentSkin := currentSkin w; unlockedSkins := unlockedSkins
     w; challenges := challenges w; lastTimeRef := lastTimeRef w; timers := timers w;
     confettiShots := confettiShots w; randomCalls := randomCalls w; listenerDimensions :=
     listenerDimensions w |}.

Definition setObstacles (v : list Obstacle.t) (w : World) : World :=
  {| gameState := gameState w; score := score w; highScore := highScore w; dimensions :=
     dimensions w; playerY := playerY w; playerVelocity := playerVelocity w; isPhoenixMode :=
     isPhoenixMode w; activePowerUps := activePowerUps w; obstacles := v; powerUps := powerUps w;
     particles := particles w; backgroundOffset := backgroundOffset w; boss := boss w;
     projectiles := projectiles w; currentSkin := currentSkin w; unlockedSkins := unlockedSkins
     w; challenges := challenges w; lastTimeRef := lastTimeRef w; timers := timers w;
     confettiShots := confettiShots w; randomCalls := randomCalls w; listenerDimensions :=
     listenerDimensions w |}.

Definition setPowerUps (v : list PowerUp.t) (w : World) : World :=
  {| gameState := gameState w; score := score w; highScore := highScore w; dimensions :=
     dimensions w; playerY := playerY w; playerVelocity := playerVelocity w; isPhoenixMode :=
     isPhoenixMode w; activePowerUps := activePowerUps w; obstacles := obstacles w; powerUps :=
     v; particles := particles w; backgroundOffset := backgroundOffset w; boss := boss w;
     projectiles := projectiles w; currentSkin := currentSkin w; unlockedSkins := unlockedSkins
     w; challenges := challenges w; lastTimeRef := lastTimeRef w; timers := timers w;
     confettiShots := confettiShots w; randomCalls := randomCalls w; listenerDimensions :=
     listenerDimensions w |}.

Definition setParticles (v : list Particle.t) (w : World) : World :=
  {| gameState := gameState w; score := score w; highScore := highScore w; dimensions :=
     dimensions w; playerY := playerY w; playerVelocity := playerVelocity w; isPhoenixMode :=
     isPhoenixMode w; activePowerUps := activePowerUps w; obstacles := obstacles w; powerUps :=
     powerUps w; particles := v; backgroundOffset := backgroundOffset w; boss := boss w;
     projectiles := projectiles w; currentSkin := currentSkin w; unlockedSkins := unlockedSkins
     w; challenges := challenges w; lastTimeRef := lastTimeRef w; timers := timers w;
     confettiShots := confettiShots w; randomCalls := randomCalls w; listenerDimensions :=
     listenerDimensions w |}.

Definition setBackgroundOffset (v : Q) (w : World) : World :=
  {| gameState := gameState w; score := score w; highScore := highScore w; dimensions :=
     dimensions w; playerY := playerY w; playerVelocity := playerVelocity w; isPhoenixMode :=
     isPhoenixMode w; activePowerUps := activePowerUps w; obstacles := obstacles w; powerUps :=
     powerUps w; particles := particles w; backgroundOffset := v; boss := boss w; projectiles :=
     projectiles w; currentSkin := currentSkin w; unlockedSkins := unlockedSkins w; challenges :=
     challenges w; lastTimeRef := lastTimeRef w; timers := timers w; confettiShots :=
     confettiShots w; randomCalls := randomCalls w; listenerDimensions := listenerDimensions w
     |}.

Definition setBoss (v : option Boss.t) (w : World) : World :=
  {| gameState := gameState w; score := score w; highScore := highScore w; dimensions :=
     dimensions w; playerY := playerY w; playerVelocity := playerVelocity w; isPhoenixMode :=
     isPhoenixMode w; activePowerUps := activePowerUps w; obstacles := obstacles w; powerUps :=
     powerUps w; particles := particles w; backgroundOffset := backgroundOffset w; boss := v;
     projectiles := projectiles w; currentSkin := currentSkin w; unlockedSkins := unlockedSkins
     w; challenges := challenges w; lastTimeRef := lastTimeRef w; timers := timers w;
     confettiShots := confettiShots w; randomCalls := randomCalls w; listenerDimensions :=
     listenerDimensions w |}.

Definition setProjectiles (v : list Projectile.t) (w : World) : World :=
  {| gameState := gameState w; score := score w; highScore := highScore w; dimensions :=
     dimensions w; playerY := playerY w; playerVelocity := playerVelocity w; isPhoenixMode :=
     isPhoenixMode w; activePowerUps := activePowerUps w; obstacles := obstacles w; powerUps :=
     powerUps w; particles := particles w; backgroundOffset := backgroundOffset w; boss := boss
     w; projectiles := v; currentSkin := currentSkin w; unlockedSkins := unlockedSkins w;
     challenges := challenges w; lastTimeRef := lastTimeRef w; timers := timers w; confettiShots
     := confettiShots w; randomCalls := randomCalls w; listenerDimensions := listenerDimensions w
     |}.

Definition setCurrentSkin (v : string) (w : World) : World :=
  {| gameState := gameState w; score := score w; highScore := highScore w; dimensions :=
     dimensions w; playerY := playerY w; playerVelocity := playerVelocity w; isPhoenixMode :=
     isPhoenixMode w; activePowerUps := activePowerUps w; obstacles := obstacles w; powerUps :=
     powerUps w; particles := particles w; backgroundOffset := backgroundOffset w; boss := boss
     w; projectiles := projectiles w; currentSkin := v; unlockedSkins := unlockedSkins w;
     challenges := challenges w; lastTimeRef := lastTimeRef w; timers := timers w; confettiShots
     := confettiShots w; randomCalls := randomCalls w; listenerDimensions := listenerDimensions w
     |}.

Definition setUnlockedSkins (v : list string) (w : World) : World :=
  {| gameState := gameState w; score := score w; highScore := highScore w; dimensions :=
     dimensions w; playerY := playerY w; playerVelocity := playerVelocity w; isPhoenixMode :=
     isPhoenixMode w; activePowerUps := activePowerUps w; obstacles := obstacles w; powerUps :=
     powerUps w; particles := particles w; backgroundOffset := backgroundOffset w; boss := boss
     w; projectiles := projectiles w; currentSkin := currentSkin w; unlockedSkins := v;
     challenges := challenges w; lastTimeRef := lastTimeRef w; timers := timers w; confettiShots
     := confettiShots w; randomCalls := randomCalls w; listenerDimensions := listenerDimensions w
     |}.

Definition setChallenges (v : list Challenge.t) (w : World) : World :=
  {| gameState := gameState w; score := score w; highScore := highScore w; dimensions :=
     dimensions w; playerY := playerY w; playerVelocity := playerVelocity w; isPhoenixMode :=
     isPhoenixMode w; activePowerUps := activePowerUps w; obstacles := obstacles w; powerUps :=
     powerUps w; particles := particles w; backgroundOffset := backgroundOffset w; boss := boss
     w; projectiles := projectiles w; currentSkin := currentSkin w; unlockedSkins :=
     unlockedSkins w; challenges := v; lastTimeRef := lastTimeRef w; timers := timers w;
     confettiShots := confettiShots w; randomCalls := randomCalls w; listenerDimensions :=
     listenerDimensions w |}.

Definition setLastTimeRef (v : option Q) (w : World) : World :=
  {| gameState := gameState w; score := score w; highScore := highScore w; dimensions :=
     dimensions w; playerY := playerY w; playerVelocity := playerVelocity w; isPhoenixMode :=
     isPhoenixMode w; activePowerUps := activePowerUps w; obstacles := obstacles w; powerUps :=
     powerUps w; particles := particles w; backgroundOffset := backgroundOffset w; boss := boss
     w; projectiles := projectiles w; currentSkin := currentSkin w; unlockedSkins :=
     unlockedSkins w; challenges := challenges w; lastTimeRef := v; timers := timers w;
     confettiShots := confettiShots w; randomCalls := randomCalls w; listenerDimensions :=
     listenerDimensions w |}.

Definition setTimers (v : list Timer) (w : World) : World :=
  {| gameState := gameState w; score := score w; highScore := highScore w; dimensions :=
     dimensions w; playerY := playerY w; playerVelocity := playerVelocity w; isPhoenixMode :=
     isPhoenixMode w; activePowerUps := activePowerUps w; obstacles := obstacles w; powerUps :=
     powerUps w; particles := particles w; backgroundOffset := backgroundOffset w; boss := boss
     w; projectiles := projectiles w; currentSkin := currentSkin w; unlockedSkins :=
     unlockedSkins w; challenges := challenges w; lastTimeRef := lastTimeRef w; timers := v;
     confettiShots := confettiShots w; randomCalls := randomCalls w; listenerDimensions :=
     listenerDimensions w |}.

Definition setConfettiShots (v : nat) (w : World) : World :=
  {| gameState := gameState w; score := score w; highScore := highScore w; dimensions :=
     dimensions w; playerY := playerY w; playerVelocity := playerVelocity w; isPhoenixMode :=
     isPhoenixMode w; activePowerUps := activePowerUps w; obstacles := obstacles w; powerUps :=
     powerUps w; particles := particles w; backgroundOffset := backgroundOffset w; boss := boss
     w; projectiles := projectiles w; currentSkin := currentSkin w; unlockedSkins :=
     unlockedSkins w; challenges := challenges w; lastTimeRef := lastTimeRef w; timers := timers
     w; confettiShots := v; randomCalls := randomCalls w; listenerDimensions :=
     listenerDimensions w |}.

Definition setRandomCalls (v : nat) (w : World) : World :=
  {| gameState := gameState w; score := score w; highScore := highScore w; dimensions :=
     dimensions w; playerY := playerY w; playerVelocity := playerVelocity w; isPhoenixMode :=
     isPhoenixMode w; activePowerUps := activePowerUps w; obstacles := obstacles w; powerUps :=
     powerUps w; particles := particles w; backgroundOffset := backgroundOffset w; boss := boss
     w; projectiles := projectiles w; currentSkin := currentSkin w; unlockedSkins :=
     unlockedSkins w; challenges := challenges w; lastTimeRef := lastTimeRef w; timers := timers
     w; confettiShots := confettiShots w; randomCalls := v; listenerDimensions :=
     listenerDimensions w |}.

Definition setListenerDimensions (v : Dimensions) (w : World) : World :=
  {| gameState := gameState w; score := score w; highScore := highScore w; dimensions :=
     dimensions w; playerY := playerY w; playerVelocity := playerVelocity w; isPhoenixMode :=
     isPhoenixMode w; activePowerUps := activePowerUps w; obstacles := obstacles w; powerUps :=
     powerUps w; particles := particles w; backgroundOffset := backgroundOffset w; boss := boss
     w; projectiles := projectiles w; currentSkin := currentSkin w; unlockedSkins :=
     unlockedSkins w; challenges := challenges w; lastTimeRef := lastTimeRef w; timers := timers
     w; confettiShots := confettiShots w; randomCalls := randomCalls w; listenerDimensions := v
     |}.

(** ** Small helpers *)

Definition isSome {A : Type} (o : option A) : bool :=
  match o with Some _ => true | None => false end.

(** [list.forEach(f)] where [f] writes to the world. *)
Definition forEach {A : Type} (f : A -> World -> World) (l : list A) (w : World) : World :=
  fold_left (fun acc a => f a acc) l w.

(** [list.map(f)] where [f] also writes to the world, elements in order. *)
Fixpoint mapWrites {A B : Type} (f : A -> World -> B * World) (l : list A) (w : World)
  : list B * World :=
  match l with
  | [] => ([], w)
  | a :: l' =>
      let '(b, w1) := f a w in
      let '(bs, w2) := mapWrites f l' w1 in
      (b :: bs, w2)
  end.

(** [[...new Set(l)]]: the elements of [l] in order of first occurrence. *)
Fixpoint setOrder (seen l : list string) : list string :=
  match l with
  | [] => []
  | s :: l' =>
      if bool_decide (s ∈ seen) then setOrder seen l'
      else s :: setOrder (s :: seen) l'
  end.

Definition uniq (l : list string) : list string := setOrder [] l.

(** [setTimeout(callback, delay)]. *)
Definition setTimeout (cb : TimerCallback) (d : Z) (w : World) : World :=
  setTimers (timers w ++ [{| delay := d; callback := cb |}]) w.

(** The world of the first render (lines 75-104) in a window of the given
    inner size. *)
Definition initialWorld (innerWidth innerHeight : Q) : World :=
  {| gameState := START; score := 0; highScore := 0;
     dimensions := {| width := innerWidth; height := innerHeight |};
     playerY := innerHeight / 2; playerVelocity := 0; isPhoenixMode := false;
     activePowerUps := ∅; obstacles := []; powerUps := []; particles := [];
     backgroundOffset := 0; boss := None; projectiles := [];
     currentSkin := "DEFAULT"; unlockedSkins := ["DEFAULT"%string];
     challenges :=
       [Challenge.mk "CHALLENGE_1" "Survive 500m without dying" 500 0 false "ICE"];
     lastTimeRef := None; timers := []; confettiShots := O; randomCalls := O;
     listenerDimensions := {| width := innerWidth; height := innerHeight |} |}.

Section Simulation.

(** [Math.random], call by call, and [Math.sin]. *)
Variable random : nat -> Q.
Variable sin : Q -> Q.

(** *** Spawn helpers (lines 124-167) *)

Definition obstacleTypeAt (i : Z) : ObstacleType :=
  match i with
  | 0%Z => DRONE
  | 1%Z => LASER
  | 2%Z => STORM
  | _ => WIRE
  end.

Definition powerUpTypeAt (i : Z) : PowerUpType :=
  match i with
  | 0%Z => FIRE_WINGS
  | 1%Z => WIND_GLIDE
  | 2%Z => SHIELD
  | _ => PHOENIX
  end.

(** [spawnObstacle] (lines 124-137) builds the object [newObstacle] when it
    is called and queues its append to the pool. The three draws of the
    object are the calls [n], [n+1] and [n+2]. [Math.random() < 1], so the
    index into [types] is one of 0..3. *)
Definition newObstacle (r : World) (n : nat) : Obstacle.t :=
  let type := obstacleTypeAt (Qfloor (random n * 4)) in
  {| Obstacle.id := RandomId (random (n + 1));
     Obstacle.x := width (dimensions r) + 100;
     Obstacle.y := random (n + 2) * (height (dimensions r) - 100) + 50;
     Obstacle.width := OBSTACLE_WIDTH;
     Obstacle.height := match type with LASER => 200 | _ => 60 end;
     Obstacle.type := type;
     Obstacle.speed := GAME_SPEED_BASE + inject_Z (score r) / 500 |}.

(** Likewise [newPowerUp] of [spawnPowerUp] (lines 139-151). *)
Definition newPowerUp (r : World) (n : nat) : PowerUp.t :=
  {| PowerUp.id := RandomId (random (n + 1));
     PowerUp.x := width (dimensions r) + 100;
     PowerUp.y := random (n + 2) * (height (dimensions r) - 100) + 50;
     PowerUp.width := POWERUP_SIZE;
     PowerUp.height := POWERUP_SIZE;
     PowerUp.type := powerUpTypeAt (Qfloor (random n * 4)) |}.

Definition newBoss (r : World) : Boss.t :=
  {| Boss.id := NamedId "BOSS_1";
     Boss.x := width (dimensions r) + 200;
     Boss.y := height (dimensions r) / 2 - 100;
     Boss.width := 200;
     Boss.height := 200;
     Boss.health := 100;
     Boss.maxHealth := 100;
     Boss.active := true;
     Boss.phase := 1 |}.

Definition spawnBoss (r w : World) : World :=
  setObstacles [] (setBoss (Some (newBoss r)) w).

(** *** createExplosion (lines 169-181) *)

(** One particle draws its id, [vx], [vy] and [size], in this order. *)
Definition explosionParticle (n : nat) (x y : Q) (color : string) : Particle.t :=
  {| Particle.id := RandomId (random n);
     Particle.x := x;
     Particle.y := y;
     Particle.vx := (random (n + 1) - (1 # 2)) * 10;
     Particle.vy := (random (n + 2) - (1 # 2)) * 10;
     Particle.life := 1;
     Particle.color := color;
     Particle.size := random (n + 3) * 5 + 2 |}.

Fixpoint explosionParticles (count n : nat) (x y : Q) (color : string)
  : list Particle.t :=
  match count with
  | O => []
  | S count' =>
      explosionParticle n x y color :: explosionParticles count' (n + 4) x y color
  end.

Definition createExplosion (x y : Q) (color : string) (w : World) : World :=
  setRandomCalls (randomCalls w + 60)
    (setParticles (particles w ++ explosionParticles 15 (randomCalls w) x y color) w).

(** *** handleDeath (lines 183-207) *)

Definition handleDeath (r w : World) : World :=
  if truthy (activePowerUps r !! "SHIELD") then
    createExplosion 50 (playerY r) "#3b82f6"
      (setActivePowerUps (delete "SHIELD" (activePowerUps w)) w)
  else if truthy (activePowerUps r !! "PHOENIX") || negb (isPhoenixMode r) then
    setTimeout RevivePlaying 1000
      (createExplosion 50 (playerY r) "#ef4444"
         (setIsPhoenixMode true (setGameState PHOENIX_REVIVE w)))
  else
    let w1 := setGameState GAME_OVER w in
    if (score r >? highScore r)%Z then setHighScore (score r) w1 else w1.

(** The two timer callbacks of lines 199-202. *)
Definition runTimer (cb : TimerCallback) (w : World) : World :=
  match cb with
  | RevivePlaying => setTimeout ClearPhoenix 5000 (setGameState PLAYING w)
  | ClearPhoenix => setIsPhoenixMode false w
  end.

(** *** update (lines 209-389) *)

(** The test of line 220 on the candidate position. *)
Definition outOfBounds (r : World) (nextY : Q) : bool :=
  Qltb nextY 0 || Qltb (height (dimensions r) - PLAYER_SIZE) nextY.

(** The function given to [setPlayerY] (lines 218-225). It returns [y]
    after calling [handleDeath], so the cell keeps its value then. *)
Definition stepPlayerY (r : World) (deltaTime : Q) (w : World) : World :=
  let nextY := playerY w + playerVelocity r * deltaTime in
  if outOfBounds r nextY then handleDeath r w
  else setPlayerY nextY w.

(** The overlap test of lines 260-265 and 283-288 between the player, at
    x = 50 and the rendered [playerY], and a box. *)
Definition hitsPlayer (r : World) (x y w h : Q) : bool :=
  Qltb 50 (x + w) && Qltb x (50 + PLAYER_SIZE)
  && Qltb (playerY r) (y + h) && Qltb y (playerY r + PLAYER_SIZE).

(** The function given to [setProjectiles] (lines 230-252). *)
Definition hitsBoss (b : Boss.t) (p : Projectile.t) : bool :=
  Qltb (Projectile.x p) (Boss.x b + Boss.width b)
  && Qltb (Boss.x b) (Projectile.x p + Projectile.width p)
  && Qltb (Projectile.y p) (Boss.y b + Boss.height b)
  && Qltb (Boss.y b) (Projectile.y p + Projectile.height p).

Definition damageBoss (w : World) : World :=
  setBoss
    (match boss w with
     | Some b => Some (Boss.withHealth (Qmax 0 (Boss.health b - 5)) b)
     | None => None
     end) w.

Definition projectileHit (b : Boss.t) (p : Projectile.t) (w : World)
  : Projectile.t * World :=
  if hitsBoss b p then
    (Projectile.withX 10000 p,
     createExplosion (Projectile.x p) (Projectile.y p) "#f97316" (damageBoss w))
  else (p, w).

Definition stepProjectiles (r w : World) : World :=
  let next :=
    List.filter
      (fun p => Qltb (Projectile.x p) (width (dimensions r) + 100))
      (map (fun p => Projectile.withX (Projectile.x p + Projectile.vx p) p)
         (projectiles w)) in
  let '(next', w1) :=
    match boss r with
    | Some b =>
        if Boss.active b then mapWrites (projectileHit b) next w else (next, w)
    | None => (next, w)
    end in
  setProjectiles
    (List.filter (fun p => Qltb (Projectile.x p) (width (dimensions r))) next') w1.

(** The function given to [setObstacles] (lines 254-276). *)
Definition obstacleHit (r : World) (o : Obstacle.t) (w : World) : World :=
  if hitsPlayer r (Obstacle.x o) (Obstacle.y o) (Obstacle.width o) (Obstacle.height o)
  then
    if truthy (activePowerUps r !! "FIRE_WINGS") then
      createExplosion (Obstacle.x o) (Obstacle.y o) "#f97316" w
    else if negb (truthy (activePowerUps r !! "WIND_GLIDE")) then handleDeath r w
    else w
  else w.

Definition advanceObstacles (currentSpeed deltaTime : Q) (prev : list Obstacle.t)
  : list Obstacle.t :=
  List.filter (fun o => Qltb (-100) (Obstacle.x o))
    (map (fun o => Obstacle.withX (Obstacle.x o - currentSpeed * deltaTime) o) prev).

Definition stepObstacles (r : World) (currentSpeed deltaTime : Q) (w : World) : World :=
  let next := advanceObstacles currentSpeed deltaTime (obstacles w) in
  setObstacles next (forEach (obstacleHit r) next w).

(** The function given to [setPowerUps] (lines 278-295). *)
Definition powerUpHit (r : World) (p : PowerUp.t) (w : World) : World :=
  if hitsPlayer r (PowerUp.x p) (PowerUp.y p) (PowerUp.width p) (PowerUp.height p)
  then
    createExplosion (PowerUp.x p) (PowerUp.y p) "#fbbf24"
      (setActivePowerUps (<[keyOf (PowerUp.type p) := 10000]> (activePowerUps w)) w)
  else w.

Definition advancePowerUps (currentSpeed deltaTime : Q) (prev : list PowerUp.t)
  : list PowerUp.t :=
  List.filter (fun p => Qltb (-100) (PowerUp.x p))
    (map (fun p => PowerUp.withX (PowerUp.x p - currentSpeed * deltaTime) p) prev).

Definition stepPowerUps (r : World) (currentSpeed deltaTime : Q) (w : World) : World :=
  let next := advancePowerUps currentSpeed deltaTime (powerUps w) in
  setPowerUps next (forEach (powerUpHit r) next w).

(** The function given to [setParticles] (lines 297-302). *)
Definition stepParticles (w : World) : World :=
  setParticles
    (List.filter (fun p => Qltb 0 (Particle.life p))
       (map
          (fun p =>
             {| Particle.id := Particle.id p;
                Particle.x := Particle.x p + Particle.vx p;
                Particle.y := Particle.y p + Particle.vy p;
                Particle.vx := Particle.vx p;
                Particle.vy := Particle.vy p;
                Particle.life := Particle.life p - (2 # 100);
                Particle.color := Particle.color p;
                Particle.size := Particle.size p |})
          (particles w))) w.

(** The function given to [setChallenges] (lines 311-321), one challenge. *)
Definition updateChallenge (r : World) (nextScore : Z) (c : Challenge.t) (w : World)
  : Challenge.t * World :=
  if negb (Challenge.completed c) && negb (isPhoenixMode r) then
    let nextProgress := inject_Z nextScore / 10 in
    if Qle_bool (Challenge.target c) nextProgress then
      ({| Challenge.id := Challenge.id c;
          Challenge.description := Challenge.description c;
          Challenge.target := Challenge.target c;
          Challenge.progress := Challenge.target c;
          Challenge.completed := true;
          Challenge.rewardSkin := Challenge.rewardSkin c |},
       setUnlockedSkins (uniq (unlockedSkins w ++ [Challenge.rewardSkin c])) w)
    else
      ({| Challenge.id := Challenge.id c;
          Challenge.description := Challenge.description c;
          Challenge.target := Challenge.target c;
          Challenge.progress := nextProgress;
          Challenge.completed := Challenge.completed c;
          Challenge.rewardSkin := Challenge.rewardSkin c |}, w)
  else (c, w).

Definition stepChallenges (r : World) (nextScore : Z) (w : World) : World :=
  let '(next, w1) := mapWrites (updateChallenge r nextScore) (challenges w) w in
  setChallenges next w1.

(** The function given to [setScore] (lines 304-324). *)
Definition stepScore (r w : World) : World :=
  let nextScore := (score w + 1)%Z in
  let w1 :=
    if (Z.rem nextScore 1000 =? 0)%Z && negb (isSome (boss r))
    then spawnBoss r w else w in
  setScore nextScore (stepChallenges r nextScore w1).

(** The function given to [setBoss] (lines 328-366). *)
Definition bossLaser (prev : Boss.t) (n : nat) : Obstacle.t :=
  {| Obstacle.id := RandomId (random n);
     Obstacle.x := Boss.x prev;
     Obstacle.y := Boss.y prev + Boss.height prev / 2;
     Obstacle.width := 100;
     Obstacle.height := 10;
     Obstacle.type := LASER;
     Obstacle.speed := 10 |}.

Definition stepBoss (r : World) (time : Q) (w : World) : World :=
  match boss w with
  | None => w
  | Some prev =>
      let approaching := Qltb (width (dimensions r) - 250) (Boss.x prev) in
      let nextX := if approaching then Boss.x prev - 2 else Boss.x prev in
      let nextY :=
        if approaching then Boss.y prev else Boss.y prev + sin (time / 500) * 3 in
      let n := randomCalls w in
      let w1 :=
        if Qltb (random n) (5 # 100) then
          setRandomCalls (n + 2)
            (setObstacles (obstacles w ++ [bossLaser prev (n + 1)]) w)
        else setRandomCalls (n + 1) w in
      if Qle_bool (Boss.health prev) 0 then
        setBoss None
          (setConfettiShots (S (confettiShots w1))
             (createExplosion (Boss.x prev + Boss.width prev / 2)
                (Boss.y prev + Boss.height prev / 2) "#ef4444" w1))
      else setBoss (Some (Boss.withXY nextX nextY prev)) w1
  end.

(** Lines 369-385: what [update] calls itself, after queueing the
    functions above. The objects are built, and their draws made, at the
    call; the append to the pool is queued. *)
Definition rollProjectile (r w : World) : option Projectile.t * World :=
  if truthy (activePowerUps r !! "FIRE_WINGS") then
    let n := randomCalls w in
    if Qltb (random n) (1 # 10) then
      (Some {| Projectile.id := RandomId (random (n + 1));
               Projectile.x := 50 + PLAYER_SIZE;
               Projectile.y := playerY r;
               Projectile.width := 20;
               Projectile.height := 10;
               Projectile.vx := 15;
               Projectile.vy := 0 |},
       setRandomCalls (n + 2) w)
    else (None, setRandomCalls (n + 1) w)
  else (None, w).

Definition rollObstacle (r w : World) : option Obstacle.t * World :=
  let n := randomCalls w in
  if Qltb (random n) (2 # 100) && negb (isSome (boss r)) then
    (Some (newObstacle r (n + 1)), setRandomCalls (n + 4) w)
  else (None, setRandomCalls (n + 1) w).

Definition rollPowerUp (r w : World) : option PowerUp.t * World :=
  let n := randomCalls w in
  if Qltb (random n) (5 # 1000) then
    (Some (newPowerUp r (n + 1)), setRandomCalls (n + 4) w)
  else (None, setRandomCalls (n + 1) w).

(** [prev => [...prev, a]] for a call that was made, nothing otherwise. *)
Definition appended {A : Type} (o : option A) (prev : list A) : list A :=
  match o with
  | Some a => prev ++ [a]
  | None => prev
  end.

Definition currentSpeedOf (r : World) : Q :=
  (if isPhoenixMode r then GAME_SPEED_BASE * 2 else GAME_SPEED_BASE)
  + inject_Z (score r) / 1000.

(** The body of [update] under the guard of line 212, for the rendered
    world [r]. Each cell receives its writes in the order React applies
    them: first the ones [update] queued, in program order, then the ones
    made by the queued functions while they run. Hence the particle decay
    precedes the explosions, the append of [spawnObstacle] precedes the
    reset by [spawnBoss], and the boss's own step precedes the damage
    dealt from inside the projectile function.

    [settleWorld] is the part that follows the player's cells: obstacles,
    power-ups, score and challenges, boss, projectiles. *)
Definition settleWorld (r : World) (time deltaTime currentSpeed : Q)
  (newProjectile : option Projectile.t) (spawnedObstacle : option Obstacle.t)
  (spawnedPowerUp : option PowerUp.t) (w : World) : World :=
  let w := stepObstacles r currentSpeed deltaTime w in
  let w := setObstacles (appended spawnedObstacle (obstacles w)) w in
  let w := stepPowerUps r currentSpeed deltaTime w in
  let w := setPowerUps (appended spawnedPowerUp (powerUps w)) w in
  let w := stepScore r w in
  let w :=
    match boss r with
    | Some b => if Boss.active b then stepBoss r time w else w
    | None => w
    end in
  let w := stepProjectiles r w in
  setProjectiles (appended newProjectile (projectiles w)) w.

Definition advance (r : World) (time last : Q) : World :=
  let deltaTime := (time - last) / 16 in
  let currentSpeed := currentSpeedOf r in
  let '(newProjectile, w) := rollProjectile r r in
  let '(spawnedObstacle, w) := rollObstacle r w in
  let '(spawnedPowerUp, w) := rollPowerUp r w in
  let w := setPlayerVelocity (playerVelocity w + GRAVITY * deltaTime) w in
  let w :=
    setBackgroundOffset
      (jsRem (backgroundOffset w - currentSpeed * (1 # 2)) (width (dimensions r))) w in
  let w := stepParticles w in
  let w := stepPlayerY r deltaTime w in
  settleWorld r time deltaTime currentSpeed newProjectile spawnedObstacle
    spawnedPowerUp w.

(** [update(time)] as called by [requestAnimationFrame] on the world that
    was rendered last. The early return of line 210 leaves everything,
    [lastTimeRef] included, as it is. *)
Definition update (time : Q) (r : World) : World :=
  if negb (GameState_eqb (gameState r) PLAYING) then r
  else
    match lastTimeRef r with
    | Some last => setLastTimeRef (Some time) (advance r time last)
    | None => setLastTimeRef (Some time) r
    end.

(** *** Input handling (lines 398-431) *)

(** [startGame] and [handleJump] as created by the render [r]: the height
    and the game state they read are the ones of that render. *)
Definition startGame (r w : World) : World :=
  setGameState PLAYING
    (setBoss None
       (setIsPhoenixMode false
          (setActivePowerUps ∅
             (setProjectiles []
                (setParticles []
                   (setPowerUps []
                      (setObstacles []
                         (setPlayerVelocity 0
                            (setPlayerY (height (dimensions r) / 2)
                               (setScore 0 w)))))))))).

Definition handleJump (r w : World) : World :=
  match gameState r with
  | PLAYING => setPlayerVelocity JUMP_FORCE w
  | START => startGame r w
  | _ => w
  end.

(** The render whose handlers the keydown listener holds, as far as they
    read it: the effect of lines 398-409 runs again after every render that
    changed [gameState], so the game state is the current one, and the
    dimensions are those of that render. *)
Definition listenerRender (w : World) : World :=
  setDimensions (listenerDimensions w) w.

(** The effect binds the listener anew when the event changed the game
    state from [w] to [w']. *)
Definition rebind (w w' : World) : World :=
  if GameState_eqb (gameState w') (gameState w) then w'
  else setListenerDimensions (dimensions w') w'.

(** *** Events *)

(** What can happen to the component: an animation frame, the inputs (the
    buttons exist only in the states that render them), a pending timer,
    a resize of the window. [JumpInput] is the mouse or touch on the
    container, [KeyJump] is Space or ArrowUp through the keydown listener. *)
Inductive Event : Type :=
  | Frame (time : Q)
  | JumpInput
  | KeyJump
  | PauseInput
  | ResumeClick
  | StartClick
  | MenuClick
  | SkinClick (skin : string)
  | TimerFires (index : nat)
  | WindowResize (innerWidth innerHeight : Q).

(** The render that made the handler an event calls. *)
Definition handlerRender (e : Event) (w : World) : World :=
  match e with
  | KeyJump => listenerRender w
  | _ => w
  end.

(** The writes of an event. *)
Definition react (e : Event) (w : World) : World :=
  match e with
  | Frame time => update time w
  | JumpInput => handleJump w w
  | KeyJump => handleJump (listenerRender w) w
  | PauseInput =>
      match gameState w with PLAYING => setGameState PAUSED w | _ => w end
  | ResumeClick =>
      match gameState w with PAUSED => setGameState PLAYING w | _ => w end
  | StartClick =>
      match gameState w with
      | START | GAME_OVER | PAUSED => startGame w w
      | _ => w
      end
  | MenuClick =>
      match gameState w with
      | GAME_OVER | PAUSED => setGameState START w
      | _ => w
      end
  | SkinClick skin =>
      match gameState w with
      | START =>
          if bool_decide (skin ∈ unlockedSkins w) then setCurrentSkin skin w else w
      | _ => w
      end
  | TimerFires index =>
      match timers w !! index with
      | Some t => runTimer (callback t) (setTimers (delete index (timers w)) w)
      | None => w
      end
  | WindowResize innerWidth innerHeight =>
      setDimensions {| width := innerWidth; height := innerHeight |} w
  end.

(** An event: its writes, then the render and its effects. *)
Definition step (e : Event) (w : World) : World := rebind w (react e w).

Definition run (es : list Event) (w : World) : World :=
  fold_left (fun acc e => step e acc) es w.

End Simulation.

(** ** Frame conditions

    [unchanged cs w w']: every cell outside [cs] has the same value in [w]
    and [w']. Each piece of [update] comes with the cells it may write. *)

Inductive Cell : Set :=
  | CgameState | Cscore | ChighScore | Cdimensions | CplayerY | CplayerVelocity
  | CisPhoenixMode | CactivePowerUps | Cobstacles | CpowerUps | Cparticles
  | CbackgroundOffset | Cboss | Cprojectiles | CcurrentSkin | CunlockedSkins
  | Cchallenges | ClastTimeRef | Ctimers | CconfettiShots | CrandomCalls
  | ClistenerDimensions.

Definition cellType (c : Cell) : Type :=
  match c with
  | CgameState => GameState
  | Cscore | ChighScore => Z
  | Cdimensions | ClistenerDimensions => Dimensions
  | CplayerY | CplayerVelocity | CbackgroundOffset => Q
  | CisPhoenixMode => bool
  | CactivePowerUps => gmap string Q
  | Cobstacles => list Obstacle.t
  | CpowerUps => list PowerUp.t
  | Cparticles => list Particle.t
  | Cboss => option Boss.t
  | Cprojectiles => list Projectile.t
  | CcurrentSkin => string
  | CunlockedSkins => list string
  | Cchallenges => list Challenge.t
  | ClastTimeRef => option Q
  | Ctimers => list Timer
  | CconfettiShots | CrandomCalls => nat
  end.

Definition get (c : Cell) : World -> cellType c :=
  match c with
  | CgameState => gameState
  | Cscore => score
  | ChighScore => highScore
  | Cdimensions => dimensions
  | CplayerY => playerY
  | CplayerVelocity => playerVelocity
  | CisPhoenixMode => isPhoenixMode
  | CactivePowerUps => activePowerUps
  | Cobstacles => obstacles
  | CpowerUps => powerUps
  | Cparticles => particles
  | CbackgroundOffset => backgroundOffset
  | Cboss => boss
  | Cprojectiles => projectiles
  | CcurrentSkin => currentSkin
  | CunlockedSkins => unlockedSkins
  | Cchallenges => challenges
  | ClastTimeRef => lastTimeRef
  | Ctimers => timers
  | CconfettiShots => confettiShots
  | CrandomCalls => randomCalls
  | ClistenerDimensions => listenerDimensions
  end.

Definition cellIndex (c : Cell) : nat :=
  match c with
  | CgameState => 0 | Cscore => 1 | ChighScore => 2 | Cdimensions => 3
  | CplayerY => 4 | CplayerVelocity => 5 | CisPhoenixMode => 6
  | CactivePowerUps => 7 | Cobstacles => 8 | CpowerUps => 9 | Cparticles => 10
  | CbackgroundOffset => 11 | Cboss => 12 | Cprojectiles => 13
  | CcurrentSkin => 14 | CunlockedSkins => 15 | Cchallenges => 16
  | ClastTimeRef => 17 | Ctimers => 18 | CconfettiShots => 19 | CrandomCalls => 20
  | ClistenerDimensions => 21
  end.

Definition inCells (c : Cell) (cs : list Cell) : bool :=
  existsb (fun c' => Nat.eqb (cellIndex c) (cellIndex c')) cs.

Definition unchanged (cs : list Cell) (w w' : World) : Prop :=
  forall c : Cell, inCells c cs = false -> get c w' = get c w.

Definition modifies (cs : list Cell) (f : World -> World) : Prop :=
  forall w : World, unchanged cs w (f w).

(** The cells written by [handleDeath] and by the functions [update] queues. *)
Definition deathCells : list Cell :=
  [CactivePowerUps; Cparticles; CrandomCalls; CgameState; CisPhoenixMode; Ctimers;
   ChighScore].

Definition pickupCells : list Cell := [CactivePowerUps; Cparticles; CrandomCalls].

Definition scoreCells : list Cell :=
  [Cscore; Cboss; Cobstacles; Cchallenges; CunlockedSkins].

Definition bossCells : list Cell :=
  [Cboss; Cobstacles; CrandomCalls; Cparticles; CconfettiShots].

Definition projectileCells : list Cell := [Cprojectiles; Cboss; Cparticles; CrandomCalls].

(** All the cells [settleWorld] may write, and the ones written before it
    apart from the position. *)
Definition worldCells : list Cell :=
  deathCells
  ++ [Cobstacles; CpowerUps; Cscore; Cboss; Cchallenges; CunlockedSkins; CconfettiShots;
      Cprojectiles].

(** The cells written in [settleWorld] after the obstacle function. *)
Definition quietCells : list Cell :=
  [Cobstacles; CpowerUps; CactivePowerUps; Cparticles; CrandomCalls; Cscore; Cboss;
   Cchallenges; CunlockedSkins; CconfettiShots; Cprojectiles].

(** The cells written in [settleWorld] after the power-up pool is set. *)
Definition lateCells : list Cell :=
  [Cobstacles; Cparticles; CrandomCalls; Cscore; Cboss; Cchallenges; CunlockedSkins;
   CconfettiShots; Cprojectiles].

(** The cells written in [settleWorld] after the score function. *)
Definition tailCells : list Cell :=
  [Cboss; Cobstacles; CrandomCalls; Cparticles; CconfettiShots; Cprojectiles].

Definition earlyCells : list Cell :=
  [CrandomCalls; CplayerVelocity; CbackgroundOffset; Cparticles].

(** The cells on which [Later] speaks. *)
Definition laterCells : list Cell :=
  [Cparticles; Ctimers; CgameState; CisPhoenixMode; CactivePowerUps].

(** The cells an update writes by other means than [handleDeath]. *)
Definition plainCells : list Cell :=
  [CplayerY; CplayerVelocity; CbackgroundOffset; ClastTimeRef; Cobstacles; CpowerUps;
   CactivePowerUps; Cparticles; CrandomCalls; Cscore; Cboss; Cchallenges; CunlockedSkins;
   CconfettiShots; Cprojectiles].

(** The cells an event other than an animation frame may write. *)
Definition inputCells : list Cell :=
  [Cscore; CplayerY; CplayerVelocity; Cobstacles; CpowerUps; Cparticles; Cprojectiles;
   CactivePowerUps; CisPhoenixMode; Cboss; CgameState; CcurrentSkin; Ctimers;
   Cdimensions; ClistenerDimensions].

Definition restartCells : list Cell :=
  [Cscore; CplayerY; CplayerVelocity; Cobstacles; CpowerUps; Cparticles; Cprojectiles;
   CactivePowerUps; CisPhoenixMode; Cboss; CgameState].

(** ** Vocabulary of the properties *)

(** The vertical interval the player may occupy under the rendered size. *)
Definition inBounds (r : World) (y : Q) : Prop :=
  0 <= y /\ y <= height (dimensions r) - PLAYER_SIZE.

(** A list that only received appends. *)
Definition grows {A : Type} (l l' : list A) : Prop := exists more, l' = l ++ more.

(** The state [handleDeath] enters when no shield absorbs the death. *)
Definition deathState (r : World) : GameState :=
  if truthy (activePowerUps r !! "PHOENIX") || negb (isPhoenixMode r)
  then PHOENIX_REVIVE else GAME_OVER.

(** How the modifier record may differ after writes made under the render
    [r]: an entry keeps its value, or is set to 10000, or is the shield
    entry removed while the rendered record had a shield. *)
Definition modifiersKept (r : World) (m m' : gmap string Q) : Prop :=
  forall k : string,
    m' !! k = m !! k \/ m' !! k = Some 10000
    \/ (k = "SHIELD"%string /\ truthy (activePowerUps r !! "SHIELD") = true
        /\ m' !! k = None).

(** [w'] comes after [w] in the course of one [update] under the render
    [r], the position and velocity cells being settled already. *)
Record Later (r w w' : World) : Prop :=
  { later_particles : grows (particles w) (particles w');
    later_timers : grows (timers w) (timers w');
    later_gameState :
      gameState w' = gameState w
      \/ (truthy (activePowerUps r !! "SHIELD") = false
          /\ gameState w' = deathState r);
    later_mode :
      isPhoenixMode w' = isPhoenixMode w
      \/ (truthy (activePowerUps r !! "SHIELD") = false
          /\ isPhoenixMode w' = true);
    later_modifiers : modifiersKept r (activePowerUps w) (activePowerUps w') }.

(** The three outcomes of a call [handleDeath] under the render [r], from
    the pending world [w] to [w']. They are told apart by what they emit:
    the shield outcome appends the blue explosion and arms no timer, the
    revival arms the timer, the game over does neither. *)
Definition shieldConsumed (random : nat -> Q) (r w w' : World) : Prop :=
  activePowerUps w' = delete "SHIELD" (activePowerUps w)
  /\ particles w'
     = particles w ++ explosionParticles random 15 (randomCalls w) 50 (playerY r) "#3b82f6"
  /\ timers w' = timers w
  /\ gameState w' = gameState w
  /\ isPhoenixMode w' = isPhoenixMode w
  /\ highScore w' = highScore w.

Definition phoenixReviveEntered (random : nat -> Q) (r w w' : World) : Prop :=
  gameState w' = PHOENIX_REVIVE
  /\ isPhoenixMode w' = true
  /\ timers w' = timers w ++ [{| delay := 1000; callback := RevivePlaying |}]
  /\ particles w'
     = particles w ++ explosionParticles random 15 (randomCalls w) 50 (playerY r) "#ef4444"
  /\ activePowerUps w' = activePowerUps w
  /\ highScore w' = highScore w.

Definition gameOverEntered (r w w' : World) : Prop :=
  gameState w' = GAME_OVER
  /\ highScore w' = (if (score r >? highScore r)%Z then score r else highScore w)
  /\ timers w' = timers w
  /\ particles w' = particles w
  /\ activePowerUps w' = activePowerUps w
  /\ isPhoenixMode w' = isPhoenixMode w.

(** What a call to [handleDeath] under the render [r] leaves visible in the
    world [w'] at the end of the same [update]. *)
Definition deathResolved (random : nat -> Q) (r w' : World) : Prop :=
  if truthy (activePowerUps r !! "SHIELD") then
    exists n, forall p,
      In p (explosionParticles random 15 n 50 (playerY r) "#3b82f6") -> In p (particles w')
  else
    gameState w' = deathState r
    /\ (deathState r = PHOENIX_REVIVE ->
        isPhoenixMode w' = true
        /\ In {| delay := 1000; callback := RevivePlaying |} (timers w')).

(** Two bosses that are one boss at different times: everything but the
    position and the health agrees. *)
Definition sameBoss (b b' : Boss.t) : Prop :=
  Boss.id b' = Boss.id b /\ Boss.width b' = Boss.width b
  /\ Boss.height b' = Boss.height b /\ Boss.maxHealth b' = Boss.maxHealth b
  /\ Boss.active b' = Boss.active b /\ Boss.phase b' = Boss.phase b.

(** The boss cell holds nothing, or the boss [b] moved and damaged. *)
Definition bossIs (b : Boss.t) (w : World) : Prop :=
  boss w = None \/ exists b', boss w = Some b' /\ sameBoss b b'.

(** The unlocked skins of [w] are kept in [w'], and stay free of
    duplicates. *)
Definition skinsGrow (w w' : World) : Prop :=
  (forall s : string, s ∈ unlockedSkins w -> s ∈ unlockedSkins w')
  /\ (NoDup (unlockedSkins w) -> NoDup (unlockedSkins w')).

(** Does the event call [startGame] in this world? *)
Definition restarts (e : Event) (w : World) : bool :=
  match e, gameState w with
  | StartClick, (START | GAME_OVER | PAUSED) => true
  | JumpInput, START => true
  | KeyJump, START => true
  | _, _ => false
  end.

(** The moves of the game state: from [g] the event [e] may lead to [g'].
    A timer callback returns to PLAYING from wherever the game is. *)
Definition lifeTransition (g : GameState) (e : Event) (g' : GameState) : Prop :=
  match e with
  | Frame _ => g = PLAYING /\ (g' = PHOENIX_REVIVE \/ g' = GAME_OVER)
  | JumpInput | KeyJump => g = START /\ g' = PLAYING
  | PauseInput => g = PLAYING /\ g' = PAUSED
  | ResumeClick => g = PAUSED /\ g' = PLAYING
  | StartClick => (g = START \/ g = GAME_OVER \/ g = PAUSED) /\ g' = PLAYING
  | MenuClick => (g = GAME_OVER \/ g = PAUSED) /\ g' = START
  | TimerFires _ => g' = PLAYING
  | SkinClick _ | WindowResize _ _ => False
  end.

(** What one update may do to the game state and the best score, seen
    from the rendered world [r]. *)
Definition lifeOutcome (r w : World) : Prop :=
  (gameState w = gameState r /\ highScore w = highScore r)
  \/ (truthy (activePowerUps r !! "SHIELD") = false
      /\ gameState w = deathState r
      /\ highScore w
         = match deathState r with
           | GAME_OVER => Z.max (score r) (highScore r)
           | _ => highScore r
           end).

(** The write [b => b ? { ...b, health: Math.max(0, b.health - 5) } : null]
    of a projectile hit (line 243), on the boss cell and on the health. *)
Definition hurt (o : option Boss.t) : option Boss.t :=
  match o with
  | Some b => Some (Boss.withHealth (Qmax 0 (Boss.health b - 5)) b)
  | None => None
  end.


(** The projectiles of the rendered pool after their move, as far as they
    are within 100 of the right edge (lines 231-232). *)
Definition movedProjectiles (r : World) : list Projectile.t :=
  List.filter (fun p => Qltb (Projectile.x p) (width (dimensions r) + 100))
    (map (fun p => Projectile.withX (Projectile.x p + Projectile.vx p) p) (projectiles r)).

(** Does the projectile overlap the rendered boss, if one is active? *)
Definition strikes (r : World) (p : Projectile.t) : bool :=
  match boss r with
  | Some b => Boss.active b && hitsBoss b p
  | None => false
  end.

(** A modifier record all of whose entries hold the value of a pickup. *)
Definition installedOnly (m : gmap string Q) : Prop :=
  forall (k : string) (v : Q), m !! k = Some v -> v = 10000.

(** Do the events leave the window size alone? *)
Definition keepsSize (es : list Event) : bool :=
  forallb (fun e => match e with WindowResize _ _ => false | _ => true end) es.

(** Is [startGame] never called along the events? *)
Fixpoint calm (random : nat -> Q) (sin : Q -> Q) (es : list Event) (w : World) : bool :=
  match es with
  | [] => true
  | e :: es' => negb (restarts e w) && calm random sin es' (step random sin e w)
  end.

(** ** Sample worlds *)

(** An oracle that never triggers a spawn, and a flat sine. *)
Definition halfDraws : nat -> Q := fun _ => 1 # 2.
Definition flatSin : Q -> Q := fun _ => 0.

(** A run just started in a window 1280 x 800 whose clock was seeded at
    time 0: score 0, player at y = 400 with velocity 0. *)
Definition exampleWorld : World :=
  setLastTimeRef (Some 0) (startGame (initialWorld 1280 800) (initialWorld 1280 800)).

(** The player near the lower bound (760), falling by 10 per unit of time. *)
Definition fallWorld : World := setPlayerVelocity 10 (setPlayerY 755 exampleWorld).

(** A shield power-up that the next update moves onto the player. *)
Definition shieldPickup : PowerUp.t :=
  {| PowerUp.id := NamedId "P1"; PowerUp.x := 60; PowerUp.y := 400;
     PowerUp.width := POWERUP_SIZE; PowerUp.height := POWERUP_SIZE;
     PowerUp.type := SHIELD |}.

Definition pickupWorld : World := setPowerUps [shieldPickup] exampleWorld.

(** A drone that the next update moves onto the player. *)
Definition drone : Obstacle.t :=
  {| Obstacle.id := NamedId "O1"; Obstacle.x := 60; Obstacle.y := 400;
     Obstacle.width := OBSTACLE_WIDTH; Obstacle.height := 60;
     Obstacle.type := DRONE; Obstacle.speed := 5 |}.

Definition fireWorld : World :=
  setObstacles [drone]
    (setActivePowerUps (<["FIRE_WINGS"%string := 10000]> ∅) exampleWorld).

(** One point below the first boss threshold, a drone far ahead. *)
Definition thresholdWorld : World :=
  setObstacles [Obstacle.withX 2000 drone] (setScore 999 exampleWorld).

(** A run that is paused at time 16 and resumed 16 seconds later, and the
    same run restarted instead of resumed. *)
Definition freshRun : World :=
  startGame (initialWorld 1280 800) (initialWorld 1280 800).

Definition pausedRun : list Event :=
  [Frame 0; Frame 16; PauseInput; ResumeClick; Frame 16016].

Definition restartedRun : list Event :=
  [Frame 0; Frame 16; PauseInput; StartClick; Frame 16016].

(** The falling player of [fallWorld] with a shield, and a drone on the
    player: the next update resolves two deaths. *)
Definition shieldedWorld : World :=
  setObstacles
    [{| Obstacle.id := NamedId "O2"; Obstacle.x := 60; Obstacle.y := 740;
        Obstacle.width := OBSTACLE_WIDTH; Obstacle.height := 60;
        Obstacle.type := DRONE; Obstacle.speed := 5 |}]
    (setActivePowerUps (<["SHIELD"%string := 10000]> ∅) fallWorld).

(** A finished run with the timer of an earlier revival still pending. *)
Definition staleTimerWorld : World :=
  setGameState GAME_OVER
    (setTimers [{| delay := 5000; callback := ClearPhoenix |}] exampleWorld).

(** A boss at full health in place on the right, and two projectiles of
    which the first is about to reach it. *)
Definition bossWorld : World :=
  setProjectiles
    [{| Projectile.id := NamedId "S1"; Projectile.x := 1020; Projectile.y := 400;
        Projectile.width := 20; Projectile.height := 10;
        Projectile.vx := 15; Projectile.vy := 0 |};
     {| Projectile.id := NamedId "S2"; Projectile.x := 90; Projectile.y := 400;
        Projectile.width := 20; Projectile.height := 10;
        Projectile.vx := 15; Projectile.vy := 0 |}]
    (setBoss (Some (Boss.withXY 1030 300 (newBoss exampleWorld))) exampleWorld).


(** Two particles, of which the first has almost faded. *)
Definition dyingWorld : World :=
  setParticles
    [{| Particle.id := NamedId "F1"; Particle.x := 50; Particle.y := 400;
        Particle.vx := 1; Particle.vy := 1; Particle.life := 1 # 100;
        Particle.color := "#ef4444"; Particle.size := 3 |};
     {| Particle.id := NamedId "F2"; Particle.x := 50; Particle.y := 400;
        Particle.vx := 1; Particle.vy := 1; Particle.life := 1;
        Particle.color := "#ef4444"; Particle.size := 3 |}]
    exampleWorld.

(** A run that holds a shield, with a drone and a shield pickup both on the
    player. *)
Definition regrantWorld : World :=
  setPowerUps [shieldPickup]
    (setObstacles [drone]
       (setActivePowerUps (<["SHIELD"%string := 10000]> ∅) exampleWorld)).

(** The start screen of a window that was 1280 x 800 when the keydown
    listener was bound and is 1280 x 600 now, and a run started from it
    by key. *)
Definition resizedStart : World :=
  setDimensions {| width := 1280; height := 600 |} (initialWorld 1280 800).

Definition keyRun : list Event := [KeyJump; Frame 0; Frame 16].

(** Draws that fire a shot and spawn nothing, and the boss fight of
    [bossWorld] with FIRE_WINGS held. *)
Definition lowDraws : nat -> Q := fun _ => 1 # 20.

Definition armedBossWorld : World :=
  setActivePowerUps (<["FIRE_WINGS"%string := 10000]> ∅) bossWorld.

(** ** Frame lemmas *)

Lemma unchanged_refl (cs : list Cell) (w : World) : unchanged cs w w.
Proof. intros c _. reflexivity. Qed.

Lemma unchanged_trans (cs : list Cell) (w1 w2 w3 : World) :
  unchanged cs w1 w2 -> unchanged cs w2 w3 -> unchanged cs w1 w3.
Proof. intros H12 H23 c Hc. rewrite (H23 c Hc). apply (H12 c Hc). Qed.

Lemma cellIndex_inj (c c' : Cell) : cellIndex c = cellIndex c' -> c = c'.
Proof. destruct c, c'; cbn; intros H; first [reflexivity | discriminate H]. Qed.

Lemma inCells_true (c : Cell) (cs : list Cell) : inCells c cs = true <-> In c cs.
Proof.
  unfold inCells. rewrite existsb_exists. split.
  - intros (c' & Hin & Heq). apply Nat.eqb_eq, cellIndex_inj in Heq. now subst.
  - intros Hin. exists c. split; [exact Hin | apply Nat.eqb_refl].
Qed.

Lemma unchanged_weaken (cs cs' : list Cell) (w w' : World) :
  forallb (fun c => inCells c cs') cs = true ->
  unchanged cs w w' -> unchanged cs' w w'.
Proof.
  intros Hsub H c Hc. apply H.
  destruct (inCells c cs) eqn:E; [| reflexivity].
  apply inCells_true in E. rewrite forallb_forall in Hsub.
  rewrite (Hsub c E) in Hc. discriminate Hc.
Qed.

Lemma modifies_weaken (cs cs' : list Cell) (f : World -> World) :
  forallb (fun c => inCells c cs') cs = true -> modifies cs f -> modifies cs' f.
Proof. intros Hsub H w. eapply unchanged_weaken; [exact Hsub | apply H]. Qed.

Lemma modifies_compose (cs : list Cell) (f g : World -> World) :
  modifies cs f -> modifies cs g -> modifies cs (fun w => g (f w)).
Proof. intros Hf Hg w. eapply unchanged_trans; [apply Hf | apply Hg]. Qed.

Lemma modifies_forEach {A : Type} (cs : list Cell) (f : A -> World -> World)
  (l : list A) :
  (forall a, modifies cs (f a)) -> modifies cs (forEach f l).
Proof.
  intros Hf. unfold forEach. induction l as [| a l IH]; intros w; cbn.
  - apply unchanged_refl.
  - eapply unchanged_trans; [apply (Hf a) | apply IH].
Qed.

Lemma modifies_mapWrites {A B : Type} (cs : list Cell)
  (f : A -> World -> B * World) (l : list A) :
  (forall a, modifies cs (fun w => snd (f a w))) ->
  modifies cs (fun w => snd (mapWrites f l w)).
Proof.
  intros Hf. induction l as [| a l IH]; intros w; cbn.
  - apply unchanged_refl.
  - pose proof (Hf a w) as Ha. cbn beta in Ha.
    destruct (f a w) as [b w1]. cbn [snd] in Ha.
    pose proof (IH w1) as Hl. cbn beta in Hl.
    destruct (mapWrites f l w1) as [bs w2]. cbn [snd] in *.
    eapply unchanged_trans; eassumption.
Qed.

(** A cell-by-cell check, for functions that are plain record updates once
    their tests are decided. *)
Ltac cells :=
  let c := fresh "c" in
  let Hc := fresh "Hc" in
  intros c Hc; destruct c;
  first [reflexivity | discriminate Hc].

Ltac decide_tests :=
  repeat match goal with
    | |- context [if ?b then _ else _] => destruct b
    | |- context [match ?o with Some _ => _ | None => _ end] => destruct o
    end.

Lemma modifies_createExplosion (random : nat -> Q) (x y : Q) (color : string) :
  modifies [Cparticles; CrandomCalls] (createExplosion random x y color).
Proof. intros w. unfold createExplosion. cells. Qed.

Lemma modifies_handleDeath (random : nat -> Q) (r : World) :
  modifies deathCells (handleDeath random r).
Proof. intros w. unfold handleDeath, createExplosion, setTimeout. decide_tests; cells. Qed.

Lemma modifies_stepPlayerY (random : nat -> Q) (r : World) (deltaTime : Q) :
  modifies (CplayerY :: deathCells) (stepPlayerY random r deltaTime).
Proof.
  intros w. unfold stepPlayerY. destruct (outOfBounds _ _).
  - eapply unchanged_weaken; [| apply modifies_handleDeath]. reflexivity.
  - cells.
Qed.

Lemma modifies_obstacleHit (random : nat -> Q) (r : World) (o : Obstacle.t) :
  modifies deathCells (obstacleHit random r o).
Proof.
  intros w. unfold obstacleHit. decide_tests; cbn [negb];
    try apply unchanged_refl.
  - eapply unchanged_weaken; [| apply modifies_createExplosion]. reflexivity.
  - apply modifies_handleDeath.
Qed.

Lemma modifies_stepObstacles (random : nat -> Q) (r : World) (currentSpeed deltaTime : Q) :
  modifies (Cobstacles :: deathCells) (stepObstacles random r currentSpeed deltaTime).
Proof.
  intros w. unfold stepObstacles.
  set (next := advanceObstacles _ _ _).
  apply unchanged_trans with (w2 := forEach (obstacleHit random r) next w); [| cells].
  apply unchanged_weaken with (cs := deathCells); [reflexivity |].
  apply modifies_forEach, modifies_obstacleHit.
Qed.

Lemma modifies_powerUpHit (random : nat -> Q) (r : World) (p : PowerUp.t) :
  modifies pickupCells (powerUpHit random r p).
Proof. intros w. unfold powerUpHit, createExplosion. decide_tests; cells. Qed.

Lemma modifies_stepPowerUps (random : nat -> Q) (r : World) (currentSpeed deltaTime : Q) :
  modifies (CpowerUps :: pickupCells) (stepPowerUps random r currentSpeed deltaTime).
Proof.
  intros w. unfold stepPowerUps.
  set (next := advancePowerUps _ _ _).
  apply unchanged_trans with (w2 := forEach (powerUpHit random r) next w); [| cells].
  apply unchanged_weaken with (cs := pickupCells); [reflexivity |].
  apply modifies_forEach, modifies_powerUpHit.
Qed.

Lemma modifies_updateChallenge (r : World) (nextScore : Z) (c : Challenge.t) :
  modifies [CunlockedSkins] (fun w => snd (updateChallenge r nextScore c w)).
Proof. intros w. unfold updateChallenge. decide_tests; cbn [snd]; cells. Qed.

Lemma modifies_stepChallenges (r : World) (nextScore : Z) :
  modifies [Cchallenges; CunlockedSkins] (stepChallenges r nextScore).
Proof.
  intros w. unfold stepChallenges.
  pose proof (modifies_mapWrites [CunlockedSkins] (updateChallenge r nextScore)
                (challenges w) (modifies_updateChallenge r nextScore) w) as H.
  cbn beta in H. destruct (mapWrites _ _ w) as [next w1]. cbn [snd] in H.
  eapply unchanged_trans.
  - eapply unchanged_weaken; [| exact H]. reflexivity.
  - cells.
Qed.

Lemma modifies_stepScore (r : World) : modifies scoreCells (stepScore r).
Proof.
  intros w. unfold stepScore. cbv zeta.
  set (nextScore := (score w + 1)%Z).
  set (w1 := if (_ && _)%bool then spawnBoss r w else w).
  apply unchanged_trans with (w2 := stepChallenges r nextScore w1); [| cells].
  apply unchanged_trans with (w2 := w1).
  - subst w1. unfold spawnBoss. decide_tests; cells.
  - apply unchanged_weaken with (cs := [Cchallenges; CunlockedSkins]);
      [reflexivity | apply modifies_stepChallenges].
Qed.

Lemma modifies_stepBoss (random : nat -> Q) (sin : Q -> Q) (r : World) (time : Q) :
  modifies bossCells (stepBoss random sin r time).
Proof.
  intros w. unfold stepBoss, createExplosion.
  destruct (boss w) as [prev |]; [| apply unchanged_refl].
  cbv zeta. decide_tests; cells.
Qed.

Lemma modifies_projectileHit (random : nat -> Q) (b : Boss.t) (p : Projectile.t) :
  modifies projectileCells (fun w => snd (projectileHit random b p w)).
Proof.
  intros w. unfold projectileHit, createExplosion, damageBoss.
  decide_tests; cbn [snd]; cells.
Qed.

Lemma modifies_stepProjectiles (random : nat -> Q) (r : World) :
  modifies projectileCells (stepProjectiles random r).
Proof.
  intros w. unfold stepProjectiles.
  set (next := List.filter _ _).
  assert (H : unchanged projectileCells w
                (snd match boss r with
                     | Some b =>
                         if Boss.active b
                         then mapWrites (projectileHit random b) next w
                         else (next, w)
                     | None => (next, w)
                     end)).
  { destruct (boss r) as [b |]; [destruct (Boss.active b) |]; cbn [snd];
      try apply unchanged_refl.
    apply (modifies_mapWrites projectileCells (projectileHit random b) next
             (modifies_projectileHit random b)). }
  destruct (match boss r with Some _ => _ | None => _ end) as [next' w1].
  cbn [snd] in H. apply unchanged_trans with (w2 := w1); [exact H | cells].
Qed.

(** ** What only accumulates during an update *)

Lemma grows_refl {A : Type} (l : list A) : grows l l.
Proof. exists []. symmetry. apply app_nil_r. Qed.

Lemma grows_trans {A : Type} (l1 l2 l3 : list A) :
  grows l1 l2 -> grows l2 l3 -> grows l1 l3.
Proof.
  intros [m1 H1] [m2 H2]. exists (m1 ++ m2). rewrite H2, H1. symmetry. apply app_assoc.
Qed.

Lemma grows_app {A : Type} (l more : list A) : grows l (l ++ more).
Proof. exists more. reflexivity. Qed.

Lemma grows_In {A : Type} (l l' : list A) (a : A) : grows l l' -> In a l -> In a l'.
Proof. intros [more ->] Ha. apply in_or_app. left. exact Ha. Qed.

Lemma modifiersKept_refl (r : World) (m : gmap string Q) : modifiersKept r m m.
Proof. intros k. left. reflexivity. Qed.

Lemma modifiersKept_trans (r : World) (m1 m2 m3 : gmap string Q) :
  modifiersKept r m1 m2 -> modifiersKept r m2 m3 -> modifiersKept r m1 m3.
Proof.
  intros H12 H23 k.
  destruct (H23 k) as [E | [E | E]]; [| right; left; exact E | right; right; exact E].
  rewrite E. apply H12.
Qed.

Lemma Later_refl (r w : World) : Later r w w.
Proof.
  split; [apply grows_refl | apply grows_refl | left; reflexivity | left; reflexivity
         | apply modifiersKept_refl].
Qed.

Lemma Later_trans (r w1 w2 w3 : World) : Later r w1 w2 -> Later r w2 w3 -> Later r w1 w3.
Proof.
  intros [P1 T1 G1 M1 A1] [P2 T2 G2 M2 A2]. split.
  - eapply grows_trans; eassumption.
  - eapply grows_trans; eassumption.
  - destruct G2 as [E | E]; [rewrite E; exact G1 | right; exact E].
  - destruct M2 as [E | E]; [rewrite E; exact M1 | right; exact E].
  - eapply modifiersKept_trans; eassumption.
Qed.

Lemma Later_of_unchanged (cs : list Cell) (r w w' : World) :
  forallb (fun c => negb (inCells c cs)) laterCells = true ->
  unchanged cs w w' -> Later r w w'.
Proof.
  intros Hcs H. cbn in Hcs.
  repeat (apply andb_prop in Hcs; destruct Hcs as [?%negb_true_iff Hcs]).
  pose proof (H Cparticles ltac:(assumption)) as Ep.
  pose proof (H Ctimers ltac:(assumption)) as Et.
  pose proof (H CgameState ltac:(assumption)) as Eg.
  pose proof (H CisPhoenixMode ltac:(assumption)) as Em.
  pose proof (H CactivePowerUps ltac:(assumption)) as Ea.
  cbn [get] in *. split.
  - rewrite Ep. apply grows_refl.
  - rewrite Et. apply grows_refl.
  - left. exact Eg.
  - left. exact Em.
  - rewrite Ea. apply modifiersKept_refl.
Qed.

Lemma Later_forEach {A : Type} (r : World) (f : A -> World -> World) (l : list A) :
  (forall a w, Later r w (f a w)) -> forall w, Later r w (forEach f l w).
Proof.
  intros Hf. unfold forEach. induction l as [| a l IH]; intros w; cbn.
  - apply Later_refl.
  - eapply Later_trans; [apply Hf | apply IH].
Qed.

Lemma Later_mapWrites {A B : Type} (r : World) (f : A -> World -> B * World)
  (l : list A) :
  (forall a w, Later r w (snd (f a w))) -> forall w, Later r w (snd (mapWrites f l w)).
Proof.
  intros Hf. induction l as [| a l IH]; intros w; cbn.
  - apply Later_refl.
  - pose proof (Hf a w) as Ha. destruct (f a w) as [b w1]. cbn [snd] in Ha.
    pose proof (IH w1) as Hl. destruct (mapWrites f l w1) as [bs w2]. cbn [snd] in *.
    eapply Later_trans; eassumption.
Qed.

Lemma Later_createExplosion (random : nat -> Q) (r : World) (x y : Q) (color : string)
  (w : World) :
  Later r w (createExplosion random x y color w).
Proof.
  split; cbn.
  - apply grows_app.
  - apply grows_refl.
  - left. reflexivity.
  - left. reflexivity.
  - apply modifiersKept_refl.
Qed.

Lemma Later_handleDeath (random : nat -> Q) (r w : World) :
  Later r w (handleDeath random r w).
Proof.
  unfold handleDeath, deathState.
  destruct (truthy (activePowerUps r !! "SHIELD")) eqn:Hs.
  - split; cbn.
    + apply grows_app.
    + apply grows_refl.
    + left. reflexivity.
    + left. reflexivity.
    + intros k. destruct (decide (k = "SHIELD"%string)) as [-> | Hk].
      * right. right. rewrite lookup_delete_eq. split; [reflexivity |]. split; [exact Hs | reflexivity].
      * left. apply lookup_delete_ne. congruence.
  - destruct (truthy (activePowerUps r !! "PHOENIX") || negb (isPhoenixMode r)) eqn:Hp.
    + split; cbn.
      * apply grows_app.
      * apply grows_app.
      * right. split; [exact Hs | unfold deathState; rewrite ?Hp; reflexivity].
      * right. split; [exact Hs | reflexivity].
      * apply modifiersKept_refl.
    + split.
      * destruct (score r >? highScore r)%Z; cbn; apply grows_refl.
      * destruct (score r >? highScore r)%Z; cbn; apply grows_refl.
      * right. split; [exact Hs |]. unfold deathState. rewrite ?Hp.
        destruct (score r >? highScore r)%Z; reflexivity.
      * left. destruct (score r >? highScore r)%Z; reflexivity.
      * destruct (score r >? highScore r)%Z; cbn; apply modifiersKept_refl.
Qed.

Lemma Later_stepPlayerY_death (random : nat -> Q) (r : World) (deltaTime : Q) (w : World) :
  outOfBounds r (playerY w + playerVelocity r * deltaTime) = true ->
  Later r w (stepPlayerY random r deltaTime w).
Proof. intros H. unfold stepPlayerY. rewrite H. apply Later_handleDeath. Qed.

Lemma Later_stepPlayerY (random : nat -> Q) (r : World) (deltaTime : Q) (w : World) :
  Later r w (stepPlayerY random r deltaTime w).
Proof.
  unfold stepPlayerY. destruct (outOfBounds _ _).
  - apply Later_handleDeath.
  - apply (Later_of_unchanged [CplayerY]); [reflexivity | cells].
Qed.

Lemma Later_obstacleHit (random : nat -> Q) (r : World) (o : Obstacle.t) (w : World) :
  Later r w (obstacleHit random r o w).
Proof.
  unfold obstacleHit. decide_tests; cbn [negb]; try apply Later_refl.
  - apply Later_createExplosion.
  - apply Later_handleDeath.
Qed.

Lemma Later_stepObstacles (random : nat -> Q) (r : World) (currentSpeed deltaTime : Q)
  (w : World) :
  Later r w (stepObstacles random r currentSpeed deltaTime w).
Proof.
  unfold stepObstacles. set (next := advanceObstacles _ _ _).
  apply Later_trans with (w2 := forEach (obstacleHit random r) next w).
  - apply Later_forEach. apply Later_obstacleHit.
  - apply (Later_of_unchanged [Cobstacles]); [reflexivity | cells].
Qed.

Lemma Later_powerUpHit (random : nat -> Q) (r : World) (p : PowerUp.t) (w : World) :
  Later r w (powerUpHit random r p w).
Proof.
  unfold powerUpHit. destruct (hitsPlayer _ _ _ _ _); [| apply Later_refl].
  split; cbn.
  - apply grows_app.
  - apply grows_refl.
  - left. reflexivity.
  - left. reflexivity.
  - intros k. destruct (decide (k = keyOf (PowerUp.type p))) as [-> | Hk].
    + right. left. apply lookup_insert_eq.
    + left. apply lookup_insert_ne. congruence.
Qed.

Lemma Later_stepPowerUps (random : nat -> Q) (r : World) (currentSpeed deltaTime : Q)
  (w : World) :
  Later r w (stepPowerUps random r currentSpeed deltaTime w).
Proof.
  unfold stepPowerUps. set (next := advancePowerUps _ _ _).
  apply Later_trans with (w2 := forEach (powerUpHit random r) next w).
  - apply Later_forEach. apply Later_powerUpHit.
  - apply (Later_of_unchanged [CpowerUps]); [reflexivity | cells].
Qed.

Lemma Later_stepScore (r w : World) : Later r w (stepScore r w).
Proof. apply (Later_of_unchanged scoreCells); [reflexivity | apply modifies_stepScore]. Qed.

Lemma Later_stepBoss (random : nat -> Q) (sin : Q -> Q) (r : World) (time : Q) (w : World) :
  Later r w (stepBoss random sin r time w).
Proof.
  unfold stepBoss. destruct (boss w) as [prev |]; [| apply Later_refl].
  cbv zeta.
  set (w1 := if Qltb _ _ then _ else _).
  assert (H1 : Later r w w1).
  { subst w1. destruct (Qltb _ _).
    - apply (Later_of_unchanged [Cobstacles; CrandomCalls]); [reflexivity | cells].
    - apply (Later_of_unchanged [CrandomCalls]); [reflexivity | cells]. }
  destruct (Qle_bool _ _).
  - eapply Later_trans; [exact H1 |].
    eapply Later_trans; [apply Later_createExplosion |].
    eapply Later_trans;
      apply (Later_of_unchanged [Cboss; CconfettiShots]); try reflexivity; cells.
  - eapply Later_trans; [exact H1 |].
    apply (Later_of_unchanged [Cboss]); [reflexivity | cells].
Qed.

Lemma Later_projectileHit (random : nat -> Q) (r : World) (b : Boss.t) (p : Projectile.t)
  (w : World) :
  Later r w (snd (projectileHit random b p w)).
Proof.
  unfold projectileHit. destruct (hitsBoss b p); cbn [snd]; [| apply Later_refl].
  eapply Later_trans; [| apply Later_createExplosion].
  apply (Later_of_unchanged [Cboss]); [reflexivity |].
  unfold damageBoss. cells.
Qed.

Lemma Later_stepProjectiles (random : nat -> Q) (r w : World) :
  Later r w (stepProjectiles random r w).
Proof.
  unfold stepProjectiles.
  set (next := List.filter _ _).
  assert (H : Later r w
                (snd match boss r with
                     | Some b =>
                         if Boss.active b
                         then mapWrites (projectileHit random b) next w
                         else (next, w)
                     | None => (next, w)
                     end)).
  { destruct (boss r) as [b |]; [destruct (Boss.active b) |]; cbn [snd];
      try apply Later_refl.
    apply Later_mapWrites. intros p w0. apply Later_projectileHit. }
  destruct (match boss r with Some _ => _ | None => _ end) as [next' w1].
  cbn [snd] in H. eapply Later_trans; [exact H |].
  apply (Later_of_unchanged [Cprojectiles]); [reflexivity | cells].
Qed.

(** ** The update as a whole *)

Lemma modifies_settleWorld (random : nat -> Q) (sin : Q -> Q) (r : World)
  (time deltaTime currentSpeed : Q) (newProjectile : option Projectile.t)
  (spawnedObstacle : option Obstacle.t) (spawnedPowerUp : option PowerUp.t) :
  modifies worldCells
    (settleWorld random sin r time deltaTime currentSpeed newProjectile spawnedObstacle
       spawnedPowerUp).
Proof.
  intros w. unfold settleWorld. cbv zeta.
  set (w1 := stepObstacles random r currentSpeed deltaTime w).
  set (w2 := setObstacles _ w1).
  set (w3 := stepPowerUps random r currentSpeed deltaTime w2).
  set (w4 := setPowerUps _ w3).
  set (w5 := stepScore r w4).
  set (w6 := match boss r with Some _ => _ | None => _ end).
  set (w7 := stepProjectiles random r w6).
  apply unchanged_trans with (w2 := w7); [| cells].
  apply unchanged_trans with (w2 := w6).
  2: { apply unchanged_weaken with (cs := projectileCells);
         [reflexivity | apply modifies_stepProjectiles]. }
  apply unchanged_trans with (w2 := w5).
  2: { subst w6. destruct (boss r) as [b |]; [destruct (Boss.active b) |];
         try apply unchanged_refl.
       apply unchanged_weaken with (cs := bossCells);
         [reflexivity | apply modifies_stepBoss]. }
  apply unchanged_trans with (w2 := w4).
  2: { apply unchanged_weaken with (cs := scoreCells);
         [reflexivity | apply modifies_stepScore]. }
  apply unchanged_trans with (w2 := w3); [| cells].
  apply unchanged_trans with (w2 := w2).
  2: { apply unchanged_weaken with (cs := CpowerUps :: pickupCells);
         [reflexivity | apply modifies_stepPowerUps]. }
  apply unchanged_trans with (w2 := w1); [| cells].
  apply unchanged_weaken with (cs := Cobstacles :: deathCells);
    [reflexivity | apply modifies_stepObstacles].
Qed.

Lemma Later_settleWorld (random : nat -> Q) (sin : Q -> Q) (r : World)
  (time deltaTime currentSpeed : Q) (newProjectile : option Projectile.t)
  (spawnedObstacle : option Obstacle.t) (spawnedPowerUp : option PowerUp.t) (w : World) :
  Later r w
    (settleWorld random sin r time deltaTime currentSpeed newProjectile spawnedObstacle
       spawnedPowerUp w).
Proof.
  unfold settleWorld. cbv zeta.
  set (w1 := stepObstacles random r currentSpeed deltaTime w).
  set (w2 := setObstacles _ w1).
  set (w3 := stepPowerUps random r currentSpeed deltaTime w2).
  set (w4 := setPowerUps _ w3).
  set (w5 := stepScore r w4).
  set (w6 := match boss r with Some _ => _ | None => _ end).
  set (w7 := stepProjectiles random r w6).
  apply Later_trans with (w2 := w7);
    [| apply (Later_of_unchanged [Cprojectiles]); [reflexivity | cells]].
  apply Later_trans with (w2 := w6); [| apply Later_stepProjectiles].
  apply Later_trans with (w2 := w5).
  2: { subst w6. destruct (boss r) as [b |]; [destruct (Boss.active b) |];
         try apply Later_refl. apply Later_stepBoss. }
  apply Later_trans with (w2 := w4); [| apply Later_stepScore].
  apply Later_trans with (w2 := w3);
    [| apply (Later_of_unchanged [CpowerUps]); [reflexivity | cells]].
  apply Later_trans with (w2 := w2); [| apply Later_stepPowerUps].
  apply Later_trans with (w2 := w1);
    [| apply (Later_of_unchanged [Cobstacles]); [reflexivity | cells]].
  apply Later_stepObstacles.
Qed.

Lemma unchanged_rollProjectile (random : nat -> Q) (r w : World) :
  unchanged [CrandomCalls] w (snd (rollProjectile random r w)).
Proof. unfold rollProjectile. decide_tests; cbn [snd]; cells. Qed.

Lemma unchanged_rollObstacle (random : nat -> Q) (r w : World) :
  unchanged [CrandomCalls] w (snd (rollObstacle random r w)).
Proof. unfold rollObstacle. cbv zeta. decide_tests; cbn [snd]; cells. Qed.

Lemma unchanged_rollPowerUp (random : nat -> Q) (r w : World) :
  unchanged [CrandomCalls] w (snd (rollPowerUp random r w)).
Proof. unfold rollPowerUp. cbv zeta. decide_tests; cbn [snd]; cells. Qed.

(** [advance] is [settleWorld] after the player's step, run on a world
    that differs from the rendered one on the early cells only. *)
Lemma advance_stages (random : nat -> Q) (sin : Q -> Q) (r : World) (time last : Q) :
  exists (w : World) (newProjectile : option Projectile.t)
         (spawnedObstacle : option Obstacle.t) (spawnedPowerUp : option PowerUp.t),
    advance random sin r time last
    = settleWorld random sin r time ((time - last) / 16) (currentSpeedOf r)
        newProjectile spawnedObstacle spawnedPowerUp
        (stepPlayerY random r ((time - last) / 16) w)
    /\ unchanged earlyCells r w
    /\ playerVelocity w = playerVelocity r + GRAVITY * ((time - last) / 16)
    /\ spawnedObstacle
       = fst (rollObstacle random r (snd (rollProjectile random r r)))
    /\ newProjectile = fst (rollProjectile random r r).
Proof.
  unfold advance. cbv zeta.
  pose proof (unchanged_rollProjectile random r r) as H1.
  destruct (rollProjectile random r r) as [shot w1]. cbn [snd] in *.
  pose proof (unchanged_rollObstacle random r w1) as H2.
  destruct (rollObstacle random r w1) as [obst w2]. cbn [snd fst] in *.
  pose proof (unchanged_rollPowerUp random r w2) as H3.
  destruct (rollPowerUp random r w2) as [pwr w3]. cbn [snd] in *.
  eexists _, shot, obst, pwr. split; [reflexivity |].
  assert (H : unchanged [CrandomCalls] r w3).
  { eapply unchanged_trans; [| exact H3]. eapply unchanged_trans; eassumption. }
  split; [| split; [| split; reflexivity]].
  - intros c Hc. pose proof (H c) as Hr. unfold stepParticles.
    destruct c; try discriminate Hc; cbn in *; apply Hr; reflexivity.
  - cbn. f_equal. apply (H CplayerVelocity eq_refl).
Qed.

Lemma advance_playerVelocity (random : nat -> Q) (sin : Q -> Q) (r : World)
  (time last : Q) :
  playerVelocity (advance random sin r time last)
  = playerVelocity r + GRAVITY * ((time - last) / 16).
Proof.
  destruct (advance_stages random sin r time last) as (w & a & b & c & -> & Hw & Hv & _).
  rewrite <- Hv.
  etransitivity; [apply (modifies_settleWorld _ _ _ _ _ _ _ _ _ _ CplayerVelocity eq_refl) |].
  apply (modifies_stepPlayerY _ _ _ _ CplayerVelocity eq_refl).
Qed.

Lemma advance_playerY (random : nat -> Q) (sin : Q -> Q) (r : World) (time last : Q) :
  playerY (advance random sin r time last)
  = let nextY := playerY r + playerVelocity r * ((time - last) / 16) in
    if outOfBounds r nextY then playerY r else nextY.
Proof.
  destruct (advance_stages random sin r time last) as (w & a & b & c & -> & Hw & _ & _).
  etransitivity; [apply (modifies_settleWorld _ _ _ _ _ _ _ _ _ _ CplayerY eq_refl) |].
  cbn [get]. pose proof (Hw CplayerY eq_refl) as Ey. cbn [get] in Ey.
  unfold stepPlayerY. cbv zeta. rewrite Ey.
  destruct (outOfBounds _ _); [| reflexivity].
  rewrite <- Ey. apply (modifies_handleDeath _ _ _ CplayerY eq_refl).
Qed.

Lemma handleDeath_resolved (random : nat -> Q) (r w w' : World) :
  Later r (handleDeath random r w) w' -> deathResolved random r w'.
Proof.
  intros [P T G M _]. unfold deathResolved. unfold handleDeath in *.
  destruct (truthy (activePowerUps r !! "SHIELD")) eqn:Hs.
  - exists (randomCalls w). intros p Hp. eapply grows_In; [exact P |].
    cbn. apply in_or_app. right. exact Hp.
  - assert (Hg : gameState w' = deathState r).
    { destruct G as [E | [_ E]]; [| exact E]. rewrite E. unfold deathState.
      destruct (truthy (activePowerUps r !! "PHOENIX") || negb (isPhoenixMode r));
        [reflexivity |]. destruct (score r >? highScore r)%Z; reflexivity. }
    split; [exact Hg |]. intros Hd. unfold deathState in Hd.
    destruct (truthy (activePowerUps r !! "PHOENIX") || negb (isPhoenixMode r));
      [| discriminate Hd].
    split.
    + destruct M as [E | [_ E]]; [| exact E]. rewrite E. reflexivity.
    + eapply grows_In; [exact T |]. cbn. apply in_or_app. right. left. reflexivity.
Qed.

Lemma advance_death (random : nat -> Q) (sin : Q -> Q) (r : World) (time last : Q) :
  outOfBounds r (playerY r + playerVelocity r * ((time - last) / 16)) = true ->
  deathResolved random r (advance random sin r time last).
Proof.
  intros Hout.
  destruct (advance_stages random sin r time last) as (w & a & b & c & -> & Hw & _ & _).
  pose proof (Hw CplayerY eq_refl) as Ey. cbn [get] in Ey.
  apply (handleDeath_resolved random r w).
  unfold stepPlayerY. cbv zeta. rewrite Ey, Hout.
  apply Later_settleWorld.
Qed.

(** ** Events and the listener *)

Lemma rebind_unchanged (w w' : World) : unchanged [ClistenerDimensions] w' (rebind w w').
Proof. unfold rebind. destruct (GameState_eqb _ _); cells. Qed.

Lemma step_unchanged (random : nat -> Q) (sin : Q -> Q) (e : Event) (w : World) :
  unchanged [ClistenerDimensions] (react random sin e w) (step random sin e w).
Proof. apply rebind_unchanged. Qed.

(** Reading a cell other than the listener's after an event is reading it
    after the writes of the event. *)
Ltac to_react :=
  repeat match goal with
    | |- context [?f (step ?rnd ?sn ?e ?w)] =>
        first
          [ change (f (step rnd sn e w)) with (get CgameState (step rnd sn e w));
            rewrite (step_unchanged rnd sn e w CgameState eq_refl)
          | change (f (step rnd sn e w)) with (get Cscore (step rnd sn e w));
            rewrite (step_unchanged rnd sn e w Cscore eq_refl)
          | change (f (step rnd sn e w)) with (get ChighScore (step rnd sn e w));
            rewrite (step_unchanged rnd sn e w ChighScore eq_refl)
          | change (f (step rnd sn e w)) with (get Cdimensions (step rnd sn e w));
            rewrite (step_unchanged rnd sn e w Cdimensions eq_refl)
          | change (f (step rnd sn e w)) with (get CplayerY (step rnd sn e w));
            rewrite (step_unchanged rnd sn e w CplayerY eq_refl)
          | change (f (step rnd sn e w)) with (get CactivePowerUps (step rnd sn e w));
            rewrite (step_unchanged rnd sn e w CactivePowerUps eq_refl)
          | change (f (step rnd sn e w)) with (get Cchallenges (step rnd sn e w));
            rewrite (step_unchanged rnd sn e w Cchallenges eq_refl)
          | change (f (step rnd sn e w)) with (get CunlockedSkins (step rnd sn e w));
            rewrite (step_unchanged rnd sn e w CunlockedSkins eq_refl)
          | change (f (step rnd sn e w)) with (get ClastTimeRef (step rnd sn e w));
            rewrite (step_unchanged rnd sn e w ClastTimeRef eq_refl)
          | change (f (step rnd sn e w)) with (get Ctimers (step rnd sn e w));
            rewrite (step_unchanged rnd sn e w Ctimers eq_refl) ]
    end;
  cbn [get].

(** ** Death resolution *)

Lemma length_explosionParticles (random : nat -> Q) (count n : nat) (x y : Q)
  (color : string) :
  length (explosionParticles random count n x y color) = count.
Proof.
  revert n. induction count as [| count IH]; intros n; cbn; [reflexivity |].
  f_equal. apply IH.
Qed.

Lemma app_longer {A : Type} (l more : list A) : l ++ more = l -> more = [].
Proof.
  intros H. apply (f_equal (@length A)) in H. rewrite length_app in H.
  destruct more; [reflexivity | cbn in H; lia].
Qed.

(** All entries of the modifier record are installed with 10000; for such
    an entry the test [activePowerUps[key]] succeeds, and it fails for a
    missing one. *)
Lemma truthy_installed (m : gmap string Q) (k : string) :
  (m !! k = Some 10000 -> truthy (m !! k) = true)
  /\ (m !! k = None -> truthy (m !! k) = false).
Proof. split; intros ->; reflexivity. Qed.

(** C1. A call to [handleDeath] takes exactly one of three outcomes, tested
    in this order: with a shield in the rendered modifier record, the shield
    entry is deleted, the blue explosion is emitted and neither the game
    state nor the phoenix flag changes; otherwise, with a phoenix modifier
    or outside phoenix mode, the game enters PHOENIX_REVIVE with the phoenix
    flag set and arms the 1000 ms timer, whose callback returns to PLAYING
    and arms the 5000 ms timer that clears the flag; otherwise the game
    enters GAME_OVER and the best score becomes the score when the score
    exceeds it. The outcomes exclude one another. *)
Theorem C1_handleDeath_one_outcome (random : nat -> Q) (r w : World) :
  let w' := handleDeath random r w in
  (if truthy (activePowerUps r !! "SHIELD") then shieldConsumed random r w w'
   else if truthy (activePowerUps r !! "PHOENIX") || negb (isPhoenixMode r)
        then phoenixReviveEntered random r w w'
        else gameOverEntered r w w')
  /\ ((shieldConsumed random r w w'
       /\ ~ phoenixReviveEntered random r w w' /\ ~ gameOverEntered r w w')
      \/ (~ shieldConsumed random r w w'
          /\ phoenixReviveEntered random r w w' /\ ~ gameOverEntered r w w')
      \/ (~ shieldConsumed random r w w'
          /\ ~ phoenixReviveEntered random r w w' /\ gameOverEntered r w w'))
  /\ (forall w0 : World,
        gameState (runTimer RevivePlaying w0) = PLAYING
        /\ timers (runTimer RevivePlaying w0)
           = timers w0 ++ [{| delay := 5000; callback := ClearPhoenix |}]
        /\ isPhoenixMode (runTimer ClearPhoenix w0) = false).
Proof.
  intros w'.
  assert (Hsp : shieldConsumed random r w w' -> phoenixReviveEntered random r w w' -> False).
  { intros (_ & _ & Ht & _) (_ & _ & Ht' & _). rewrite Ht in Ht'.
    symmetry in Ht'. apply app_longer in Ht'. discriminate Ht'. }
  assert (Hsg : shieldConsumed random r w w' -> gameOverEntered r w w' -> False).
  { intros (_ & Hp & _) (_ & _ & _ & Hp' & _). rewrite Hp' in Hp.
    symmetry in Hp. apply app_longer in Hp.
    apply (f_equal (@length Particle.t)) in Hp.
    rewrite length_explosionParticles in Hp. discriminate Hp. }
  assert (Hpg : phoenixReviveEntered random r w w' -> gameOverEntered r w w' -> False).
  { intros (_ & _ & Ht & _) (_ & _ & Ht' & _). rewrite Ht' in Ht.
    symmetry in Ht. apply app_longer in Ht. discriminate Ht. }
  assert (Hrun :
    if truthy (activePowerUps r !! "SHIELD") then shieldConsumed random r w w'
    else if truthy (activePowerUps r !! "PHOENIX") || negb (isPhoenixMode r)
         then phoenixReviveEntered random r w w'
         else gameOverEntered r w w').
  { subst w'. unfold handleDeath.
    destruct (truthy (activePowerUps r !! "SHIELD")).
    - repeat split.
    - destruct (truthy (activePowerUps r !! "PHOENIX") || negb (isPhoenixMode r)).
      + repeat split.
      + unfold gameOverEntered.
        destruct (score r >? highScore r)%Z; repeat split. }
  split; [exact Hrun |]. split.
  - destruct (truthy (activePowerUps r !! "SHIELD")).
    + left. split; [exact Hrun |]. split; intros H; [apply Hsp | apply Hsg]; assumption.
    + destruct (truthy (activePowerUps r !! "PHOENIX") || negb (isPhoenixMode r)).
      * right. left. split; [| split; [exact Hrun |]]; intros H;
          [apply Hsp | apply Hpg]; assumption.
      * right. right. split; [| split; [| exact Hrun]]; intros H;
          [apply Hsg | apply Hpg]; assumption.
  - intros w0. repeat split.
Qed.

(** ** Vertical bounds *)

Lemma Qltb_false (a b : Q) : Qltb a b = false <-> b <= a.
Proof.
  unfold Qltb. rewrite negb_false_iff. apply Qle_bool_iff.
Qed.

Lemma Qltb_true (a b : Q) : Qltb a b = true <-> a < b.
Proof.
  unfold Qltb. rewrite negb_true_iff. split.
  - intros H. apply Qnot_le_lt. intros Hle. apply Qle_bool_iff in Hle. congruence.
  - intros H. destruct (Qle_bool b a) eqn:E; [| reflexivity].
    apply Qle_bool_iff in E. exfalso. apply (Qlt_not_le _ _ H E).
Qed.

Lemma outOfBounds_false (r : World) (y : Q) : outOfBounds r y = false <-> inBounds r y.
Proof.
  unfold outOfBounds, inBounds. rewrite orb_false_iff, !Qltb_false. reflexivity.
Qed.

Lemma update_playing (random : nat -> Q) (sin : Q -> Q) (time last : Q) (r : World) :
  gameState r = PLAYING -> lastTimeRef r = Some last ->
  update random sin time r = setLastTimeRef (Some time) (advance random sin r time last).
Proof. intros Hg Hl. unfold update. rewrite Hg, Hl. reflexivity. Qed.

Lemma update_seed (random : nat -> Q) (sin : Q -> Q) (time : Q) (r : World) :
  gameState r = PLAYING -> lastTimeRef r = None ->
  update random sin time r = setLastTimeRef (Some time) r.
Proof. intros Hg Hl. unfold update. rewrite Hg, Hl. reflexivity. Qed.

Lemma update_idle (random : nat -> Q) (sin : Q -> Q) (time : Q) (r : World) :
  gameState r <> PLAYING -> update random sin time r = r.
Proof. intros Hg. unfold update. destruct (gameState r); try reflexivity. congruence. Qed.

(** C2. During an update in PLAYING the committed vertical position stays
    in [0, height - PLAYER_SIZE]: when the candidate position leaves the
    interval, [handleDeath] is called (its outcome shows in the resulting
    world) and the position keeps its previous value; otherwise the
    candidate is committed. *)
Theorem C2_playerY_stays_in_bounds (random : nat -> Q) (sin : Q -> Q) (time : Q)
  (r : World) :
  gameState r = PLAYING ->
  inBounds r (playerY r) ->
  let w' := update random sin time r in
  inBounds r (playerY w')
  /\ (forall last : Q,
        lastTimeRef r = Some last ->
        let nextY := playerY r + playerVelocity r * ((time - last) / 16) in
        (outOfBounds r nextY = true ->
         playerY w' = playerY r /\ deathResolved random r w')
        /\ (outOfBounds r nextY = false -> playerY w' = nextY)).
Proof.
  intros Hg Hin w'. subst w'.
  destruct (lastTimeRef r) as [last |] eqn:Hl.
  - rewrite (update_playing random sin time last r Hg Hl).
    change (playerY (setLastTimeRef (Some time) (advance random sin r time last)))
      with (playerY (advance random sin r time last)).
    pose proof (advance_playerY random sin r time last) as Hy. cbv zeta in Hy.
    split.
    + rewrite Hy. destruct (outOfBounds r _) eqn:Ho; [exact Hin |].
      apply outOfBounds_false. exact Ho.
    + intros last' [= <-]. cbv zeta. split; intros Ho; rewrite Ho in Hy.
      * split; [exact Hy |].
        pose proof (advance_death random sin r time last Ho) as Hd.
        unfold deathResolved in *.
        destruct (truthy (activePowerUps r !! "SHIELD")); exact Hd.
      * exact Hy.
  - rewrite (update_seed random sin time r Hg Hl). split; [exact Hin |].
    intros last [=].
Qed.

(** ** One integration step *)

(** The stages of [settleWorld], named. *)
Ltac settle_stages :=
  unfold settleWorld; cbv zeta;
  match goal with
  | |- context [stepObstacles ?rnd ?r ?s ?d ?w] =>
      set (w1 := stepObstacles rnd r s d w);
      set (w2 := setObstacles _ w1);
      set (w3 := stepPowerUps rnd r s d w2);
      set (w4 := setPowerUps _ w3);
      set (w5 := stepScore r w4);
      set (w6 := match boss r with Some _ => _ | None => _ end);
      set (w7 := stepProjectiles rnd r w6)
  end.

(** After the obstacle function, nothing in [settleWorld] writes the game
    state, the phoenix flag, the timers or the best score. *)
Lemma settleWorld_after_obstacles (random : nat -> Q) (sin : Q -> Q) (r : World)
  (time deltaTime currentSpeed : Q) (newProjectile : option Projectile.t)
  (spawnedObstacle : option Obstacle.t) (spawnedPowerUp : option PowerUp.t) (w : World) :
  unchanged quietCells (stepObstacles random r currentSpeed deltaTime w)
    (settleWorld random sin r time deltaTime currentSpeed newProjectile spawnedObstacle
       spawnedPowerUp w).
Proof.
  settle_stages.
  apply unchanged_trans with (w2 := w7); [| cells].
  apply unchanged_trans with (w2 := w6).
  2: { apply unchanged_weaken with (cs := projectileCells);
         [reflexivity | apply modifies_stepProjectiles]. }
  apply unchanged_trans with (w2 := w5).
  2: { subst w6. destruct (boss r) as [b |]; [destruct (Boss.active b) |];
         try apply unchanged_refl.
       apply unchanged_weaken with (cs := bossCells);
         [reflexivity | apply modifies_stepBoss]. }
  apply unchanged_trans with (w2 := w4).
  2: { apply unchanged_weaken with (cs := scoreCells);
         [reflexivity | apply modifies_stepScore]. }
  apply unchanged_trans with (w2 := w3); [| cells].
  apply unchanged_trans with (w2 := w2); [cells |].
  apply unchanged_weaken with (cs := CpowerUps :: pickupCells);
    [reflexivity | apply modifies_stepPowerUps].
Qed.

Lemma advance_no_death (random : nat -> Q) (sin : Q -> Q) (r : World) (time last : Q) :
  outOfBounds r (playerY r + playerVelocity r * ((time - last) / 16)) = false ->
  obstacles r = [] ->
  gameState (advance random sin r time last) = gameState r.
Proof.
  intros Hout Hobs.
  destruct (advance_stages random sin r time last) as (w & a & b & c & -> & Hw & _ & _).
  pose proof (Hw CplayerY eq_refl) as Ey.
  pose proof (Hw Cobstacles eq_refl) as Eo.
  pose proof (Hw CgameState eq_refl) as Eg. cbn [get] in Ey, Eo, Eg.
  etransitivity;
    [apply (settleWorld_after_obstacles _ _ _ _ _ _ _ _ _ _ CgameState eq_refl) |].
  cbn [get]. unfold stepPlayerY. cbv zeta. rewrite Ey, Hout.
  unfold stepObstacles. cbn [obstacles setPlayerY]. rewrite Eo, Hobs. cbn.
  exact Eg.
Qed.

(** C3 (as the code has it). One update adds [GRAVITY * deltaTime] to the
    velocity and [velocity * deltaTime] to the position, where the velocity
    in the second product is the rendered one, from before the update; when
    the candidate position is in bounds it is committed, and with an empty
    obstacle pool the game stays in PLAYING. *)
Theorem C3_integration_uses_rendered_velocity (random : nat -> Q) (sin : Q -> Q)
  (time last : Q) (r : World) :
  gameState r = PLAYING ->
  lastTimeRef r = Some last ->
  let deltaTime := (time - last) / 16 in
  let w' := update random sin time r in
  playerVelocity w' = playerVelocity r + GRAVITY * deltaTime
  /\ (outOfBounds r (playerY r + playerVelocity r * deltaTime) = false ->
      playerY w' = playerY r + playerVelocity r * deltaTime
      /\ (obstacles r = [] -> gameState w' = PLAYING)).
Proof.
  intros Hg Hl deltaTime w'. subst w' deltaTime.
  rewrite (update_playing random sin time last r Hg Hl). split.
  - apply advance_playerVelocity.
  - intros Hout. split.
    + pose proof (advance_playerY random sin r time last) as Hy. cbv zeta in Hy.
      rewrite Hout in Hy. exact Hy.
    + intros Hobs. rewrite <- Hg. apply (advance_no_death random sin r time last Hout Hobs).
Qed.

(** The example of the specification: score 0, height 800, y = 400,
    velocity 0, deltaTime 1. The velocity becomes 0.4, the position stays
    at 400, the game stays in PLAYING. *)
Lemma C3_example_witness :
  gameState exampleWorld = PLAYING
  /\ lastTimeRef exampleWorld = Some 0
  /\ (16 - 0) / 16 == 1
  /\ playerVelocity (update halfDraws flatSin 16 exampleWorld) == 4 # 10
  /\ playerY (update halfDraws flatSin 16 exampleWorld) == 400
  /\ gameState (update halfDraws flatSin 16 exampleWorld) = PLAYING.
Proof.
  destruct (C3_integration_uses_rendered_velocity halfDraws flatSin 16 0 exampleWorld
              eq_refl eq_refl) as [Hv Hy].
  destruct (Hy eq_refl) as [Hy' Hg].
  split; [reflexivity |]. split; [reflexivity |]. split; [reflexivity |].
  split; [rewrite Hv; reflexivity |]. split; [rewrite Hy'; reflexivity |].
  apply Hg. reflexivity.
Defined.

(** The claimed position 400.4 is not the one reached. *)
Lemma C3_counterexample :
  playerY exampleWorld == 400
  /\ playerVelocity exampleWorld == 0
  /\ playerVelocity (update halfDraws flatSin 16 exampleWorld) == 4 # 10
  /\ ~ playerY (update halfDraws flatSin 16 exampleWorld) == 4004 # 10.
Proof.
  split; [reflexivity |]. split; [reflexivity |]. split; [reflexivity |].
  intros H. vm_compute in H. discriminate H.
Qed.

Lemma C2_witness :
  gameState fallWorld = PLAYING
  /\ inBounds fallWorld (playerY fallWorld)
  /\ outOfBounds fallWorld (playerY fallWorld + playerVelocity fallWorld * ((16 - 0) / 16))
     = true
  /\ inBounds fallWorld (playerY (update halfDraws flatSin 16 fallWorld))
  /\ playerY (update halfDraws flatSin 16 fallWorld) = playerY fallWorld
  /\ deathResolved halfDraws fallWorld (update halfDraws flatSin 16 fallWorld).
Proof.
  assert (Hin : inBounds fallWorld (playerY fallWorld)).
  { unfold inBounds, Qle. cbn. lia. }
  destruct (C2_playerY_stays_in_bounds halfDraws flatSin 16 fallWorld eq_refl Hin)
    as [Hb Hstep].
  destruct (Hstep 0 eq_refl) as [Hout _].
  destruct (Hout eq_refl) as [Hy Hd].
  split; [reflexivity |]. split; [exact Hin |]. split; [reflexivity |].
  split; [exact Hb |]. split; [exact Hy | exact Hd].
Defined.

(** ** The clock across pause and restart *)

(** C4 (the code departs from it). While the game is not in PLAYING an
    update changes nothing, the stored timestamp included; neither resuming
    nor [startGame] clears the timestamp. Hence the first update after a
    resume or a restart takes the whole interval since the last update
    before the pause as its delta: in [pausedRun] the velocity jumps from
    0.4 to 400.4 and the player dies, in [restartedRun] the new run starts
    with velocity 400. *)
Theorem C4_stale_timestamp_after_pause_and_restart :
  (forall (random : nat -> Q) (sin : Q -> Q) (time : Q) (w : World),
      gameState w = PAUSED -> update random sin time w = w)
  /\ (forall (random : nat -> Q) (sin : Q -> Q) (w : World),
        lastTimeRef (step random sin ResumeClick w) = lastTimeRef w
        /\ lastTimeRef (step random sin PauseInput w) = lastTimeRef w
        /\ (forall r : World, lastTimeRef (startGame r w) = lastTimeRef w))
  /\ (let paused := run halfDraws flatSin [Frame 0; Frame 16; PauseInput] freshRun in
      let resumed := step halfDraws flatSin ResumeClick paused in
      let after := update halfDraws flatSin 16016 resumed in
      gameState paused = PAUSED
      /\ lastTimeRef resumed = Some 16
      /\ playerVelocity resumed == 4 # 10
      /\ playerVelocity after == (4 # 10) + GRAVITY * ((16016 - 16) / 16)
      /\ playerVelocity after == 4004 # 10
      /\ gameState after = PHOENIX_REVIVE)
  /\ (let paused := run halfDraws flatSin [Frame 0; Frame 16; PauseInput] freshRun in
      let restarted := step halfDraws flatSin StartClick paused in
      let after := update halfDraws flatSin 16016 restarted in
      restarted = setLastTimeRef (Some 16) (startGame paused paused)
      /\ playerVelocity restarted == 0
      /\ playerVelocity after == 400).
Proof.
  split; [| split; [| split]].
  - intros random sin time w Hg. apply update_idle. rewrite Hg. discriminate.
  - intros random sin w. to_react. cbn [react]. destruct (gameState w); repeat split.
  - cbv zeta. repeat (split; [vm_compute; reflexivity |]). vm_compute. reflexivity.
  - cbv zeta. repeat (split; [vm_compute; reflexivity |]). vm_compute. reflexivity.
Qed.

(** ** Power-ups *)

Lemma forEach_app {A : Type} (f : A -> World -> World) (l1 l2 : list A) (w : World) :
  forEach f (l1 ++ l2) w = forEach f l2 (forEach f l1 w).
Proof. unfold forEach. apply fold_left_app. Qed.

Lemma powerUpHit_keeps_installed (random : nat -> Q) (r : World) (q : PowerUp.t)
  (k : string) (w : World) :
  activePowerUps w !! k = Some 10000 ->
  activePowerUps (powerUpHit random r q w) !! k = Some 10000.
Proof.
  intros H. unfold powerUpHit. destruct (hitsPlayer _ _ _ _ _); [| exact H].
  cbn. destruct (decide (keyOf (PowerUp.type q) = k)) as [<- | Hk].
  - apply lookup_insert_eq.
  - rewrite lookup_insert_ne; [exact H | exact Hk].
Qed.

Lemma forEach_powerUpHit_keeps_installed (random : nat -> Q) (r : World)
  (l : list PowerUp.t) (k : string) (w : World) :
  activePowerUps w !! k = Some 10000 ->
  activePowerUps (forEach (powerUpHit random r) l w) !! k = Some 10000.
Proof.
  revert w. induction l as [| q l IH]; intros w H; [exact H |].
  apply IH. apply powerUpHit_keeps_installed. exact H.
Qed.

Lemma forEach_powerUpHit_installs (random : nat -> Q) (r : World) (l : list PowerUp.t)
  (p : PowerUp.t) (w : World) :
  In p l ->
  hitsPlayer r (PowerUp.x p) (PowerUp.y p) (PowerUp.width p) (PowerUp.height p) = true ->
  let w' := forEach (powerUpHit random r) l w in
  activePowerUps w' !! keyOf (PowerUp.type p) = Some 10000
  /\ exists n, forall q,
       In q (explosionParticles random 15 n (PowerUp.x p) (PowerUp.y p) "#fbbf24") ->
       In q (particles w').
Proof.
  intros Hin Hhit w'. subst w'.
  apply in_split in Hin. destruct Hin as (l1 & l2 & ->).
  rewrite forEach_app.
  set (wa := forEach (powerUpHit random r) l1 w).
  change (forEach (powerUpHit random r) (p :: l2) wa)
    with (forEach (powerUpHit random r) l2 (powerUpHit random r p wa)).
  split.
  - apply forEach_powerUpHit_keeps_installed.
    unfold powerUpHit. rewrite Hhit. cbn. apply lookup_insert_eq.
  - exists (randomCalls wa). intros q Hq.
    pose proof (Later_forEach r (powerUpHit random r) l2
                  (Later_powerUpHit random r) (powerUpHit random r p wa)) as [Hg _ _ _ _].
    eapply grows_In; [exact Hg |].
    unfold powerUpHit. rewrite Hhit. cbn. apply in_or_app. right. exact Hq.
Qed.

Lemma advancePowerUps_In (currentSpeed deltaTime : Q) (prev : list PowerUp.t)
  (p0 : PowerUp.t) :
  In p0 prev ->
  Qltb (-100) (PowerUp.x p0 - currentSpeed * deltaTime) = true ->
  In (PowerUp.withX (PowerUp.x p0 - currentSpeed * deltaTime) p0)
    (advancePowerUps currentSpeed deltaTime prev).
Proof.
  intros Hin Hx. unfold advancePowerUps. apply filter_In. split; [| exact Hx].
  apply in_map_iff. exists p0. split; [reflexivity | exact Hin].
Qed.

(** The power-up pool, the modifier record and the particles of
    [settleWorld], in terms of the world in which it starts. *)
Lemma settleWorld_powerUps (random : nat -> Q) (sin : Q -> Q) (r : World)
  (time deltaTime currentSpeed : Q) (newProjectile : option Projectile.t)
  (spawnedObstacle : option Obstacle.t) (spawnedPowerUp : option PowerUp.t) (w : World) :
  let next := advancePowerUps currentSpeed deltaTime (powerUps w) in
  let w' :=
    settleWorld random sin r time deltaTime currentSpeed newProjectile spawnedObstacle
      spawnedPowerUp w in
  powerUps w' = appended spawnedPowerUp next
  /\ forall p,
       In p next ->
       hitsPlayer r (PowerUp.x p) (PowerUp.y p) (PowerUp.width p) (PowerUp.height p)
       = true ->
       activePowerUps w' !! keyOf (PowerUp.type p) = Some 10000
       /\ exists n, forall q,
            In q (explosionParticles random 15 n (PowerUp.x p) (PowerUp.y p) "#fbbf24") ->
            In q (particles w').
Proof.
  intros next w'. subst w'. settle_stages.
  assert (Ep : powerUps w2 = powerUps w).
  { subst w2. cbn.
    apply (modifies_stepObstacles random r currentSpeed deltaTime w CpowerUps eq_refl). }
  assert (Hlate : unchanged lateCells w4 (setProjectiles (appended newProjectile (projectiles w7)) w7)).
  { apply unchanged_trans with (w2 := w7); [| cells].
    apply unchanged_trans with (w2 := w6).
    2: { apply unchanged_weaken with (cs := projectileCells);
           [reflexivity | apply modifies_stepProjectiles]. }
    apply unchanged_trans with (w2 := w5).
    2: { subst w6. destruct (boss r) as [b |]; [destruct (Boss.active b) |];
           try apply unchanged_refl.
         apply unchanged_weaken with (cs := bossCells);
           [reflexivity | apply modifies_stepBoss]. }
    apply unchanged_weaken with (cs := scoreCells);
      [reflexivity | apply modifies_stepScore]. }
  assert (Hgrow : Later r w3 (setProjectiles (appended newProjectile (projectiles w7)) w7)).
  { apply Later_trans with (w2 := w7);
      [| apply (Later_of_unchanged [Cprojectiles]); [reflexivity | cells]].
    apply Later_trans with (w2 := w6); [| apply Later_stepProjectiles].
    apply Later_trans with (w2 := w5).
    2: { subst w6. destruct (boss r) as [b |]; [destruct (Boss.active b) |];
           try apply Later_refl. apply Later_stepBoss. }
    apply Later_trans with (w2 := w4); [| apply Later_stepScore].
    apply (Later_of_unchanged [CpowerUps]); [reflexivity | cells]. }
  pose proof (Hlate CpowerUps eq_refl) as Epool.
  pose proof (Hlate CactivePowerUps eq_refl) as Eact. cbn [get] in Epool, Eact.
  assert (E3 : w3 = setPowerUps next (forEach (powerUpHit random r) next w2)).
  { subst w3. unfold stepPowerUps. cbv zeta. rewrite Ep. reflexivity. }
  split.
  - rewrite Epool. subst w4. rewrite E3. reflexivity.
  - intros p Hp Hhit.
    destruct (forEach_powerUpHit_installs random r next p w2 Hp Hhit) as [Hk (n & Hn)].
    split.
    + rewrite Eact. subst w4. rewrite E3. exact Hk.
    + exists n. intros q Hq. destruct Hgrow as [Hg _ _ _ _].
      eapply grows_In; [exact Hg |]. rewrite E3. apply Hn. exact Hq.
Qed.

(** C5 (the code departs from it). In an update, every power-up of the
    advanced pool that overlaps the player gets its modifier entry set to
    10000 and its pickup explosion emitted, but it is not retired: the pool
    after the update is the advanced pool, from which only the members at
    or beyond x = -100 were dropped, with the power-up spawned in this
    update appended. The projectile loop retires what it hits (line 246)
    and the obstacle loop says it should (line 268); the power-up loop
    returns [next] as it is. *)
Theorem C5_pickup_installs_but_keeps_powerUp (random : nat -> Q) (sin : Q -> Q)
  (time last : Q) (r : World) :
  gameState r = PLAYING ->
  lastTimeRef r = Some last ->
  let deltaTime := (time - last) / 16 in
  let next := advancePowerUps (currentSpeedOf r) deltaTime (powerUps r) in
  let w' := update random sin time r in
  (exists spawned, powerUps w' = appended spawned next)
  /\ (forall p,
        In p next ->
        hitsPlayer r (PowerUp.x p) (PowerUp.y p) (PowerUp.width p) (PowerUp.height p)
        = true ->
        activePowerUps w' !! keyOf (PowerUp.type p) = Some 10000
        /\ (exists n, forall q,
              In q (explosionParticles random 15 n (PowerUp.x p) (PowerUp.y p) "#fbbf24") ->
              In q (particles w'))
        /\ In p (powerUps w'))
  /\ (forall p0,
        In p0 (powerUps r) ->
        Qltb (-100) (PowerUp.x p0 - currentSpeedOf r * deltaTime) = true ->
        In (PowerUp.withX (PowerUp.x p0 - currentSpeedOf r * deltaTime) p0) (powerUps w')).
Proof.
  intros Hg Hl deltaTime next w'. subst w'.
  rewrite (update_playing random sin time last r Hg Hl).
  destruct (advance_stages random sin r time last) as (w & a & b & c & E & Hw & _ & _).
  set (wp := stepPlayerY random r ((time - last) / 16) w) in E.
  assert (Ep : powerUps wp = powerUps r).
  { subst wp.
    etransitivity;
      [apply (modifies_stepPlayerY random r ((time - last) / 16) w CpowerUps eq_refl) |].
    apply (Hw CpowerUps eq_refl). }
  destruct (settleWorld_powerUps random sin r time ((time - last) / 16) (currentSpeedOf r)
              a b c wp) as [Hpool Hhits].
  rewrite Ep in Hpool, Hhits. fold deltaTime in Hpool, Hhits, E. fold next in Hpool, Hhits.
  cbn [powerUps activePowerUps particles setLastTimeRef]. rewrite E.
  assert (Hkeep : forall p, In p next ->
            In p (appended c next)).
  { intros p Hp. destruct c; cbn; [apply in_or_app; left |]; exact Hp. }
  split; [exists c; exact Hpool |]. split.
  - intros p Hp Hhit. destruct (Hhits p Hp Hhit) as [Hk Hn].
    split; [exact Hk |]. split; [exact Hn |]. rewrite Hpool. apply Hkeep. exact Hp.
  - intros p0 Hp0 Hx. rewrite Hpool. apply Hkeep.
    apply advancePowerUps_In; assumption.
Qed.

Lemma C5_witness :
  gameState pickupWorld = PLAYING
  /\ lastTimeRef pickupWorld = Some 0
  /\ activePowerUps pickupWorld !! "SHIELD" = None
  /\ activePowerUps (update halfDraws flatSin 16 pickupWorld) !! "SHIELD" = Some 10000
  /\ In (PowerUp.withX (60 - currentSpeedOf pickupWorld * ((16 - 0) / 16)) shieldPickup)
       (powerUps (update halfDraws flatSin 16 pickupWorld)).
Proof.
  destruct (C5_pickup_installs_but_keeps_powerUp halfDraws flatSin 16 0 pickupWorld
              eq_refl eq_refl) as (_ & Hhit & _).
  destruct (Hhit (PowerUp.withX (60 - currentSpeedOf pickupWorld * ((16 - 0) / 16))
                    shieldPickup)) as (Hk & _ & Hin).
  - vm_compute. left. reflexivity.
  - vm_compute. reflexivity.
  - split; [reflexivity |]. split; [reflexivity |]. split; [reflexivity |].
    split; [exact Hk | exact Hin].
Defined.

(** A power-up that overlaps the player is picked up and is still in the
    pool after the update. *)
Lemma C5_counterexample :
  exists p : PowerUp.t,
    powerUps (update halfDraws flatSin 16 pickupWorld) = [p]
    /\ PowerUp.id p = PowerUp.id shieldPickup
    /\ hitsPlayer pickupWorld (PowerUp.x p) (PowerUp.y p) (PowerUp.width p)
         (PowerUp.height p) = true
    /\ activePowerUps (update halfDraws flatSin 16 pickupWorld) !! "SHIELD" = Some 10000.
Proof.
  eexists. split; [vm_compute; reflexivity |].
  split; [reflexivity |]. split; vm_compute; reflexivity.
Qed.

(** What the missing retirement leads to. The pickup of one update is
    picked up again by the next (a second pickup explosion, the power-up
    still in the pool); and a shield that [handleDeath] consumes in an
    update is granted again in the same update by a power-up that an
    earlier pickup left on the player: without that power-up the same
    update ends with no shield. *)
Lemma pickup_regrants_consumed_shield :
  let w1 := update halfDraws flatSin 16 pickupWorld in
  let w2 := update halfDraws flatSin 32 w1 in
  (map PowerUp.id (powerUps w2) = [NamedId "P1"]
   /\ length (particles w1) = 15%nat
   /\ length (particles w2) = 30%nat)
  /\ (activePowerUps regrantWorld !! "SHIELD" = Some 10000
      /\ gameState (update halfDraws flatSin 16 regrantWorld) = PLAYING
      /\ activePowerUps (update halfDraws flatSin 16 (setPowerUps [] regrantWorld))
           !! "SHIELD" = None
      /\ activePowerUps (update halfDraws flatSin 16 regrantWorld) !! "SHIELD"
         = Some 10000).
Proof.
  cbv zeta. split.
  - split; [vm_compute; reflexivity |]. split; vm_compute; reflexivity.
  - split; [reflexivity |]. split; [vm_compute; reflexivity |].
    split; vm_compute; reflexivity.
Qed.

(** ** Obstacles *)

(** C6 (the code departs from it). An overlapping obstacle is answered with
    the orange explosion under FIRE_WINGS, with nothing under WIND_GLIDE
    alone, and with [handleDeath] otherwise; in no case does the collision
    remove the obstacle: the pool left by the obstacle function is the
    advanced pool. In [fireWorld] the drone hit under FIRE_WINGS explodes,
    the game stays in PLAYING, and the drone is still in the pool. *)
Theorem C6_fire_wings_hit_leaves_obstacle :
  (forall (random : nat -> Q) (r : World) (currentSpeed deltaTime : Q) (w : World),
      obstacles (stepObstacles random r currentSpeed deltaTime w)
      = advanceObstacles currentSpeed deltaTime (obstacles w))
  /\ (forall (random : nat -> Q) (r : World) (o : Obstacle.t) (w : World),
        hitsPlayer r (Obstacle.x o) (Obstacle.y o) (Obstacle.width o) (Obstacle.height o)
        = true ->
        obstacleHit random r o w
        = if truthy (activePowerUps r !! "FIRE_WINGS")
          then createExplosion random (Obstacle.x o) (Obstacle.y o) "#f97316" w
          else if truthy (activePowerUps r !! "WIND_GLIDE") then w
               else handleDeath random r w)
  /\ (exists o : Obstacle.t,
        obstacles (update halfDraws flatSin 16 fireWorld) = [o]
        /\ Obstacle.id o = Obstacle.id drone
        /\ hitsPlayer fireWorld (Obstacle.x o) (Obstacle.y o) (Obstacle.width o)
             (Obstacle.height o) = true
        /\ truthy (activePowerUps fireWorld !! "FIRE_WINGS") = true
        /\ gameState (update halfDraws flatSin 16 fireWorld) = PLAYING
        /\ length (particles (update halfDraws flatSin 16 fireWorld)) = 15%nat).
Proof.
  split; [| split].
  - intros random r currentSpeed deltaTime w. unfold stepObstacles. reflexivity.
  - intros random r o w Hhit. unfold obstacleHit. rewrite Hhit.
    destruct (truthy (activePowerUps r !! "FIRE_WINGS")); [reflexivity |].
    destruct (truthy (activePowerUps r !! "WIND_GLIDE")); reflexivity.
  - eexists. split; [vm_compute; reflexivity |].
    split; [reflexivity |]. repeat (split; [vm_compute; reflexivity |]).
    vm_compute. reflexivity.
Qed.

(** ** Restart *)

(** C10 (the code departs from it on the keyboard path). [startGame] sets
    the score to 0, the position to half the height its render saw, the
    velocity to 0, empties the four pools and the modifier record, leaves
    phoenix mode, removes the boss and enters PLAYING; the best score, the
    unlocked skins, the challenges, the selected skin and every other cell
    keep their values. The buttons and the pointer call the [startGame] of
    the current render, which is mid-height; the keydown listener calls the
    one of the last render that changed the game state: after a resize from
    800 to 600 in START, Space puts the player at 400, the pointer and the
    button at 300. *)
Theorem C10_startGame_resets_run_state_only :
  (forall r w : World,
      let w' := startGame r w in
      (score w' = 0%Z
       /\ playerY w' = height (dimensions r) / 2
       /\ playerVelocity w' = 0
       /\ obstacles w' = [] /\ powerUps w' = [] /\ particles w' = []
       /\ projectiles w' = []
       /\ activePowerUps w' = ∅
       /\ isPhoenixMode w' = false
       /\ boss w' = None
       /\ gameState w' = PLAYING)
      /\ (highScore w' = highScore w
          /\ unlockedSkins w' = unlockedSkins w
          /\ challenges w' = challenges w
          /\ currentSkin w' = currentSkin w)
      /\ unchanged restartCells w w')
  /\ (forall (random : nat -> Q) (sin : Q -> Q) (e : Event) (w : World),
        restarts e w = true ->
        step random sin e w = rebind w (startGame (handlerRender e w) w)
        /\ (e <> KeyJump -> handlerRender e w = w)
        /\ (e = KeyJump -> dimensions (handlerRender e w) = listenerDimensions w))
  /\ (let resized :=
        step halfDraws flatSin (WindowResize 1280 600) (initialWorld 1280 800) in
      let byKey := step halfDraws flatSin KeyJump resized in
      let byPointer := step halfDraws flatSin JumpInput resized in
      let byButton := step halfDraws flatSin StartClick resized in
      gameState resized = START
      /\ height (dimensions resized) = 600
      /\ gameState byKey = PLAYING
      /\ height (dimensions byKey) = 600
      /\ playerY byKey == 400
      /\ ~ playerY byKey == 600 / 2
      /\ playerY byPointer == 300
      /\ playerY byButton == 300).
Proof.
  split; [| split].
  - intros r w w'. subst w'. split; [repeat split |]. split; [repeat split |].
    unfold startGame. cells.
  - intros random sin e w He. unfold restarts in He.
    split; [| split].
    + unfold step. f_equal.
      destruct e; try discriminate He; cbn [react handlerRender];
        unfold handleJump, listenerRender;
        cbn [gameState setDimensions];
        destruct (gameState w); try discriminate He; reflexivity.
    + intros Hk. destruct e; try reflexivity. contradiction.
    + intros ->. reflexivity.
  - cbv zeta. repeat (split; [vm_compute; reflexivity |]).
    split; [intros H; vm_compute in H; discriminate H |].
    split; vm_compute; reflexivity.
Qed.

(** ** The boss *)

Lemma mapWrites_invariant {A B : Type} (P : World -> Prop) (f : A -> World -> B * World)
  (l : list A) :
  (forall a w, P w -> P (snd (f a w))) -> forall w, P w -> P (snd (mapWrites f l w)).
Proof.
  intros Hf. induction l as [| a l IH]; intros w Hw; cbn; [exact Hw |].
  pose proof (Hf a w Hw) as Ha. destruct (f a w) as [b w1]. cbn [snd] in Ha.
  pose proof (IH w1 Ha) as Hl. destruct (mapWrites f l w1) as [bs w2]. exact Hl.
Qed.

Lemma sameBoss_refl (b : Boss.t) : sameBoss b b.
Proof. repeat split. Qed.

Lemma stepBoss_bossIs (random : nat -> Q) (sin : Q -> Q) (r : World) (time : Q)
  (b : Boss.t) (w : World) :
  bossIs b w -> bossIs b (stepBoss random sin r time w).
Proof.
  unfold bossIs, stepBoss. intros H.
  destruct (boss w) as [prev |] eqn:Hb; [| left; exact Hb].
  destruct H as [Hn | (b' & [= <-] & Hs)]; [discriminate Hn |].
  cbv zeta. destruct (Qle_bool (Boss.health prev) 0).
  - left. reflexivity.
  - right. eexists. split; [reflexivity |].
    destruct prev, Hs as (? & ? & ? & ? & ? & ?). repeat split; assumption.
Qed.

Lemma projectileHit_bossIs (random : nat -> Q) (b0 b : Boss.t) (p : Projectile.t)
  (w : World) :
  bossIs b w -> bossIs b (snd (projectileHit random b0 p w)).
Proof.
  intros H. unfold projectileHit. destruct (hitsBoss b0 p); [| exact H].
  cbn [snd]. unfold bossIs, createExplosion, damageBoss. cbn [boss setRandomCalls setParticles setBoss].
  destruct H as [Hn | (b' & Hb & Hs)].
  - left. rewrite Hn. reflexivity.
  - right. rewrite Hb. eexists. split; [reflexivity |].
    destruct b', Hs as (? & ? & ? & ? & ? & ?). repeat split; assumption.
Qed.

Lemma stepProjectiles_bossIs (random : nat -> Q) (r : World) (b : Boss.t) (w : World) :
  bossIs b w -> bossIs b (stepProjectiles random r w).
Proof.
  intros H. unfold stepProjectiles. set (next := List.filter _ _).
  assert (H1 : bossIs b
                 (snd match boss r with
                      | Some b0 =>
                          if Boss.active b0
                          then mapWrites (projectileHit random b0) next w
                          else (next, w)
                      | None => (next, w)
                      end)).
  { destruct (boss r) as [b0 |]; [destruct (Boss.active b0) |]; cbn [snd];
      try exact H.
    apply mapWrites_invariant; [| exact H].
    intros p w0. apply projectileHit_bossIs. }
  destruct (match boss r with Some _ => _ | None => _ end) as [next' w1]. exact H1.
Qed.

Lemma stepProjectiles_no_boss (random : nat -> Q) (r w : World) :
  boss r = None -> boss (stepProjectiles random r w) = boss w.
Proof. intros H. unfold stepProjectiles. rewrite H. reflexivity. Qed.

Lemma stepChallenges_unchanged (r : World) (nextScore : Z) (w : World) (c : Cell) :
  inCells c [Cchallenges; CunlockedSkins] = false ->
  get c (stepChallenges r nextScore w) = get c w.
Proof. apply modifies_stepChallenges. Qed.

Lemma stepScore_cells (r w : World) :
  let spawn := (Z.rem (score w + 1) 1000 =? 0)%Z && negb (isSome (boss r)) in
  score (stepScore r w) = (score w + 1)%Z
  /\ boss (stepScore r w) = (if spawn then Some (newBoss r) else boss w)
  /\ obstacles (stepScore r w) = (if spawn then [] else obstacles w).
Proof.
  intros spawn. unfold stepScore. cbv zeta. fold spawn. split; [reflexivity |].
  cbn [boss obstacles setScore].
  rewrite (stepChallenges_unchanged r _ _ Cboss eq_refl).
  rewrite (stepChallenges_unchanged r _ _ Cobstacles eq_refl). cbn [get].
  destruct spawn; split; reflexivity.
Qed.

(** The world in which the score function runs inside [advance] agrees
    with the rendered one on the score, the boss, the challenges and the
    unlocked skins. *)
Lemma settleWorld_score_stage (random : nat -> Q) (sin : Q -> Q) (r : World)
  (time deltaTime currentSpeed : Q) (newProjectile : option Projectile.t)
  (spawnedObstacle : option Obstacle.t) (spawnedPowerUp : option PowerUp.t) (w : World) :
  exists w4 : World,
    unchanged (CpowerUps :: Cobstacles :: deathCells) w w4
    /\ unchanged tailCells (stepScore r w4)
         (settleWorld random sin r time deltaTime currentSpeed newProjectile
            spawnedObstacle spawnedPowerUp w)
    /\ (boss r = None ->
        boss (settleWorld random sin r time deltaTime currentSpeed newProjectile
                spawnedObstacle spawnedPowerUp w) = boss (stepScore r w4)
        /\ obstacles (settleWorld random sin r time deltaTime currentSpeed newProjectile
                        spawnedObstacle spawnedPowerUp w) = obstacles (stepScore r w4))
    /\ (forall b, bossIs b (stepScore r w4) ->
          bossIs b (settleWorld random sin r time deltaTime currentSpeed newProjectile
                      spawnedObstacle spawnedPowerUp w)).
Proof.
  settle_stages. exists w4. split; [| split; [| split]].
  - apply unchanged_trans with (w2 := w3); [| cells].
    apply unchanged_trans with (w2 := w2).
    2: { apply unchanged_weaken with (cs := CpowerUps :: pickupCells);
           [reflexivity | apply modifies_stepPowerUps]. }
    apply unchanged_trans with (w2 := w1); [| cells].
    apply unchanged_weaken with (cs := Cobstacles :: deathCells);
      [reflexivity | apply modifies_stepObstacles].
  - apply unchanged_trans with (w2 := w7); [| cells].
    apply unchanged_trans with (w2 := w6).
    2: { apply unchanged_weaken with (cs := projectileCells);
           [reflexivity | apply modifies_stepProjectiles]. }
    subst w6. destruct (boss r) as [b |]; [destruct (Boss.active b) |];
      try apply unchanged_refl.
    apply unchanged_weaken with (cs := bossCells);
      [reflexivity | apply modifies_stepBoss].
  - intros Hb. cbn [boss obstacles setProjectiles]. subst w7 w6. rewrite Hb. split.
    + apply stepProjectiles_no_boss. exact Hb.
    + apply (modifies_stepProjectiles random r w5 Cobstacles eq_refl).
  - intros b Hb. change (bossIs b w7). subst w7. apply stepProjectiles_bossIs.
    subst w6. destruct (boss r) as [b0 |]; [destruct (Boss.active b0) |];
      try exact Hb.
    apply stepBoss_bossIs. exact Hb.
Qed.

(** The same for the whole of [advance]. *)
Lemma advance_score_stage (random : nat -> Q) (sin : Q -> Q) (r : World) (time last : Q) :
  exists w4 : World,
    score w4 = score r /\ boss w4 = boss r /\ challenges w4 = challenges r
    /\ unlockedSkins w4 = unlockedSkins r
    /\ unchanged tailCells (stepScore r w4) (advance random sin r time last)
    /\ (boss r = None ->
        boss (advance random sin r time last) = boss (stepScore r w4)
        /\ obstacles (advance random sin r time last) = obstacles (stepScore r w4))
    /\ (forall b, bossIs b (stepScore r w4) ->
          bossIs b (advance random sin r time last)).
Proof.
  destruct (advance_stages random sin r time last) as (w & a & b & c & -> & Hw & _ & _).
  destruct (settleWorld_score_stage random sin r time ((time - last) / 16)
              (currentSpeedOf r) a b c (stepPlayerY random r ((time - last) / 16) w))
    as (w4 & H4 & Htail & Hnone & Hsome).
  exists w4.
  assert (H : unchanged (CplayerY :: CpowerUps :: Cobstacles :: deathCells ++ earlyCells)
                r w4).
  { apply unchanged_trans with (w2 := stepPlayerY random r ((time - last) / 16) w).
    - apply unchanged_trans with (w2 := w).
      + apply unchanged_weaken with (cs := earlyCells); [reflexivity | exact Hw].
      + apply unchanged_weaken with (cs := CplayerY :: deathCells);
          [reflexivity | apply modifies_stepPlayerY].
    - apply unchanged_weaken with (cs := CpowerUps :: Cobstacles :: deathCells);
        [reflexivity | exact H4]. }
  split; [apply (H Cscore eq_refl) |]. split; [apply (H Cboss eq_refl) |].
  split; [apply (H Cchallenges eq_refl) |]. split; [apply (H CunlockedSkins eq_refl) |].
  split; [exact Htail |]. split; [exact Hnone | exact Hsome].
Qed.

(** C7. In an update the score grows by one, so each multiple of 1000 is
    reached by one update. When that update runs without a boss, a boss is
    created with health = maxHealth = 100 and active, and the obstacle pool
    is empty at the end of the update. Without a boss and off a threshold
    no boss appears. With a boss, [spawnBoss] is not called: the boss cell
    holds the same boss, moved or damaged, or nothing once it is defeated.
    The cell holds one boss at most. *)
Theorem C7_boss_spawns_once_per_threshold (random : nat -> Q) (sin : Q -> Q)
  (time last : Q) (r : World) :
  gameState r = PLAYING ->
  lastTimeRef r = Some last ->
  let w' := update random sin time r in
  score w' = (score r + 1)%Z
  /\ (boss r = None -> Z.rem (score r + 1) 1000 = 0%Z ->
      boss w' = Some (newBoss r)
      /\ Boss.health (newBoss r) = 100 /\ Boss.maxHealth (newBoss r) = 100
      /\ Boss.active (newBoss r) = true
      /\ obstacles w' = [])
  /\ (boss r = None -> Z.rem (score r + 1) 1000 <> 0%Z -> boss w' = None)
  /\ (forall b : Boss.t,
        boss r = Some b ->
        (forall w : World,
            stepScore r w
            = setScore (score w + 1) (stepChallenges r (score w + 1)%Z w))
        /\ (boss w' = None \/ exists b', boss w' = Some b' /\ sameBoss b b')).
Proof.
  intros Hg Hl w'. subst w'.
  rewrite (update_playing random sin time last r Hg Hl).
  cbn [score boss obstacles setLastTimeRef].
  destruct (advance_score_stage random sin r time last)
    as (w4 & Es & Eb & _ & _ & Htail & Hnone & Hsome).
  destruct (stepScore_cells r w4) as (Hs & Hb & Ho). rewrite Es, Eb in *.
  split; [| split; [| split]].
  - pose proof (Htail Cscore eq_refl) as E. cbn [get] in E. rewrite E. exact Hs.
  - intros Hn Hrem. destruct (Hnone Hn) as [Eboss Eobs].
    rewrite Eboss, Eobs, Hb, Ho, Hn, Hrem. repeat split.
  - intros Hn Hrem. destruct (Hnone Hn) as [Eboss _]. rewrite Eboss, Hb, Hn.
    apply Z.eqb_neq in Hrem. rewrite Hrem. reflexivity.
  - intros b Hsb. split.
    + intros w. unfold stepScore. rewrite Hsb. cbn [isSome negb].
      rewrite andb_false_r. reflexivity.
    + apply (Hsome b). right. exists b. split; [| apply sameBoss_refl].
      rewrite Hb, Hsb. cbn [isSome negb]. rewrite andb_false_r. reflexivity.
Qed.

Lemma C7_witness :
  gameState thresholdWorld = PLAYING
  /\ lastTimeRef thresholdWorld = Some 0
  /\ boss thresholdWorld = None
  /\ score thresholdWorld = 999%Z
  /\ obstacles thresholdWorld <> []
  /\ score (update halfDraws flatSin 16 thresholdWorld) = 1000%Z
  /\ boss (update halfDraws flatSin 16 thresholdWorld) = Some (newBoss thresholdWorld)
  /\ obstacles (update halfDraws flatSin 16 thresholdWorld) = [].
Proof.
  destruct (C7_boss_spawns_once_per_threshold halfDraws flatSin 16 0 thresholdWorld
              eq_refl eq_refl) as (Hs & Hspawn & _).
  destruct (Hspawn eq_refl eq_refl) as (Hb & _ & _ & _ & Ho).
  split; [reflexivity |]. split; [reflexivity |]. split; [reflexivity |].
  split; [reflexivity |]. split; [discriminate |].
  split; [exact Hs |]. split; [exact Hb | exact Ho].
Defined.

(** ** Challenges and skins *)

Lemma setOrder_elem (seen l : list string) (x : string) :
  x ∈ setOrder seen l <-> x ∈ l /\ x ∉ seen.
Proof.
  revert seen. induction l as [| s l IH]; intros seen; cbn.
  - split; [intros H; inversion H | intros [H _]; inversion H].
  - destruct (bool_decide (s ∈ seen)) eqn:E.
    + apply bool_decide_eq_true in E. rewrite IH, elem_of_cons. split.
      * intros [H1 H2]. split; [right; exact H1 | exact H2].
      * intros [[-> | H1] H2]; [contradiction | split; assumption].
    + apply bool_decide_eq_false in E. rewrite !elem_of_cons, IH, elem_of_cons. split.
      * intros [-> | [H1 H2]]; [split; [left; reflexivity | exact E] |].
        split; [right; exact H1 | intros H; apply H2; right; exact H].
      * intros [[-> | H1] H2]; [left; reflexivity |].
        destruct (decide (x = s)) as [-> | Hne]; [left; reflexivity |].
        right. split; [exact H1 |]. intros [-> | H]; [apply Hne; reflexivity | contradiction].
Qed.

Lemma setOrder_NoDup (seen l : list string) : NoDup (setOrder seen l).
Proof.
  revert seen. induction l as [| s l IH]; intros seen; cbn; [constructor |].
  destruct (bool_decide (s ∈ seen)); [apply IH |].
  constructor; [| apply IH].
  rewrite setOrder_elem. intros [_ H]. apply H. left.
Qed.

Lemma uniq_elem (l : list string) (x : string) : x ∈ uniq l <-> x ∈ l.
Proof.
  unfold uniq. rewrite setOrder_elem. split; [intros [H _]; exact H |].
  intros H. split; [exact H | intros H0; inversion H0].
Qed.

Lemma uniq_NoDup (l : list string) : NoDup (uniq l).
Proof. apply setOrder_NoDup. Qed.

Lemma mapWrites_rel {A B : Type} (R : World -> World -> Prop)
  (f : A -> World -> B * World) (l : list A) :
  (forall w, R w w) ->
  (forall w1 w2 w3, R w1 w2 -> R w2 w3 -> R w1 w3) ->
  (forall a w, R w (snd (f a w))) ->
  forall w, R w (snd (mapWrites f l w)).
Proof.
  intros Hrefl Htrans Hf. induction l as [| a l IH]; intros w; cbn; [apply Hrefl |].
  pose proof (Hf a w) as Ha. destruct (f a w) as [b w1]. cbn [snd] in Ha.
  pose proof (IH w1) as Hl. destruct (mapWrites f l w1) as [bs w2]. cbn [snd] in *.
  eapply Htrans; eassumption.
Qed.

Lemma skinsGrow_refl (w : World) : skinsGrow w w.
Proof. split; auto. Qed.

Lemma skinsGrow_trans (w1 w2 w3 : World) :
  skinsGrow w1 w2 -> skinsGrow w2 w3 -> skinsGrow w1 w3.
Proof. intros [A1 B1] [A2 B2]. split; auto. Qed.

Lemma skinsGrow_same (w w' : World) : unlockedSkins w' = unlockedSkins w -> skinsGrow w w'.
Proof. intros E. unfold skinsGrow. rewrite E. split; auto. Qed.

Lemma skinsGrow_updateChallenge (r : World) (nextScore : Z) (c : Challenge.t) (w : World) :
  skinsGrow w (snd (updateChallenge r nextScore c w)).
Proof.
  unfold updateChallenge.
  destruct (negb (Challenge.completed c) && negb (isPhoenixMode r));
    [| apply skinsGrow_refl].
  cbv zeta. destruct (Qle_bool _ _); [| apply skinsGrow_refl].
  cbn [snd]. split; cbn.
  - intros s Hs. apply uniq_elem, elem_of_app. left. exact Hs.
  - intros _. apply uniq_NoDup.
Qed.

Lemma updateChallenge_fst (r : World) (nextScore : Z) (c : Challenge.t) (w w0 : World) :
  fst (updateChallenge r nextScore c w) = fst (updateChallenge r nextScore c w0).
Proof. unfold updateChallenge. decide_tests; reflexivity. Qed.

Lemma mapWrites_updateChallenge_fst (r : World) (nextScore : Z) (l : list Challenge.t)
  (w w0 : World) :
  fst (mapWrites (updateChallenge r nextScore) l w)
  = map (fun c => fst (updateChallenge r nextScore c w0)) l.
Proof.
  revert w. induction l as [| c l IH]; intros w; cbn; [reflexivity |].
  rewrite (updateChallenge_fst r nextScore c w0 w).
  destruct (updateChallenge r nextScore c w) as [c' w1]. specialize (IH w1).
  destruct (mapWrites (updateChallenge r nextScore) l w1) as [cs w2]. cbn in *.
  f_equal. exact IH.
Qed.

Lemma mapWrites_updateChallenge_unlocks (r : World) (nextScore : Z)
  (l : list Challenge.t) (c : Challenge.t) (w : World) :
  In c l ->
  negb (Challenge.completed c) && negb (isPhoenixMode r) = true ->
  Qle_bool (Challenge.target c) (inject_Z nextScore / 10) = true ->
  Challenge.rewardSkin c ∈ unlockedSkins (snd (mapWrites (updateChallenge r nextScore) l w)).
Proof.
  revert w. induction l as [| c0 l IH]; intros w Hin Hopen Hdone; [destruct Hin |].
  cbn. destruct Hin as [-> | Hin].
  - pose proof (mapWrites_rel skinsGrow (updateChallenge r nextScore) l skinsGrow_refl
                  skinsGrow_trans (skinsGrow_updateChallenge r nextScore)
                  (snd (updateChallenge r nextScore c w))) as [Hg _].
    assert (Hc : Challenge.rewardSkin c
                   ∈ unlockedSkins (snd (updateChallenge r nextScore c w))).
    { unfold updateChallenge. rewrite Hopen. cbv zeta. rewrite Hdone. cbn.
      apply uniq_elem, elem_of_app. right. left. }
    destruct (updateChallenge r nextScore c w) as [c' w1]. cbn [snd] in *.
    destruct (mapWrites (updateChallenge r nextScore) l w1) as [cs w2]. cbn [snd] in *.
    apply Hg. exact Hc.
  - destruct (updateChallenge r nextScore c0 w) as [c' w1].
    specialize (IH w1 Hin Hopen Hdone).
    destruct (mapWrites (updateChallenge r nextScore) l w1) as [cs w2]. exact IH.
Qed.

(** The challenge and skin cells after the score function. *)
Lemma stepScore_challenges (r w : World) :
  challenges (stepScore r w)
  = map (fun c => fst (updateChallenge r (score w + 1) c w)) (challenges w)
  /\ skinsGrow w (stepScore r w)
  /\ (forall c,
        In c (challenges w) ->
        negb (Challenge.completed c) && negb (isPhoenixMode r) = true ->
        Qle_bool (Challenge.target c) (inject_Z (score w + 1) / 10) = true ->
        Challenge.rewardSkin c ∈ unlockedSkins (stepScore r w)).
Proof.
  unfold stepScore. cbv zeta.
  set (w1 := if (_ && _)%bool then spawnBoss r w else w).
  assert (Ec : challenges w1 = challenges w) by (subst w1; destruct (_ && _)%bool; reflexivity).
  assert (Es : unlockedSkins w1 = unlockedSkins w)
    by (subst w1; destruct (_ && _)%bool; reflexivity).
  cbn [challenges unlockedSkins setScore]. unfold stepChallenges.
  pose proof (mapWrites_updateChallenge_fst r (score w + 1) (challenges w1) w1 w) as Hf.
  pose proof (mapWrites_rel skinsGrow (updateChallenge r (score w + 1)) (challenges w1)
                skinsGrow_refl skinsGrow_trans
                (skinsGrow_updateChallenge r (score w + 1)) w1) as Hg.
  pose proof (fun c => mapWrites_updateChallenge_unlocks r (score w + 1) (challenges w1)
                         c w1) as Hu.
  destruct (mapWrites (updateChallenge r (score w + 1)) (challenges w1) w1) as [next w2].
  cbn [fst snd] in *. unfold skinsGrow in *. cbn [challenges unlockedSkins setChallenges setScore].
  rewrite Ec in *. rewrite Es in *.
  split; [exact Hf |]. split; [exact Hg | exact Hu].
Qed.

Lemma advance_challenges (random : nat -> Q) (sin : Q -> Q) (r : World) (time last : Q) :
  challenges (advance random sin r time last)
  = map (fun c => fst (updateChallenge r (score r + 1) c r)) (challenges r)
  /\ skinsGrow r (advance random sin r time last)
  /\ (forall c,
        In c (challenges r) ->
        negb (Challenge.completed c) && negb (isPhoenixMode r) = true ->
        Qle_bool (Challenge.target c) (inject_Z (score r + 1) / 10) = true ->
        Challenge.rewardSkin c ∈ unlockedSkins (advance random sin r time last)).
Proof.
  destruct (advance_score_stage random sin r time last)
    as (w4 & Es & _ & Ec & Eu & Htail & _ & _).
  destruct (stepScore_challenges r w4) as (Hc & Hg & Hu).
  pose proof (Htail Cchallenges eq_refl) as E1.
  pose proof (Htail CunlockedSkins eq_refl) as E2. cbn [get] in E1, E2.
  unfold skinsGrow in *. rewrite E1, E2. rewrite Es, Ec, Eu in *.
  split; [| split; [exact Hg | exact Hu]].
  rewrite Hc. apply map_ext. intros c. apply updateChallenge_fst.
Qed.

Lemma react_input_unchanged (random : nat -> Q) (sin : Q -> Q) (e : Event) (w : World) :
  (forall time, e <> Frame time) -> unchanged inputCells w (react random sin e w).
Proof.
  intros Hne. destruct e; cbn [react].
  - exfalso. apply (Hne time). reflexivity.
  - unfold handleJump, startGame. destruct (gameState w); cells.
  - unfold handleJump, startGame, listenerRender. cbn [gameState setDimensions].
    destruct (gameState w); cells.
  - destruct (gameState w); cells.
  - destruct (gameState w); cells.
  - unfold startGame. destruct (gameState w); cells.
  - destruct (gameState w); cells.
  - destruct (gameState w); try apply unchanged_refl.
    destruct (bool_decide _); cells.
  - destruct (timers w !! index) as [t |]; [| apply unchanged_refl].
    destruct (callback t); unfold runTimer, setTimeout; cells.
  - cells.
Qed.

Lemma step_input_unchanged (random : nat -> Q) (sin : Q -> Q) (e : Event) (w : World) :
  (forall time, e <> Frame time) -> unchanged inputCells w (step random sin e w).
Proof.
  intros Hne.
  apply unchanged_trans with (w2 := react random sin e w);
    [apply react_input_unchanged; exact Hne |].
  apply unchanged_weaken with (cs := [ClistenerDimensions]);
    [reflexivity | apply step_unchanged].
Qed.

Lemma update_cases (random : nat -> Q) (sin : Q -> Q) (time : Q) (w : World) :
  (exists last,
      gameState w = PLAYING /\ lastTimeRef w = Some last
      /\ update random sin time w
         = setLastTimeRef (Some time) (advance random sin w time last))
  \/ unchanged [ClastTimeRef] w (update random sin time w).
Proof.
  unfold update. destruct (gameState w); cbn [GameState_eqb negb];
    try (right; apply unchanged_refl).
  destruct (lastTimeRef w) as [last |].
  - left. exists last. repeat split.
  - right. cells.
Qed.

Lemma updateChallenge_completed (r : World) (nextScore : Z) (c : Challenge.t) (w : World) :
  Challenge.completed c = true -> fst (updateChallenge r nextScore c w) = c.
Proof. intros H. unfold updateChallenge. rewrite H. reflexivity. Qed.

Lemma step_challenges (random : nat -> Q) (sin : Q -> Q) (e : Event) (w : World) :
  (forall i c,
      challenges w !! i = Some c -> Challenge.completed c = true ->
      challenges (step random sin e w) !! i = Some c)
  /\ skinsGrow w (step random sin e w).
Proof.
  assert (Hsame : forall w', challenges w' = challenges w ->
                    unlockedSkins w' = unlockedSkins w ->
                    (forall i c, challenges w !! i = Some c ->
                       Challenge.completed c = true -> challenges w' !! i = Some c)
                    /\ skinsGrow w w').
  { intros w' Ec Eu. split; [intros i c Hi _; rewrite Ec; exact Hi |].
    apply skinsGrow_same. exact Eu. }
  destruct e as [time | | | | | | | skin | index | iw ih].
  1: { pose proof (step_unchanged random sin (Frame time) w Cchallenges eq_refl) as Ec0.
       pose proof (step_unchanged random sin (Frame time) w CunlockedSkins eq_refl) as Eu0.
       cbn [get react] in Ec0, Eu0. unfold skinsGrow. rewrite Ec0, Eu0.
       fold (skinsGrow w (update random sin time w)).
       destruct (update_cases random sin time w) as [(last & _ & _ & ->) | Hu].
       - destruct (advance_challenges random sin w time last) as (Hc & Hg & _).
         split; [| exact Hg].
         intros i c Hi Hdone. cbn [challenges setLastTimeRef]. rewrite Hc.
         rewrite list_lookup_fmap, Hi. cbn.
         rewrite updateChallenge_completed; [reflexivity | exact Hdone].
       - apply Hsame; [apply (Hu Cchallenges eq_refl) | apply (Hu CunlockedSkins eq_refl)]. }
  all: match goal with
       | |- context [step _ _ ?e _] =>
           assert (Hu : unchanged inputCells w (step random sin e w))
             by (apply step_input_unchanged; intros t; discriminate)
       end;
       apply Hsame; [apply (Hu Cchallenges eq_refl) | apply (Hu CunlockedSkins eq_refl)].
Qed.

(** C8. Along any sequence of events a completed challenge keeps its record
    (flag and progress included), the unlocked skins are kept, and stay free
    of duplicates. In an update, a challenge that is not completed, outside
    phoenix mode, gets the progress (score + 1) / 10, or, when this reaches
    the target, the target as progress, the completed flag, and its reward
    among the unlocked skins; a completed challenge, and any challenge in
    phoenix mode, is left as it is. *)
Theorem C8_challenges_and_skins_are_monotone (random : nat -> Q) (sin : Q -> Q) :
  (forall (es : list Event) (w : World),
      (forall i c,
          challenges w !! i = Some c -> Challenge.completed c = true ->
          challenges (run random sin es w) !! i = Some c)
      /\ (forall s, s ∈ unlockedSkins w -> s ∈ unlockedSkins (run random sin es w))
      /\ (NoDup (unlockedSkins w) -> NoDup (unlockedSkins (run random sin es w))))
  /\ (forall (time last : Q) (r : World) (i : nat) (c : Challenge.t),
        gameState r = PLAYING ->
        lastTimeRef r = Some last ->
        challenges r !! i = Some c ->
        let w' := update random sin time r in
        let nextProgress := inject_Z (score r + 1) / 10 in
        if negb (Challenge.completed c) && negb (isPhoenixMode r) then
          exists c',
            challenges w' !! i = Some c'
            /\ Challenge.id c' = Challenge.id c
            /\ Challenge.target c' = Challenge.target c
            /\ Challenge.rewardSkin c' = Challenge.rewardSkin c
            /\ (if Qle_bool (Challenge.target c) nextProgress then
                  Challenge.progress c' = Challenge.target c
                  /\ Challenge.completed c' = true
                  /\ Challenge.rewardSkin c ∈ unlockedSkins w'
                else
                  Challenge.progress c' = nextProgress
                  /\ Challenge.completed c' = false)
        else challenges w' !! i = Some c).
Proof.
  split.
  - intros es. unfold run. induction es as [| e es IH]; intros w; cbn.
    + repeat split; auto.
    + destruct (step_challenges random sin e w) as (Hc & Hg1 & Hg2).
      destruct (IH (step random sin e w)) as (Ic & Ig1 & Ig2).
      split; [| split]; auto.
  - intros time last r i c Hg Hl Hi w' nextProgress. subst w'.
    rewrite (update_playing random sin time last r Hg Hl).
    cbn [challenges unlockedSkins setLastTimeRef].
    destruct (advance_challenges random sin r time last) as (Hc & _ & Hu).
    rewrite Hc, list_lookup_fmap, Hi. cbn [fmap option_fmap option_map].
    unfold updateChallenge. fold nextProgress.
    destruct (negb (Challenge.completed c) && negb (isPhoenixMode r)) eqn:Hopen;
      [| reflexivity].
    cbv zeta. fold nextProgress.
    destruct (Qle_bool (Challenge.target c) nextProgress) eqn:Hdone; cbn [fst].
    + eexists. split; [reflexivity |]. repeat split.
      apply (Hu c); [| exact Hopen | exact Hdone].
      apply list_elem_of_In. apply list_elem_of_lookup. exists i. exact Hi.
    + eexists. split; [reflexivity |]. repeat split.
      apply andb_prop in Hopen. destruct Hopen as [H _].
      apply negb_true_iff in H. exact H.
Qed.

(** ** Modifier durations *)

Lemma advance_modifiers (random : nat -> Q) (sin : Q -> Q) (r : World) (time last : Q) :
  modifiersKept r (activePowerUps r) (activePowerUps (advance random sin r time last)).
Proof.
  destruct (advance_stages random sin r time last) as (w & a & b & c & -> & Hw & _ & _).
  pose proof (Hw CactivePowerUps eq_refl) as E. cbn [get] in E. rewrite <- E.
  apply modifiersKept_trans
    with (m2 := activePowerUps (stepPlayerY random r ((time - last) / 16) w)).
  - apply Later_stepPlayerY.
  - apply Later_settleWorld.
Qed.

Lemma step_modifiers (random : nat -> Q) (sin : Q -> Q) (e : Event) (w : World) :
  restarts e w = false ->
  modifiersKept w (activePowerUps w) (activePowerUps (step random sin e w)).
Proof.
  intros Hcalm. to_react.
  assert (Hsame : forall w', activePowerUps w' = activePowerUps w ->
                    modifiersKept w (activePowerUps w) (activePowerUps w')).
  { intros w' ->. apply modifiersKept_refl. }
  destruct e as [time | | | | | | | skin | index | iw ih]; cbn [react].
  - destruct (update_cases random sin time w) as [(last & _ & _ & ->) | Hu].
    + apply advance_modifiers.
    + apply Hsame. apply (Hu CactivePowerUps eq_refl).
  - unfold handleJump. unfold restarts in Hcalm.
    destruct (gameState w); try discriminate Hcalm; apply Hsame; reflexivity.
  - unfold handleJump, listenerRender. cbn [gameState setDimensions].
    unfold restarts in Hcalm.
    destruct (gameState w); try discriminate Hcalm; apply Hsame; reflexivity.
  - destruct (gameState w); apply Hsame; reflexivity.
  - destruct (gameState w); apply Hsame; reflexivity.
  - unfold restarts in Hcalm.
    destruct (gameState w); try discriminate Hcalm; apply Hsame; reflexivity.
  - destruct (gameState w); apply Hsame; reflexivity.
  - destruct (gameState w); try (apply Hsame; reflexivity).
    destruct (bool_decide _); apply Hsame; reflexivity.
  - destruct (timers w !! index) as [t |]; [| apply Hsame; reflexivity].
    destruct (callback t); apply Hsame; reflexivity.
  - apply Hsame. reflexivity.
Qed.

Lemma step_restarts (random : nat -> Q) (sin : Q -> Q) (e : Event) (w : World) :
  restarts e w = true ->
  step random sin e w = rebind w (startGame (handlerRender e w) w).
Proof.
  unfold restarts, step. intros H. f_equal.
  destruct e; try discriminate H; cbn [react handlerRender];
    unfold handleJump, listenerRender; cbn [gameState setDimensions];
    destruct (gameState w); try discriminate H; reflexivity.
Qed.

Lemma step_restarts_modifiers (random : nat -> Q) (sin : Q -> Q) (e : Event) (w : World) :
  restarts e w = true -> activePowerUps (step random sin e w) = ∅.
Proof.
  intros H. to_react. unfold restarts in H.
  destruct e; try discriminate H; cbn [react];
    unfold handleJump, listenerRender; cbn [gameState setDimensions];
    destruct (gameState w); try discriminate H; reflexivity.
Qed.

(** C9. A pickup sets its entry to 10000. An event that is not a restart
    leaves every entry of the modifier record with its value or sets it to
    10000, except that the shield entry may be removed, and only when the
    rendered record held a shield (the removal of [handleDeath]); a restart
    empties the record. So an entry other than the shield, once present,
    holds its value or 10000 for as long as [startGame] is not called. *)
Theorem C9_modifiers_never_decay (random : nat -> Q) (sin : Q -> Q) :
  (forall (r : World) (p : PowerUp.t) (w : World),
      hitsPlayer r (PowerUp.x p) (PowerUp.y p) (PowerUp.width p) (PowerUp.height p)
      = true ->
      activePowerUps (powerUpHit random r p w)
      = <[keyOf (PowerUp.type p) := 10000]> (activePowerUps w))
  /\ (forall (e : Event) (w : World),
        restarts e w = false ->
        modifiersKept w (activePowerUps w) (activePowerUps (step random sin e w)))
  /\ (forall (e : Event) (w : World),
        restarts e w = true ->
        step random sin e w = rebind w (startGame (handlerRender e w) w)
        /\ activePowerUps (step random sin e w) = ∅)
  /\ (forall (es : list Event) (w : World) (k : string) (v : Q),
        calm random sin es w = true ->
        k <> "SHIELD"%string ->
        activePowerUps w !! k = Some v ->
        activePowerUps (run random sin es w) !! k = Some v
        \/ activePowerUps (run random sin es w) !! k = Some 10000).
Proof.
  split; [| split; [| split]].
  - intros r p w Hhit. unfold powerUpHit. rewrite Hhit. reflexivity.
  - intros e w. apply step_modifiers.
  - intros e w H. split; [apply step_restarts | apply step_restarts_modifiers]; exact H.
  - intros es. unfold run.
    induction es as [| e es IH]; intros w k v Hcalm Hk Hv; cbn; [left; exact Hv |].
    cbn in Hcalm. apply andb_prop in Hcalm. destruct Hcalm as [He Hes].
    apply negb_true_iff in He.
    destruct (step_modifiers random sin e w He k) as [E | [E | (E & _)]];
      [| | contradiction].
    + rewrite Hv in E. apply (IH _ k v Hes Hk E).
    + destruct (IH _ k 10000 Hes Hk E) as [H | H]; right; exact H.
Qed.

(** ** Invariants of an update *)

Lemma forEach_invariant {A : Type} (P : World -> Prop) (f : A -> World -> World)
  (l : list A) :
  (forall a w, P w -> P (f a w)) -> forall w, P w -> P (forEach f l w).
Proof.
  intros Hf. unfold forEach. induction l as [| a l IH]; intros w Hw; cbn; [exact Hw |].
  apply IH. apply Hf. exact Hw.
Qed.

Section UpdateInvariant.

Variable random : nat -> Q.
Variable sin : Q -> Q.
Variable r : World.

(** A property of the pending world that looks at no cell of [plainCells]
    and that [handleDeath] keeps. *)
Variable P : World -> Prop.
Hypothesis P_plain : forall w w', unchanged plainCells w w' -> P w -> P w'.
Hypothesis P_death : forall w, P w -> P (handleDeath random r w).

Lemma invariant_modifies (cs : list Cell) (f : World -> World) :
  forallb (fun c => inCells c plainCells) cs = true ->
  modifies cs f -> forall w, P w -> P (f w).
Proof.
  intros Hcs Hf w. apply P_plain. apply unchanged_weaken with (cs := cs); [exact Hcs |].
  apply Hf.
Qed.

Lemma invariant_stepPlayerY (deltaTime : Q) (w : World) :
  P w -> P (stepPlayerY random r deltaTime w).
Proof.
  intros Hw. unfold stepPlayerY. destruct (outOfBounds _ _); [apply P_death; exact Hw |].
  revert Hw. apply P_plain. cells.
Qed.

Lemma invariant_stepObstacles (currentSpeed deltaTime : Q) (w : World) :
  P w -> P (stepObstacles random r currentSpeed deltaTime w).
Proof.
  intros Hw. unfold stepObstacles. set (next := advanceObstacles _ _ _).
  assert (H : P (forEach (obstacleHit random r) next w)).
  { apply forEach_invariant; [| exact Hw]. intros o w0 H0. unfold obstacleHit.
    destruct (hitsPlayer _ _ _ _ _); [| exact H0].
    destruct (truthy (activePowerUps r !! "FIRE_WINGS")).
    - revert H0. apply (invariant_modifies [Cparticles; CrandomCalls]);
        [reflexivity | apply modifies_createExplosion].
    - destruct (negb _); [apply P_death |]; exact H0. }
  revert H. apply P_plain. cells.
Qed.

Lemma invariant_settleWorld (time deltaTime currentSpeed : Q)
  (newProjectile : option Projectile.t) (spawnedObstacle : option Obstacle.t)
  (spawnedPowerUp : option PowerUp.t) (w : World) :
  P w ->
  P (settleWorld random sin r time deltaTime currentSpeed newProjectile spawnedObstacle
       spawnedPowerUp w).
Proof.
  intros Hw.
  pose proof (invariant_stepObstacles currentSpeed deltaTime w Hw) as H1.
  revert H1. apply P_plain.
  apply unchanged_weaken with (cs := quietCells); [reflexivity |].
  apply settleWorld_after_obstacles.
Qed.

Lemma invariant_advance (time last : Q) : P r -> P (advance random sin r time last).
Proof.
  intros Hr.
  destruct (advance_stages random sin r time last) as (w & a & b & c & -> & Hw & _ & _).
  apply invariant_settleWorld, invariant_stepPlayerY.
  revert Hr. apply P_plain.
  apply unchanged_weaken with (cs := earlyCells); [reflexivity | exact Hw].
Qed.

Lemma invariant_update (time : Q) : P r -> P (update random sin time r).
Proof.
  intros Hr. destruct (update_cases random sin time r) as [(last & _ & _ & ->) | Hu].
  - pose proof (invariant_advance time last Hr) as H. revert H. apply P_plain. cells.
  - revert Hr. apply P_plain.
    apply unchanged_weaken with (cs := [ClastTimeRef]); [reflexivity | exact Hu].
Qed.

End UpdateInvariant.

(** ** Score *)

(** X1. An update adds exactly one to the score when the game is in
    PLAYING and the clock is seeded, whatever the elapsed time, and leaves
    the score alone otherwise; no event but a restart lowers the score. *)
Theorem score_counts_updates (random : nat -> Q) (sin : Q -> Q) :
  (forall (time : Q) (w : World),
      score (update random sin time w)
      = match gameState w, lastTimeRef w with
        | PLAYING, Some _ => (score w + 1)%Z
        | _, _ => score w
        end)
  /\ (forall (e : Event) (w : World),
        restarts e w = false -> (score w <= score (step random sin e w))%Z).
Proof.
  assert (Hupd : forall time w,
             score (update random sin time w)
             = match gameState w, lastTimeRef w with
               | PLAYING, Some _ => (score w + 1)%Z
               | _, _ => score w
               end).
  { intros time w. unfold update.
    destruct (gameState w); cbn [GameState_eqb negb]; try reflexivity.
    destruct (lastTimeRef w) as [last |]; [| reflexivity].
    cbn [score setLastTimeRef].
    destruct (advance_score_stage random sin w time last)
      as (w4 & Es & _ & _ & _ & Htail & _ & _).
    pose proof (Htail Cscore eq_refl) as E. cbn [get] in E. rewrite E.
    destruct (stepScore_cells w w4) as (Hs & _). rewrite Hs, Es. reflexivity. }
  split; [exact Hupd |].
  intros e w Hcalm. to_react.
  destruct e as [time | | | | | | | skin | index | iw ih]; cbn [react].
  - rewrite Hupd. destruct (gameState w); try lia. destruct (lastTimeRef w); lia.
  - unfold handleJump. unfold restarts in Hcalm.
    destruct (gameState w); try discriminate Hcalm; cbn; lia.
  - unfold handleJump, listenerRender. cbn [gameState setDimensions].
    unfold restarts in Hcalm.
    destruct (gameState w); try discriminate Hcalm; cbn; lia.
  - destruct (gameState w); cbn; lia.
  - destruct (gameState w); cbn; lia.
  - unfold restarts in Hcalm. destruct (gameState w); try discriminate Hcalm; cbn; lia.
  - destruct (gameState w); cbn; lia.
  - destruct (gameState w); cbn; try lia. destruct (bool_decide _); cbn; lia.
  - destruct (timers w !! index) as [t |]; [| lia]. destruct (callback t); cbn; lia.
  - cbn. lia.
Qed.

(** ** The game state and the best score *)

Lemma lifeOutcome_plain (r w w' : World) :
  unchanged plainCells w w' -> lifeOutcome r w -> lifeOutcome r w'.
Proof.
  intros H. unfold lifeOutcome.
  pose proof (H CgameState eq_refl) as Eg. pose proof (H ChighScore eq_refl) as Eh.
  cbn [get] in Eg, Eh. rewrite Eg, Eh. exact (fun x => x).
Qed.

Lemma lifeOutcome_death (random : nat -> Q) (r w : World) :
  lifeOutcome r w -> lifeOutcome r (handleDeath random r w).
Proof.
  unfold lifeOutcome, handleDeath, deathState.
  destruct (truthy (activePowerUps r !! "SHIELD")); [exact (fun x => x) |].
  intros H. right. split; [reflexivity |].
  destruct (truthy (activePowerUps r !! "PHOENIX") || negb (isPhoenixMode r)).
  - split; [reflexivity |]. cbn. destruct H as [[_ H] | (_ & _ & H)]; exact H.
  - assert (Hh : highScore w = highScore r
                 \/ highScore w = Z.max (score r) (highScore r)).
    { destruct H as [[_ H] | (_ & _ & H)]; [left | right]; exact H. }
    destruct (score r >? highScore r)%Z eqn:E; cbn; (split; [reflexivity |]).
    + apply Z.gtb_lt in E. lia.
    + assert (score r <= highScore r)%Z.
      { destruct (Z.gtb_spec (score r) (highScore r)); [discriminate E | assumption]. }
      lia.
Qed.

Lemma update_lifeOutcome (random : nat -> Q) (sin : Q -> Q) (time : Q) (r : World) :
  lifeOutcome r (update random sin time r).
Proof.
  apply (invariant_update random sin r (lifeOutcome r)).
  - intros w w'. apply lifeOutcome_plain.
  - apply lifeOutcome_death.
  - left. split; reflexivity.
Qed.

(** X2. The moves of the game state. An event leaves the state as it is or
    makes one of the moves of [lifeTransition]: an update leaves PLAYING
    only for PHOENIX_REVIVE or GAME_OVER, inputs make the moves their
    buttons show, a timer callback returns to PLAYING. *)
Theorem gameState_moves (random : nat -> Q) (sin : Q -> Q) (e : Event) (w : World) :
  gameState (step random sin e w) = gameState w
  \/ lifeTransition (gameState w) e (gameState (step random sin e w)).
Proof.
  to_react.
  destruct e as [time | | | | | | | skin | index | iw ih]; cbn [react lifeTransition].
  - destruct (update_lifeOutcome random sin time w) as [[H _] | (_ & H & _)];
      [left; exact H |].
    destruct (GameState_eqb (gameState w) PLAYING) eqn:Hg.
    + right. split; [destruct (gameState w); try discriminate Hg; reflexivity |].
      rewrite H. unfold deathState. destruct (_ || _); [left | right]; reflexivity.
    + left. unfold update. rewrite Hg. reflexivity.
  - unfold handleJump.
    destruct (gameState w) eqn:Hg; cbn; rewrite ?Hg;
      first [left; reflexivity | right; intuition congruence].
  - unfold handleJump, listenerRender. cbn [gameState setDimensions].
    destruct (gameState w) eqn:Hg; cbn; rewrite ?Hg;
      first [left; reflexivity | right; intuition congruence].
  - destruct (gameState w) eqn:Hg; cbn; rewrite ?Hg;
      first [left; reflexivity | right; intuition congruence].
  - destruct (gameState w) eqn:Hg; cbn; rewrite ?Hg;
      first [left; reflexivity | right; intuition congruence].
  - destruct (gameState w) eqn:Hg; cbn; rewrite ?Hg;
      first [left; reflexivity | right; intuition congruence].
  - destruct (gameState w) eqn:Hg; cbn; rewrite ?Hg;
      first [left; reflexivity | right; intuition congruence].
  - left. destruct (gameState w) eqn:Hg; rewrite ?Hg; try reflexivity.
    destruct (bool_decide _); cbn; rewrite ?Hg; reflexivity.
  - destruct (timers w !! index) as [t |]; [| left; reflexivity].
    destruct (callback t); cbn; first [left; reflexivity | right; reflexivity].
  - left. reflexivity.
Qed.

(** X4. The best score. An update keeps the best score unless it enters
    GAME_OVER, where the best score becomes the larger of the rendered
    score and itself; along any sequence of events the best score never
    decreases. *)
Theorem highScore_only_grows (random : nat -> Q) (sin : Q -> Q) :
  (forall (time : Q) (r : World),
      gameState r = PLAYING ->
      let w' := update random sin time r in
      (gameState w' = GAME_OVER /\ highScore w' = Z.max (score r) (highScore r))
      \/ (gameState w' <> GAME_OVER /\ highScore w' = highScore r))
  /\ (forall (es : list Event) (w : World),
        (highScore w <= highScore (run random sin es w))%Z).
Proof.
  split.
  - intros time r Hg w'. subst w'.
    destruct (update_lifeOutcome random sin time r) as [[Eg Eh] | (_ & Eg & Eh)].
    + right. rewrite Eg, Hg. split; [discriminate | exact Eh].
    + rewrite Eg. rewrite Eh. destruct (deathState r) eqn:Hd;
        try (right; split; [discriminate | reflexivity]).
      left. split; reflexivity.
  - intros es. unfold run. induction es as [| e es IH]; intros w; cbn; [lia |].
    etransitivity; [| apply IH]. to_react.
    destruct e as [time | | | | | | | skin | index | iw ih]; cbn [react].
    + destruct (update_lifeOutcome random sin time w) as [[_ Eh] | (_ & _ & Eh)];
        rewrite Eh; [lia |]. destruct (deathState w); lia.
    + unfold handleJump. destruct (gameState w); cbn; lia.
    + unfold handleJump, listenerRender. cbn [gameState setDimensions].
      destruct (gameState w); cbn; lia.
    + destruct (gameState w); cbn; lia.
    + destruct (gameState w); cbn; lia.
    + destruct (gameState w); cbn; lia.
    + destruct (gameState w); cbn; lia.
    + destruct (gameState w); cbn; try lia. destruct (bool_decide _); cbn; lia.
    + destruct (timers w !! index) as [t |]; [| lia]. destruct (callback t); cbn; lia.
    + cbn. lia.
Qed.

(** ** The shield *)

(** X3. With a shield in the rendered modifier record, every death an
    update resolves is absorbed, the second as well as the first, since
    each call reads the rendered record: the update changes neither the
    game state, nor the phoenix flag, nor the timers, nor the best score. *)
Theorem shield_absorbs_every_death (random : nat -> Q) (sin : Q -> Q) (time : Q)
  (r : World) :
  truthy (activePowerUps r !! "SHIELD") = true ->
  let w' := update random sin time r in
  gameState w' = gameState r
  /\ isPhoenixMode w' = isPhoenixMode r
  /\ timers w' = timers r
  /\ highScore w' = highScore r.
Proof.
  intros Hs.
  apply (invariant_update random sin r
           (fun w => gameState w = gameState r /\ isPhoenixMode w = isPhoenixMode r
                     /\ timers w = timers r /\ highScore w = highScore r)).
  - intros w w' H.
    pose proof (H CgameState eq_refl) as E1. pose proof (H CisPhoenixMode eq_refl) as E2.
    pose proof (H Ctimers eq_refl) as E3. pose proof (H ChighScore eq_refl) as E4.
    cbn [get] in *. rewrite E1, E2, E3, E4. exact (fun x => x).
  - intros w H. unfold handleDeath. rewrite Hs. exact H.
  - repeat split.
Qed.

Lemma shield_absorbs_every_death_witness :
  truthy (activePowerUps shieldedWorld !! "SHIELD") = true
  /\ gameState (update halfDraws flatSin 16 shieldedWorld) = PLAYING
  /\ timers (update halfDraws flatSin 16 shieldedWorld) = []
  /\ length (particles (update halfDraws flatSin 16 shieldedWorld)) = 30%nat
  /\ activePowerUps (update halfDraws flatSin 16 shieldedWorld) !! "SHIELD" = None.
Proof.
  destruct (shield_absorbs_every_death halfDraws flatSin 16 shieldedWorld eq_refl)
    as (Hg & _ & Ht & _).
  split; [reflexivity |]. split; [exact Hg |]. split; [exact Ht |].
  split; vm_compute; reflexivity.
Defined.

(** ** Timers *)

(** X5. Nothing cancels a timer: an event other than the firing of a timer
    leaves the pending timers in place and at most appends to them. A
    restart in particular keeps the timers armed in the run before. *)
Theorem timers_are_never_cancelled (random : nat -> Q) (sin : Q -> Q) (e : Event)
  (w : World) :
  (forall index, e <> TimerFires index) ->
  grows (timers w) (timers (step random sin e w)).
Proof.
  intros Hne.
  assert (Hsame : forall w', timers w' = timers w -> grows (timers w) (timers w')).
  { intros w' ->. apply grows_refl. }
  to_react.
  destruct e as [time | | | | | | | skin | index | iw ih]; cbn [react].
  - apply (invariant_update random sin w (fun w' => grows (timers w) (timers w'))).
    + intros w1 w2 H. pose proof (H Ctimers eq_refl) as E. cbn [get] in E.
      rewrite E. exact (fun x => x).
    + intros w1 H. eapply grows_trans; [exact H |]. apply Later_handleDeath.
    + apply grows_refl.
  - unfold handleJump. destruct (gameState w); apply Hsame; reflexivity.
  - unfold handleJump, listenerRender. cbn [gameState setDimensions].
    destruct (gameState w); apply Hsame; reflexivity.
  - destruct (gameState w); apply Hsame; reflexivity.
  - destruct (gameState w); apply Hsame; reflexivity.
  - destruct (gameState w); apply Hsame; reflexivity.
  - destruct (gameState w); apply Hsame; reflexivity.
  - destruct (gameState w); try (apply Hsame; reflexivity).
    destruct (bool_decide _); apply Hsame; reflexivity.
  - exfalso. apply (Hne index). reflexivity.
  - apply Hsame. reflexivity.
Qed.

Lemma timers_are_never_cancelled_witness :
  restarts StartClick staleTimerWorld = true
  /\ timers staleTimerWorld = [{| delay := 5000; callback := ClearPhoenix |}]
  /\ gameState (step halfDraws flatSin StartClick staleTimerWorld) = PLAYING
  /\ grows (timers staleTimerWorld)
       (timers (step halfDraws flatSin StartClick staleTimerWorld)).
Proof.
  split; [reflexivity |]. split; [reflexivity |]. split; [reflexivity |].
  apply (timers_are_never_cancelled halfDraws flatSin StartClick staleTimerWorld).
  intros index. discriminate.
Defined.

(** ** Values of the modifier record *)

Lemma truthy_10000 (o : option Q) :
  (forall v, o = Some v -> v = 10000) -> (truthy o = true <-> is_Some o).
Proof.
  intros H. destruct o as [v |]; cbn.
  - rewrite (H v eq_refl). split; [eauto | reflexivity].
  - split; [discriminate | intros [v Hv]; discriminate Hv].
Qed.

(** X6. Every entry of the modifier record was installed by a pickup: if
    all entries hold 10000, they still do after any sequence of events, so
    the test [activePowerUps[key]] of the source succeeds exactly when the
    key is present. *)
Theorem modifier_entries_are_installed (random : nat -> Q) (sin : Q -> Q)
  (es : list Event) (w : World) :
  installedOnly (activePowerUps w) ->
  installedOnly (activePowerUps (run random sin es w))
  /\ (forall k : string,
        truthy (activePowerUps (run random sin es w) !! k) = true
        <-> is_Some (activePowerUps (run random sin es w) !! k)).
Proof.
  intros Hw.
  assert (H : installedOnly (activePowerUps (run random sin es w))).
  { revert w Hw. unfold run. induction es as [| e es IH]; intros w Hw; [exact Hw |].
    cbn. apply IH. destruct (restarts e w) eqn:He.
    - rewrite (step_restarts_modifiers random sin e w He). intros k v Hk.
      rewrite lookup_empty in Hk. discriminate Hk.
    - intros k v Hk.
      destruct (step_modifiers random sin e w He k) as [E | [E | (_ & _ & E)]];
        rewrite E in Hk.
      + apply (Hw k v Hk).
      + injection Hk as <-. reflexivity.
      + discriminate Hk. }
  split; [exact H |]. intros k. apply truthy_10000. intros v. apply H.
Qed.

Lemma modifier_entries_are_installed_witness :
  installedOnly (activePowerUps pickupWorld)
  /\ activePowerUps (run halfDraws flatSin [Frame 16] pickupWorld) !! "SHIELD"
     = Some 10000
  /\ installedOnly (activePowerUps (run halfDraws flatSin [Frame 16] pickupWorld)).
Proof.
  assert (H0 : installedOnly (activePowerUps pickupWorld)).
  { intros k v Hk. cbn in Hk. rewrite lookup_empty in Hk. discriminate Hk. }
  destruct (modifier_entries_are_installed halfDraws flatSin [Frame 16] pickupWorld H0)
    as [H _].
  split; [exact H0 |]. split; [vm_compute; reflexivity | exact H].
Defined.

(** ** The position along a run *)

Lemma update_dimensions (random : nat -> Q) (sin : Q -> Q) (time : Q) (r : World) :
  dimensions (update random sin time r) = dimensions r.
Proof.
  apply (invariant_update random sin r (fun w => dimensions w = dimensions r)).
  - intros w w' H. pose proof (H Cdimensions eq_refl) as E. cbn [get] in E.
    rewrite E. exact (fun x => x).
  - intros w H. rewrite <- H.
    apply (modifies_handleDeath random r w Cdimensions eq_refl).
  - reflexivity.
Qed.

Lemma update_inBounds (random : nat -> Q) (sin : Q -> Q) (time : Q) (r : World) :
  inBounds r (playerY r) -> inBounds r (playerY (update random sin time r)).
Proof.
  intros Hin. unfold update.
  destruct (negb (GameState_eqb (gameState r) PLAYING)); [exact Hin |].
  destruct (lastTimeRef r) as [last |]; [| exact Hin].
  cbn [playerY setLastTimeRef]. rewrite advance_playerY. cbv zeta.
  destruct (outOfBounds r _) eqn:Ho; [exact Hin |].
  apply outOfBounds_false. exact Ho.
Qed.

Lemma update_listenerDimensions (random : nat -> Q) (sin : Q -> Q) (time : Q) (r : World) :
  listenerDimensions (update random sin time r) = listenerDimensions r.
Proof.
  apply (invariant_update random sin r
           (fun w => listenerDimensions w = listenerDimensions r)).
  - intros w w' H. pose proof (H ClistenerDimensions eq_refl) as E. cbn [get] in E.
    rewrite E. exact (fun x => x).
  - intros w H. rewrite <- H.
    apply (modifies_handleDeath random r w ClistenerDimensions eq_refl).
  - reflexivity.
Qed.

Lemma startGame_inBounds (r w : World) :
  80 <= height (dimensions r) -> inBounds r (playerY (startGame r w)).
Proof.
  intros H. unfold inBounds, PLAYER_SIZE. cbn [playerY startGame setGameState setBoss
    setIsPhoenixMode setActivePowerUps setProjectiles setParticles setPowerUps
    setObstacles setPlayerVelocity setPlayerY].
  set (h := height (dimensions r)) in *.
  assert (E : h / 2 == h * (1 # 2)) by (unfold Qdiv; reflexivity).
  rewrite E. split; lra.
Qed.

Lemma half_inBounds (r : World) :
  80 <= height (dimensions r) -> inBounds r (height (dimensions r) / 2).
Proof. intros H. apply (startGame_inBounds r r H). Qed.

(** One event that is no resize, in a world where half the height its
    keydown listener saw is a position in bounds. *)
Lemma step_inBounds (random : nat -> Q) (sin : Q -> Q) (e : Event) (w : World) :
  (forall iw ih, e <> WindowResize iw ih) ->
  80 <= height (dimensions w) ->
  inBounds w (height (listenerDimensions w) / 2) ->
  inBounds w (playerY w) ->
  dimensions (step random sin e w) = dimensions w
  /\ inBounds w (height (listenerDimensions (step random sin e w)) / 2)
  /\ inBounds w (playerY (step random sin e w)).
Proof.
  intros He Hh Hl Hin.
  assert (Hreact : dimensions (react random sin e w) = dimensions w
                   /\ listenerDimensions (react random sin e w) = listenerDimensions w
                   /\ inBounds w (playerY (react random sin e w))).
  { destruct e as [time | | | | | | | skin | index | iw ih]; cbn [react].
    - split; [apply update_dimensions |].
      split; [apply update_listenerDimensions | apply update_inBounds; exact Hin].
    - unfold handleJump. destruct (gameState w);
        (split; [reflexivity |]); (split; [reflexivity |]); try exact Hin.
      apply startGame_inBounds. exact Hh.
    - unfold handleJump, listenerRender. cbn [gameState setDimensions].
      destruct (gameState w);
        (split; [reflexivity |]); (split; [reflexivity |]); try exact Hin.
      exact Hl.
    - destruct (gameState w); (split; [reflexivity |]); (split; [reflexivity | exact Hin]).
    - destruct (gameState w); (split; [reflexivity |]); (split; [reflexivity | exact Hin]).
    - destruct (gameState w); (split; [reflexivity |]); (split; [reflexivity |]);
        try exact Hin; apply startGame_inBounds; exact Hh.
    - destruct (gameState w); (split; [reflexivity |]); (split; [reflexivity | exact Hin]).
    - destruct (gameState w);
        try ((split; [reflexivity |]); (split; [reflexivity | exact Hin])).
      destruct (bool_decide _);
        (split; [reflexivity |]); (split; [reflexivity | exact Hin]).
    - destruct (timers w !! index) as [t |];
        [| (split; [reflexivity |]); (split; [reflexivity | exact Hin])].
      destruct (callback t);
        (split; [reflexivity |]); (split; [reflexivity | exact Hin]).
    - exfalso. apply (He iw ih). reflexivity. }
  destruct Hreact as (Ed & El & Hy).
  pose proof (step_unchanged random sin e w Cdimensions eq_refl) as E1.
  pose proof (step_unchanged random sin e w CplayerY eq_refl) as E2.
  cbn [get] in E1, E2. rewrite E1, E2.
  split; [exact Ed |]. split; [| exact Hy].
  unfold step, rebind. destruct (GameState_eqb _ _).
  - rewrite El. exact Hl.
  - cbn [listenerDimensions setListenerDimensions]. rewrite Ed.
    apply half_inBounds. exact Hh.
Qed.

(** X7. The position along a run. In a window at least 80 high whose size
    does not change, and for which half the height seen by the keydown
    listener is a position in bounds (as it is when the listener was bound
    at the current size), a player within [0, height - PLAYER_SIZE] stays
    there through any sequence of events: updates keep the position in
    bounds, a restart by button or pointer puts it at half the height, and
    a restart by key at half the height the listener saw. *)
Theorem playerY_in_bounds_along_run (random : nat -> Q) (sin : Q -> Q) (es : list Event)
  (w : World) :
  keepsSize es = true ->
  80 <= height (dimensions w) ->
  inBounds w (height (listenerDimensions w) / 2) ->
  inBounds w (playerY w) ->
  dimensions (run random sin es w) = dimensions w
  /\ inBounds w (playerY (run random sin es w)).
Proof.
  revert w. unfold run. induction es as [| e es IH]; intros w Hes Hh Hl Hin; cbn.
  - split; [reflexivity | exact Hin].
  - cbn in Hes. apply andb_prop in Hes. destruct Hes as [He Hes].
    assert (Hne : forall iw ih, e <> WindowResize iw ih).
    { intros iw ih ->. discriminate He. }
    destruct (step_inBounds random sin e w Hne Hh Hl Hin) as (Ed & El & Hy).
    assert (Hin' : inBounds (step random sin e w) (playerY (step random sin e w))).
    { unfold inBounds in *. rewrite Ed. exact Hy. }
    assert (Hh' : 80 <= height (dimensions (step random sin e w))).
    { rewrite Ed. exact Hh. }
    assert (Hl' : inBounds (step random sin e w)
                    (height (listenerDimensions (step random sin e w)) / 2)).
    { unfold inBounds in *. rewrite Ed. exact El. }
    destruct (IH (step random sin e w) Hes Hh' Hl' Hin') as [Ed' Hy'].
    split; [rewrite Ed'; exact Ed |].
    unfold inBounds in *. rewrite Ed in Hy'. exact Hy'.
Qed.

Lemma playerY_in_bounds_along_run_witness :
  keepsSize keyRun = true
  /\ height (dimensions resizedStart) = 600
  /\ height (listenerDimensions resizedStart) = 800
  /\ inBounds resizedStart (height (listenerDimensions resizedStart) / 2)
  /\ inBounds resizedStart (playerY resizedStart)
  /\ gameState (run halfDraws flatSin keyRun resizedStart) = PLAYING
  /\ playerY (run halfDraws flatSin keyRun resizedStart) == 400
  /\ inBounds resizedStart (playerY (run halfDraws flatSin keyRun resizedStart)).
Proof.
  assert (Hh : 80 <= height (dimensions resizedStart)) by (unfold Qle; cbn; lia).
  assert (Hl : inBounds resizedStart (height (listenerDimensions resizedStart) / 2))
    by (unfold inBounds, Qle; cbn; lia).
  assert (Hin : inBounds resizedStart (playerY resizedStart))
    by (unfold inBounds, Qle; cbn; lia).
  destruct (playerY_in_bounds_along_run halfDraws flatSin keyRun resizedStart
              eq_refl Hh Hl Hin) as [_ H].
  split; [reflexivity |]. split; [reflexivity |]. split; [reflexivity |].
  split; [exact Hl |]. split; [exact Hin |].
  split; [vm_compute; reflexivity |]. split; [vm_compute; reflexivity | exact H].
Defined.

(** ** The boss fight *)

(** [advance] from the score function on, with what the world in which the
    score function runs holds. *)
Lemma advance_tail_stage (random : nat -> Q) (sin : Q -> Q) (r : World) (time last : Q) :
  exists (w4 : World) (newProjectile : option Projectile.t)
         (spawnedObstacle : option Obstacle.t),
    advance random sin r time last
    = (let w6 :=
         match boss r with
         | Some b => if Boss.active b then stepBoss random sin r time (stepScore r w4)
                     else stepScore r w4
         | None => stepScore r w4
         end in
       let w7 := stepProjectiles random r w6 in
       setProjectiles (appended newProjectile (projectiles w7)) w7)
    /\ boss w4 = boss r
    /\ score w4 = score r
    /\ projectiles w4 = projectiles r
    /\ confettiShots w4 = confettiShots r
    /\ obstacles w4
       = appended spawnedObstacle
           (advanceObstacles (currentSpeedOf r) ((time - last) / 16) (obstacles r))
    /\ spawnedObstacle = fst (rollObstacle random r (snd (rollProjectile random r r)))
    /\ newProjectile = fst (rollProjectile random r r).
Proof.
  destruct (advance_stages random sin r time last) as (w & a & b & sp & -> & Hw & _ & Hb).
  set (wp := stepPlayerY random r ((time - last) / 16) w).
  assert (Hp : unchanged (CplayerY :: deathCells ++ earlyCells) r wp).
  { apply unchanged_trans with (w2 := w).
    - apply unchanged_weaken with (cs := earlyCells); [reflexivity | exact Hw].
    - apply unchanged_weaken with (cs := CplayerY :: deathCells);
        [reflexivity | apply modifies_stepPlayerY]. }
  settle_stages. exists w4, a, b.
  assert (H1 : unchanged (Cobstacles :: deathCells) wp w1)
    by apply modifies_stepObstacles.
  assert (H3 : unchanged (CpowerUps :: pickupCells) w2 w3)
    by apply modifies_stepPowerUps.
  assert (Hcell : forall c : Cell,
             inCells c (Cobstacles :: CpowerUps :: CplayerY :: deathCells ++ earlyCells)
             = false -> get c w4 = get c r).
  { intros c Hc.
    assert (H : unchanged (Cobstacles :: CpowerUps :: CplayerY :: deathCells ++ earlyCells)
                  r w4).
    { apply unchanged_trans with (w2 := wp);
        [apply unchanged_weaken with (cs := CplayerY :: deathCells ++ earlyCells);
           [reflexivity | exact Hp] |].
      apply unchanged_trans with (w2 := w3); [| cells].
      apply unchanged_trans with (w2 := w2);
        [| apply unchanged_weaken with (cs := CpowerUps :: pickupCells);
             [reflexivity | exact H3]].
      apply unchanged_trans with (w2 := w1); [| cells].
      apply unchanged_weaken with (cs := Cobstacles :: deathCells);
        [reflexivity | exact H1]. }
    apply H. exact Hc. }
  split; [reflexivity |].
  split; [apply (Hcell Cboss eq_refl) |]. split; [apply (Hcell Cscore eq_refl) |].
  split; [apply (Hcell Cprojectiles eq_refl) |].
  split; [apply (Hcell CconfettiShots eq_refl) |].
  split; [| exact Hb].
  change (obstacles w4) with (obstacles w3).
  pose proof (H3 Cobstacles eq_refl) as E3. cbn [get] in E3. rewrite E3.
  subst w2 w1. unfold stepObstacles. cbn [obstacles setObstacles].
  pose proof (Hp Cobstacles eq_refl) as Eo. cbn [get] in Eo. rewrite Eo. reflexivity.
Qed.

Lemma mapWrites_projectileHit (random : nat -> Q) (b : Boss.t) (l : list Projectile.t)
  (w : World) :
  fst (mapWrites (projectileHit random b) l w)
  = map (fun p => if hitsBoss b p then Projectile.withX 10000 p else p) l
  /\ boss (snd (mapWrites (projectileHit random b) l w))
     = Nat.iter (length (List.filter (hitsBoss b) l)) hurt (boss w).
Proof.
  revert w. induction l as [| p l IH]; intros w; cbn; [split; reflexivity |].
  unfold projectileHit at 1 3.
  destruct (hitsBoss b p).
  - specialize (IH (createExplosion random (Projectile.x p) (Projectile.y p) "#f97316"
                      (damageBoss w))).
    destruct (mapWrites (projectileHit random b) l _) as [ps w2]. cbn [fst snd] in *.
    destruct IH as [IH1 IH2]. split; [f_equal; exact IH1 |].
    rewrite IH2. symmetry.
    apply (Nat.iter_succ_r (length (List.filter (hitsBoss b) l)) hurt (boss w)).
  - specialize (IH w).
    destruct (mapWrites (projectileHit random b) l w) as [ps w2]. cbn [fst snd] in *.
    destruct IH as [IH1 IH2]. split; [f_equal; exact IH1 | exact IH2].
Qed.



Lemma filter_marked (b : Boss.t) (limit : Q) (l : list Projectile.t) :
  limit <= 10000 ->
  List.filter (fun p => Qltb (Projectile.x p) limit)
    (map (fun p => if hitsBoss b p then Projectile.withX 10000 p else p) l)
  = List.filter (fun p => Qltb (Projectile.x p) limit)
      (List.filter (fun p => negb (hitsBoss b p)) l).
Proof.
  intros Hl. induction l as [| p l IH]; cbn; [reflexivity |].
  destruct (hitsBoss b p); cbn.
  - assert (E : Qltb 10000 limit = false) by (apply Qltb_false; exact Hl).
    rewrite E. exact IH.
  - destruct (Qltb (Projectile.x p) limit); [f_equal |]; exact IH.
Qed.

Lemma filter_all {A : Type} (f : A -> bool) (l : list A) :
  (forall a, f a = true) -> List.filter f l = l.
Proof.
  intros Hf. induction l as [| a l IH]; cbn; [reflexivity |].
  rewrite (Hf a), IH. reflexivity.
Qed.

Lemma filter_none {A : Type} (f : A -> bool) (l : list A) :
  (forall a, f a = false) -> List.filter f l = [].
Proof.
  intros Hf. induction l as [| a l IH]; cbn; [reflexivity |].
  rewrite (Hf a). exact IH.
Qed.

(** The projectile function on a world that holds the rendered pool. *)
Lemma stepProjectiles_cells (random : nat -> Q) (r w : World) :
  projectiles w = projectiles r ->
  (width (dimensions r) <= 10000 ->
   projectiles (stepProjectiles random r w)
   = List.filter (fun p => Qltb (Projectile.x p) (width (dimensions r)))
       (List.filter (fun p => negb (strikes r p)) (movedProjectiles r)))
  /\ boss (stepProjectiles random r w)
     = Nat.iter (length (List.filter (strikes r) (movedProjectiles r))) hurt (boss w).
Proof.
  intros Ep. unfold stepProjectiles, strikes, movedProjectiles. rewrite Ep.
  set (next := List.filter _ (map _ (projectiles r))).
  destruct (boss r) as [b |]; [destruct (Boss.active b) |]; cbn [andb].
  - destruct (mapWrites_projectileHit random b next w) as [H1 H2].
    destruct (mapWrites (projectileHit random b) next w) as [next' w1].
    cbn [fst snd] in *. cbn [projectiles boss setProjectiles]. split.
    + intros Hl. rewrite H1. apply filter_marked. exact Hl.
    + exact H2.
  - cbn [projectiles boss setProjectiles]. split.
    + intros _.
      rewrite (filter_all (fun _ : Projectile.t => negb false) next (fun _ => eq_refl)).
      reflexivity.
    + rewrite (filter_none (fun _ : Projectile.t => false) next (fun _ => eq_refl)).
      reflexivity.
  - cbn [projectiles boss setProjectiles]. split.
    + intros _.
      rewrite (filter_all (fun _ : Projectile.t => negb false) next (fun _ => eq_refl)).
      reflexivity.
    + rewrite (filter_none (fun _ : Projectile.t => false) next (fun _ => eq_refl)).
      reflexivity.
Qed.

Lemma in_appended {A : Type} (o : option A) (l : list A) (a : A) :
  In a (appended o l) <-> o = Some a \/ In a l.
Proof.
  destruct o as [b |]; cbn.
  - rewrite in_app_iff. cbn. split.
    + intros [H | [-> | []]]; [right; exact H | left; reflexivity].
    + intros [E | H]; [injection E as ->; right; left; reflexivity | left; exact H].
  - split; [intros H; right; exact H | intros [E | H]; [discriminate E | exact H]].
Qed.

(** What [rollProjectile] hands out: a shot from the player's nose, drawn
    with one chance in ten while FIRE_WINGS is held. *)
Lemma rollProjectile_shot (random : nat -> Q) (r w : World) (p : Projectile.t) :
  fst (rollProjectile random r w) = Some p ->
  truthy (activePowerUps r !! "FIRE_WINGS") = true
  /\ Qltb (random (randomCalls w)) (1 # 10) = true
  /\ Projectile.x p = 50 + PLAYER_SIZE
  /\ Projectile.y p = playerY r
  /\ Projectile.vx p = 15.
Proof.
  unfold rollProjectile. cbv zeta.
  destruct (truthy (activePowerUps r !! "FIRE_WINGS")); [| discriminate].
  destruct (Qltb (random (randomCalls w)) (1 # 10)); [| discriminate].
  cbn [fst]. intros E. injection E as <-. repeat split.
Qed.

(** X8. Projectiles. In a window at most 10000 wide, the projectile pool
    after an update is the moved projectiles that are left of the right
    edge and do not overlap the active rendered boss, followed by the shot
    [rollProjectile] draws in this update, if any. That shot is drawn only
    while FIRE_WINGS is held and starts at the player (x = 50 +
    PLAYER_SIZE, y = the rendered playerY); it is appended after the
    collision loop. So every member of the pool is that shot or a moved
    projectile that does not strike the boss: a moved projectile that
    strikes the boss is retired in the same update. *)
Theorem struck_projectiles_are_retired (random : nat -> Q) (sin : Q -> Q) (time last : Q)
  (r : World) :
  gameState r = PLAYING ->
  lastTimeRef r = Some last ->
  width (dimensions r) <= 10000 ->
  let fired := fst (rollProjectile random r r) in
  let kept :=
    List.filter (fun p => Qltb (Projectile.x p) (width (dimensions r)))
      (List.filter (fun p => negb (strikes r p)) (movedProjectiles r)) in
  projectiles (update random sin time r) = appended fired kept
  /\ (forall p : Projectile.t,
        fired = Some p ->
        truthy (activePowerUps r !! "FIRE_WINGS") = true
        /\ Qltb (random (randomCalls r)) (1 # 10) = true
        /\ Projectile.x p = 50 + PLAYER_SIZE
        /\ Projectile.y p = playerY r)
  /\ (forall p : Projectile.t,
        In p kept ->
        In p (movedProjectiles r) /\ strikes r p = false
        /\ Qltb (Projectile.x p) (width (dimensions r)) = true)
  /\ (forall p : Projectile.t,
        In p (projectiles (update random sin time r)) ->
        fired = Some p \/ (In p (movedProjectiles r) /\ strikes r p = false))
  /\ (forall p : Projectile.t,
        In p (movedProjectiles r) -> strikes r p = true -> fired <> Some p ->
        ~ In p (projectiles (update random sin time r))).
Proof.
  intros Hg Hl Hw fired kept.
  assert (Hkept : forall p : Projectile.t,
             In p kept ->
             In p (movedProjectiles r) /\ strikes r p = false
             /\ Qltb (Projectile.x p) (width (dimensions r)) = true).
  { intros p Hp. unfold kept in Hp.
    apply filter_In in Hp. destruct Hp as [Hp Hx].
    apply filter_In in Hp. destruct Hp as [Hp Hs].
    split; [exact Hp |]. split; [| exact Hx].
    destruct (strikes r p); [discriminate Hs | reflexivity]. }
  assert (Hpool : projectiles (update random sin time r) = appended fired kept).
  { rewrite (update_playing random sin time last r Hg Hl).
    destruct (advance_tail_stage random sin r time last)
      as (w4 & shot & so & -> & _ & _ & Ep & _ & _ & _ & ->).
    cbv zeta. cbn [projectiles setLastTimeRef setProjectiles]. fold fired.
    unfold kept. f_equal.
    apply stepProjectiles_cells; [| exact Hw].
    rewrite <- Ep.
    destruct (boss r) as [b |]; [destruct (Boss.active b) |].
    - etransitivity;
        [apply (modifies_stepBoss random sin r time _ Cprojectiles eq_refl) |].
      apply (modifies_stepScore r w4 Cprojectiles eq_refl).
    - apply (modifies_stepScore r w4 Cprojectiles eq_refl).
    - apply (modifies_stepScore r w4 Cprojectiles eq_refl). }
  split; [exact Hpool |]. split; [| split; [exact Hkept | split]].
  - intros p Hp.
    destruct (rollProjectile_shot random r r p Hp) as (H1 & H2 & H3 & H4 & _).
    repeat split; assumption.
  - intros p Hp. rewrite Hpool in Hp. apply in_appended in Hp.
    destruct Hp as [Hp | Hp]; [left; exact Hp | right].
    destruct (Hkept p Hp) as (H1 & H2 & _). split; assumption.
  - intros p _ Hs Hf Hp. rewrite Hpool in Hp. apply in_appended in Hp.
    destruct Hp as [Hp | Hp]; [exact (Hf Hp) |].
    destruct (Hkept p Hp) as (_ & H2 & _). rewrite H2 in Hs. discriminate Hs.
Qed.

Lemma struck_projectiles_are_retired_witness :
  gameState armedBossWorld = PLAYING
  /\ lastTimeRef armedBossWorld = Some 0
  /\ width (dimensions armedBossWorld) <= 10000
  /\ map Projectile.id (movedProjectiles armedBossWorld) = [NamedId "S1"; NamedId "S2"]
  /\ map (strikes armedBossWorld) (movedProjectiles armedBossWorld) = [true; false]
  /\ map (fun p => (Projectile.id p, Qred (Projectile.x p), Qred (Projectile.y p)))
       (projectiles (update lowDraws flatSin 16 armedBossWorld))
     = [(NamedId "S2", 105, 400); (RandomId (1 # 20), 90, 400)]
  /\ projectiles (update lowDraws flatSin 16 armedBossWorld)
     = appended (fst (rollProjectile lowDraws armedBossWorld armedBossWorld))
         (List.filter
            (fun p => Qltb (Projectile.x p) (width (dimensions armedBossWorld)))
            (List.filter (fun p => negb (strikes armedBossWorld p))
               (movedProjectiles armedBossWorld))).
Proof.
  assert (Hw : width (dimensions armedBossWorld) <= 10000) by (unfold Qle; cbn; lia).
  destruct (struck_projectiles_are_retired lowDraws flatSin 16 0 armedBossWorld
              eq_refl eq_refl Hw) as [H _].
  split; [reflexivity |]. split; [reflexivity |]. split; [exact Hw |].
  split; [vm_compute; reflexivity |]. split; [vm_compute; reflexivity |].
  split; [vm_compute; reflexivity | exact H].
Defined.

Lemma stepBoss_cells (random : nat -> Q) (sin : Q -> Q) (r : World) (time : Q) (w : World)
  (b : Boss.t) :
  boss w = Some b ->
  let approaching := Qltb (width (dimensions r) - 250) (Boss.x b) in
  boss (stepBoss random sin r time w)
  = (if Qle_bool (Boss.health b) 0 then None
     else Some (Boss.withXY (if approaching then Boss.x b - 2 else Boss.x b)
                  (if approaching then Boss.y b else Boss.y b + sin (time / 500) * 3) b))
  /\ confettiShots (stepBoss random sin r time w)
     = (if Qle_bool (Boss.health b) 0 then S (confettiShots w) else confettiShots w)
  /\ obstacles (stepBoss random sin r time w)
     = obstacles w
       ++ (if Qltb (random (randomCalls w)) (5 # 100)
           then [bossLaser random b (randomCalls w + 1)] else []).
Proof.
  intros Hb approaching. unfold stepBoss. rewrite Hb. cbv zeta. fold approaching.
  destruct (Qle_bool (Boss.health b) 0);
    destruct (Qltb (random (randomCalls w)) (5 # 100)); cbn;
    rewrite ?app_nil_r; repeat split.
Qed.



(** X10. The obstacle pool after an update. With a boss rendered the pool
    is the advanced pool followed by at most one laser of the boss, and no
    ordinary obstacle is spawned; without a boss it is empty when the
    update reaches a multiple of 1000, and otherwise the advanced pool
    followed by at most one spawned obstacle. *)
Theorem obstacle_pool_after_update (random : nat -> Q) (sin : Q -> Q) (time last : Q)
  (r : World) :
  gameState r = PLAYING ->
  lastTimeRef r = Some last ->
  let advanced :=
    advanceObstacles (currentSpeedOf r) ((time - last) / 16) (obstacles r) in
  let w' := update random sin time r in
  match boss r with
  | Some b =>
      exists lasers,
        obstacles w' = advanced ++ lasers
        /\ (lasers = []
            \/ (Boss.active b = true /\ exists n, lasers = [bossLaser random b n]))
  | None =>
      if (Z.rem (score r + 1) 1000 =? 0)%Z then obstacles w' = []
      else
        exists spawned,
          obstacles w' = appended spawned advanced
          /\ (spawned = None \/ exists n, spawned = Some (newObstacle random r n))
  end.
Proof.
  intros Hg Hl advanced w'. subst w'.
  rewrite (update_playing random sin time last r Hg Hl).
  destruct (advance_tail_stage random sin r time last)
    as (w4 & shot & so & -> & Eb & Es & _ & _ & Eo & Eso & _).
  fold advanced in Eo.
  cbv zeta. cbn [obstacles setLastTimeRef setProjectiles].
  destruct (stepScore_cells r w4) as (_ & Hboss & Hobs). rewrite Eb, Es, Eo in *.
  set (w5 := stepScore r w4) in *.
  destruct (boss r) as [b |] eqn:Hb.
  - cbn [isSome negb] in Hboss, Hobs. rewrite andb_false_r in Hboss, Hobs.
    assert (Eso' : so = None).
    { rewrite Eso. unfold rollObstacle. cbv zeta. rewrite Hb. cbn [isSome negb].
      rewrite andb_false_r. reflexivity. }
    rewrite Eso' in Hobs. cbn [appended] in Hobs.
    destruct (Boss.active b) eqn:Ha.
    + destruct (stepBoss_cells random sin r time w5 b Hboss) as (_ & _ & Hl6).
      set (w6 := stepBoss random sin r time w5) in *.
      pose proof (modifies_stepProjectiles random r w6 Cobstacles eq_refl) as E7.
      cbn [get] in E7. rewrite E7, Hl6, Hobs.
      eexists. split; [reflexivity |].
      destruct (Qltb _ _); [right; split; [reflexivity | eexists; reflexivity] | left; reflexivity].
    + pose proof (modifies_stepProjectiles random r w5 Cobstacles eq_refl) as E7.
      cbn [get] in E7. rewrite E7, Hobs. exists []. rewrite app_nil_r.
      split; [reflexivity | left; reflexivity].
  - cbn [isSome negb] in Hboss, Hobs. rewrite andb_true_r in Hboss, Hobs.
    pose proof (modifies_stepProjectiles random r w5 Cobstacles eq_refl) as E7.
    cbn [get] in E7. rewrite E7, Hobs.
    destruct (Z.rem (score r + 1) 1000 =? 0)%Z; [reflexivity |].
    exists so. split; [reflexivity |].
    rewrite Eso. unfold rollObstacle. cbv zeta.
    destruct (_ && _)%bool; cbn [fst]; [right; eexists; reflexivity | left; reflexivity].
Qed.

Lemma obstacle_pool_after_update_witness :
  gameState bossWorld = PLAYING
  /\ lastTimeRef bossWorld = Some 0
  /\ exists lasers,
       obstacles (update halfDraws flatSin 16 bossWorld)
       = advanceObstacles (currentSpeedOf bossWorld) ((16 - 0) / 16) (obstacles bossWorld)
         ++ lasers.
Proof.
  pose proof (obstacle_pool_after_update halfDraws flatSin 16 0 bossWorld
                eq_refl eq_refl) as H.
  cbv zeta in H. change (boss bossWorld)
    with (Some (Boss.withXY 1030 300 (newBoss exampleWorld))) in H.
  destruct H as (lasers & H & _).
  split; [reflexivity |]. split; [reflexivity |]. exists lasers. exact H.
Defined.

(** ** Unlocking a skin *)

Lemma setOrder_ext (seen seen' l : list string) :
  (forall x, x ∈ seen <-> x ∈ seen') -> setOrder seen l = setOrder seen' l.
Proof.
  revert seen seen'. induction l as [| s l IH]; intros seen seen' H; cbn; [reflexivity |].
  rewrite (bool_decide_ext (s ∈ seen) (s ∈ seen') (H s)).
  destruct (bool_decide (s ∈ seen')); [apply IH; exact H |].
  f_equal. apply IH. intros x. rewrite !elem_of_cons, H. reflexivity.
Qed.

Lemma setOrder_app (seen l1 l2 : list string) :
  setOrder seen (l1 ++ l2) = setOrder seen l1 ++ setOrder (l1 ++ seen) l2.
Proof.
  revert seen. induction l1 as [| s l1 IH]; intros seen; cbn; [reflexivity |].
  destruct (bool_decide (s ∈ seen)) eqn:E.
  - apply bool_decide_eq_true in E. rewrite IH. f_equal. apply setOrder_ext.
    intros x. rewrite elem_of_cons, !elem_of_app. split; [tauto |].
    intros [-> | H]; tauto.
  - cbn. f_equal. rewrite IH. f_equal. apply setOrder_ext.
    intros x. rewrite elem_of_cons, !elem_of_app, elem_of_cons. tauto.
Qed.

Lemma setOrder_NoDup_id (seen l : list string) :
  NoDup l -> (forall x, x ∈ l -> x ∉ seen) -> setOrder seen l = l.
Proof.
  intros Hl. revert seen. induction Hl as [| s l Hs Hl IH]; intros seen H; cbn;
    [reflexivity |].
  rewrite bool_decide_eq_false_2; [| apply H; left].
  f_equal. apply IH. intros x Hx [-> | Hin]%elem_of_cons; [contradiction |].
  apply (H x); [right; exact Hx | exact Hin].
Qed.

(** X11. Unlocking a skin. When a challenge completes, its reward is
    appended to a duplicate-free list of unlocked skins if it is not in the
    list, and the list is left as it is, order included, if it is. *)
Theorem unlocking_appends_once (r : World) (nextScore : Z) (c : Challenge.t) (w : World) :
  NoDup (unlockedSkins w) ->
  negb (Challenge.completed c) && negb (isPhoenixMode r) = true ->
  Qle_bool (Challenge.target c) (inject_Z nextScore / 10) = true ->
  unlockedSkins (snd (updateChallenge r nextScore c w))
  = if bool_decide (Challenge.rewardSkin c ∈ unlockedSkins w)
    then unlockedSkins w
    else unlockedSkins w ++ [Challenge.rewardSkin c].
Proof.
  intros Hnd Hopen Hdone. unfold updateChallenge. rewrite Hopen. cbv zeta.
  rewrite Hdone. cbn [snd unlockedSkins setUnlockedSkins]. unfold uniq.
  rewrite setOrder_app, app_nil_r.
  rewrite (setOrder_NoDup_id [] (unlockedSkins w) Hnd);
    [| intros x _ H; inversion H].
  cbn. destruct (bool_decide _); [apply app_nil_r | reflexivity].
Qed.

Lemma unlocking_appends_once_witness :
  NoDup (unlockedSkins exampleWorld)
  /\ unlockedSkins
       (snd (updateChallenge exampleWorld 5000
               (Challenge.mk "CHALLENGE_1" "Survive 500m without dying" 500 0 false "ICE")
               exampleWorld))
     = ["DEFAULT"; "ICE"]%string
  /\ unlockedSkins
       (snd (updateChallenge exampleWorld 5000
               (Challenge.mk "CHALLENGE_2" "Again" 500 0 false "DEFAULT") exampleWorld))
     = ["DEFAULT"]%string.
Proof.
  assert (Hnd : NoDup (unlockedSkins exampleWorld)).
  { cbn. constructor; [intros H; inversion H | constructor]. }
  split; [exact Hnd |]. split.
  - rewrite (unlocking_appends_once exampleWorld 5000
               (Challenge.mk "CHALLENGE_1" "Survive 500m without dying" 500 0 false "ICE")
               exampleWorld Hnd eq_refl eq_refl).
    reflexivity.
  - rewrite (unlocking_appends_once exampleWorld 5000
               (Challenge.mk "CHALLENGE_2" "Again" 500 0 false "DEFAULT")
               exampleWorld Hnd eq_refl eq_refl).
    reflexivity.
Defined.

(** ** Where spawns are placed *)

Lemma Qfloor_draw (d : Q) : 0 <= d -> d < 1 -> (0 <= Qfloor (d * 4) <= 3)%Z.
Proof.
  intros H0 H1. split.
  - change 0%Z with (Qfloor 0). apply Qfloor_resp_le. lra.
  - assert (H : inject_Z (Qfloor (d * 4)) < inject_Z 4).
    { eapply Qle_lt_trans; [apply Qfloor_le |].
      change (inject_Z 4) with 4. lra. }
    rewrite <- Zlt_Qlt in H. lia.
Qed.

Lemma spawn_height (d h : Q) :
  0 <= d -> d < 1 -> 100 <= h -> 50 <= d * (h - 100) + 50 /\ d * (h - 100) + 50 <= h - 50.
Proof.
  intros H0 H1 Hh.
  assert (Ha : 0 <= d * (h - 100)) by (apply Qmult_le_0_compat; lra).
  assert (Hb : 0 <= (1 - d) * (h - 100)) by (apply Qmult_le_0_compat; lra).
  split; [lra |].
  assert (E : (1 - d) * (h - 100) == (h - 100) - d * (h - 100)) by ring.
  rewrite E in Hb. lra.
Qed.

(** X13. Where spawns are placed. For draws in [0, 1) the index into
    [types] is one of 0..3, so a kind is always selected; in a window at
    least 100 high an obstacle or power-up is created 100 beyond the right
    edge, vertically within [50, height - 50], and only lasers are tall. *)
Theorem spawns_are_placed_ahead (random : nat -> Q) (r : World) (n : nat) :
  (forall k, 0 <= random k /\ random k < 1) ->
  100 <= height (dimensions r) ->
  let o := newObstacle random r n in
  let p := newPowerUp random r n in
  (0 <= Qfloor (random n * 4) <= 3)%Z
  /\ Obstacle.type o = obstacleTypeAt (Qfloor (random n * 4))
  /\ PowerUp.type p = powerUpTypeAt (Qfloor (random n * 4))
  /\ Obstacle.x o = width (dimensions r) + 100
  /\ PowerUp.x p = width (dimensions r) + 100
  /\ (50 <= Obstacle.y o /\ Obstacle.y o <= height (dimensions r) - 50)
  /\ (50 <= PowerUp.y p /\ PowerUp.y p <= height (dimensions r) - 50)
  /\ Obstacle.height o = (if (Qfloor (random n * 4) =? 1)%Z then 200 else 60).
Proof.
  intros Hd Hh o p. subst o p.
  destruct (Hd n) as [H0 H1]. destruct (Hd (n + 2)%nat) as [H2 H3].
  pose proof (Qfloor_draw (random n) H0 H1) as Hi.
  split; [exact Hi |]. split; [reflexivity |]. split; [reflexivity |].
  split; [reflexivity |]. split; [reflexivity |].
  split; [apply spawn_height; assumption |].
  split; [apply spawn_height; assumption |].
  cbn [newObstacle Obstacle.height].
  destruct (Qfloor (random n * 4)) as [| i | i]; [reflexivity | | lia].
  destruct i as [[| |] | [| |] |]; try reflexivity; lia.
Qed.

Lemma spawns_are_placed_ahead_witness :
  (forall k, 0 <= halfDraws k /\ halfDraws k < 1)
  /\ 100 <= height (dimensions exampleWorld)
  /\ Obstacle.type (newObstacle halfDraws exampleWorld 0) = STORM
  /\ Obstacle.height (newObstacle halfDraws exampleWorld 0) = 60
  /\ 50 <= Obstacle.y (newObstacle halfDraws exampleWorld 0)
  /\ Obstacle.y (newObstacle halfDraws exampleWorld 0) <= 800 - 50.
Proof.
  assert (Hd : forall k, 0 <= halfDraws k /\ halfDraws k < 1).
  { intros k. unfold halfDraws, Qle, Qlt. cbn. lia. }
  assert (Hh : 100 <= height (dimensions exampleWorld)) by (unfold Qle; cbn; lia).
  destruct (spawns_are_placed_ahead halfDraws exampleWorld 0 Hd Hh)
    as (_ & _ & _ & _ & _ & [Hy1 Hy2] & _ & Hheight).
  split; [exact Hd |]. split; [exact Hh |]. split; [reflexivity |].
  split; [exact Hheight |]. split; [exact Hy1 | exact Hy2].
Defined.

(** ** Particles *)

Lemma explosionParticles_In (random : nat -> Q) (count n : nat) (x y : Q)
  (color : string) (p : Particle.t) :
  In p (explosionParticles random count n x y color) ->
  Particle.life p = 1 /\ Particle.x p = x /\ Particle.y p = y
  /\ Particle.color p = color.
Proof.
  revert n. induction count as [| count IH]; intros n; cbn; [intros [] |].
  intros [<- | H]; [repeat split | apply (IH _ H)].
Qed.

Section ParticleInvariant.

Variable random : nat -> Q.
Variable sin : Q -> Q.
Variable r : World.

(** A property of the particle pool that appending an explosion keeps. *)
Variable P : list Particle.t -> Prop.
Hypothesis P_explosion :
  forall l n x y color, P l -> P (l ++ explosionParticles random 15 n x y color).

Lemma particles_createExplosion (x y : Q) (color : string) (w : World) :
  P (particles w) -> P (particles (createExplosion random x y color w)).
Proof. intros H. cbn. apply P_explosion. exact H. Qed.

Lemma particles_handleDeath (w : World) :
  P (particles w) -> P (particles (handleDeath random r w)).
Proof.
  intros H. unfold handleDeath.
  destruct (truthy (activePowerUps r !! "SHIELD"));
    [apply particles_createExplosion; exact H |].
  destruct (truthy (activePowerUps r !! "PHOENIX") || negb (isPhoenixMode r)).
  - cbn. apply P_explosion. exact H.
  - destruct (score r >? highScore r)%Z; exact H.
Qed.

Lemma particles_modifies (cs : list Cell) (f : World -> World) (w : World) :
  inCells Cparticles cs = false -> modifies cs f ->
  P (particles w) -> P (particles (f w)).
Proof.
  intros Hc Hf H. pose proof (Hf w Cparticles Hc) as E. cbn [get] in E.
  rewrite E. exact H.
Qed.

Lemma particles_settleWorld (time deltaTime currentSpeed : Q)
  (newProjectile : option Projectile.t) (spawnedObstacle : option Obstacle.t)
  (spawnedPowerUp : option PowerUp.t) (w : World) :
  P (particles w) ->
  P (particles
       (settleWorld random sin r time deltaTime currentSpeed newProjectile
          spawnedObstacle spawnedPowerUp w)).
Proof.
  intros Hw. settle_stages.
  assert (H1 : P (particles w1)).
  { subst w1. unfold stepObstacles. cbn [particles setObstacles].
    apply (forEach_invariant (fun w0 => P (particles w0))); [| exact Hw].
    intros o w0 H0. unfold obstacleHit. destruct (hitsPlayer _ _ _ _ _); [| exact H0].
    destruct (truthy (activePowerUps r !! "FIRE_WINGS"));
      [apply particles_createExplosion; exact H0 |].
    destruct (negb _); [apply particles_handleDeath |]; exact H0. }
  assert (H3 : P (particles w3)).
  { subst w3 w2. unfold stepPowerUps. cbn [particles setPowerUps].
    apply (forEach_invariant (fun w0 => P (particles w0))); [| exact H1].
    intros q w0 H0. unfold powerUpHit. destruct (hitsPlayer _ _ _ _ _); [| exact H0].
    cbn. apply P_explosion. exact H0. }
  assert (H5 : P (particles w5)).
  { subst w5 w4. apply (particles_modifies scoreCells); [reflexivity | | exact H3].
    apply modifies_stepScore. }
  assert (H6 : P (particles w6)).
  { subst w6. destruct (boss r) as [b |]; [destruct (Boss.active b) |]; try exact H5.
    unfold stepBoss. destruct (boss w5) as [prev |]; [| exact H5]. cbv zeta.
    set (w5' := if Qltb _ _ then _ else _).
    assert (H5' : P (particles w5')).
    { subst w5'. destruct (Qltb _ _); exact H5. }
    destruct (Qle_bool _ _); [| exact H5'].
    cbn. apply P_explosion. exact H5'. }
  change (P (particles w7)). subst w7. clearbody w6. unfold stepProjectiles.
  set (next := List.filter _ _).
  assert (H7 : P (particles
                    (snd match boss r with
                         | Some b =>
                             if Boss.active b
                             then mapWrites (projectileHit random b) next w6
                             else (next, w6)
                         | None => (next, w6)
                         end))).
  { destruct (boss r) as [b |]; [destruct (Boss.active b) |]; cbn [snd];
      try exact H6.
    apply (mapWrites_invariant (fun w0 => P (particles w0))); [| exact H6].
    intros q w0 H0. unfold projectileHit. destruct (hitsBoss b q); [| exact H0].
    cbn. apply P_explosion. exact H0. }
  destruct (match boss r with Some _ => _ | None => _ end) as [next' w8]. exact H7.
Qed.

Lemma particles_advance (time last : Q) :
  P (particles (stepParticles r)) -> P (particles (advance random sin r time last)).
Proof.
  intros Hr. unfold advance. cbv zeta.
  pose proof (unchanged_rollProjectile random r r) as H1.
  destruct (rollProjectile random r r) as [shot w1]. cbn [snd] in H1.
  pose proof (unchanged_rollObstacle random r w1) as H2.
  destruct (rollObstacle random r w1) as [obst w2]. cbn [snd] in H2.
  pose proof (unchanged_rollPowerUp random r w2) as H3.
  destruct (rollPowerUp random r w2) as [pwr w3]. cbn [snd] in H3.
  assert (E : particles w3 = particles r).
  { pose proof (H1 Cparticles eq_refl) as E1. pose proof (H2 Cparticles eq_refl) as E2.
    pose proof (H3 Cparticles eq_refl) as E3. cbn [get] in *. congruence. }
  apply particles_settleWorld.
  unfold stepPlayerY. cbv zeta. destruct (outOfBounds _ _).
  - apply particles_handleDeath. unfold stepParticles in *. cbn in *.
    rewrite E. exact Hr.
  - unfold stepParticles in *. cbn in *. rewrite E. exact Hr.
Qed.

End ParticleInvariant.

(** X12. Particles. After an update that advances the world every particle
    in the pool has a positive life: the old ones lost 0.02 and were dropped
    at 0 or below, and the explosions of this update start at 1. *)
Theorem particles_are_alive (random : nat -> Q) (sin : Q -> Q) (time last : Q)
  (r : World) :
  gameState r = PLAYING ->
  lastTimeRef r = Some last ->
  forall p : Particle.t,
    In p (particles (update random sin time r)) -> 0 < Particle.life p.
Proof.
  intros Hg Hl. rewrite (update_playing random sin time last r Hg Hl).
  cbn [particles setLastTimeRef].
  apply (particles_advance random sin r
           (fun l => forall p, In p l -> 0 < Particle.life p)).
  - intros l n x y color H p [Hp | Hp]%in_app_or; [apply H; exact Hp |].
    apply explosionParticles_In in Hp. destruct Hp as [-> _]. reflexivity.
  - intros p Hp. unfold stepParticles in Hp. cbn in Hp.
    apply filter_In in Hp. destruct Hp as [_ Hp]. apply Qltb_true. exact Hp.
Qed.

Lemma particles_are_alive_witness :
  gameState dyingWorld = PLAYING
  /\ lastTimeRef dyingWorld = Some 0
  /\ length (particles dyingWorld) = 2%nat
  /\ length (particles (update halfDraws flatSin 16 dyingWorld)) = 1%nat
  /\ forall p : Particle.t,
       In p (particles (update halfDraws flatSin 16 dyingWorld)) -> 0 < Particle.life p.
Proof.
  split; [reflexivity |]. split; [reflexivity |]. split; [reflexivity |].
  split; [vm_compute; reflexivity |].
  apply (particles_are_alive halfDraws flatSin 16 0 dyingWorld eq_refl eq_refl).
Defined.
